(** * HSSP profile generation (xssp): a shallow embedding of the jackhmmer
      pipeline (hmmer-hssp) and of the older BLAST/Clustal pipeline (hh-hssp)

    The C++ sources are embedded function by function.  Conventions:
    - [std::string] is a [list ascii]; literals go through [str];
    - [uint32] counters are [Z] with the wrap-around modulo [2^32] written
      out ([u32]); vector positions are [nat];
    - [float] is IEEE binary32 and [double] binary64, both on [spec_float]
      with the round-to-nearest-even operations of [SpecFloat];
    - a call either returns, throws a C++ exception, stops on a failed
      [assert] (only when the build leaves assertions on), leaves the
      behaviour defined by the language (a read outside a buffer) or has no
      end: type [outcome];
    - an input stream is the list of the pieces its newlines separate, the
      last of them what follows the last newline. *)

From Stdlib Require Import String Ascii ZArith List Bool Arith Lia.
From Stdlib Require Import Permutation Sorted SpecFloat.
Import ListNotations.

(** ** Strings *)

Definition str (s : string) : list ascii := list_ascii_of_string s.

Module Str.

Definition t := list ascii.

Definition eqb (a b : t) : bool :=
  if list_eq_dec ascii_dec a b then true else false.

(** [ba::starts_with(s, p)] *)
Fixpoint starts_with (s p : t) : bool :=
  match p, s with
  | [], _ => true
  | _ :: _, [] => false
  | c :: p', d :: s' => Ascii.eqb c d && starts_with s' p'
  end.

(** [s.find(c)] for a character: the first position holding [c]. *)
Fixpoint find_char (c : ascii) (s : t) : option nat :=
  match s with
  | [] => None
  | d :: s' => if Ascii.eqb d c then Some 0
               else option_map S (find_char c s')
  end.

(** [s.find(p)] for a string: the first position where [p] occurs. *)
Fixpoint find (s p : t) : option nat :=
  if starts_with s p then Some 0
  else match s with
       | [] => None
       | _ :: s' => option_map S (find s' p)
       end.

(** [s.substr(n)] and [s.substr(0, n)] *)
Definition substr_from (n : nat) (s : t) : t := skipn n s.
Definition substr_to (n : nat) (s : t) : t := firstn n s.

Fixpoint drop_while (p : ascii -> bool) (s : t) : t :=
  match s with
  | [] => []
  | c :: s' => if p c then drop_while p s' else s
  end.

(** [std::isspace] in the C locale *)
Definition isspace (c : ascii) : bool :=
  let n := N_of_ascii c in
  (n =? 32)%N || ((9 <=? n)%N && (n <=? 13)%N).

(** [ba::trim] *)
Definition trim (s : t) : t :=
  rev (drop_while isspace (rev (drop_while isspace s))).

Definition isdigit (c : ascii) : bool :=
  let n := N_of_ascii c in (48 <=? n)%N && (n <=? 57)%N.

(** [tolower] in the C locale *)
Definition tolower (c : ascii) : ascii :=
  let n := N_of_ascii c in
  if (65 <=? n)%N && (n <=? 90)%N then ascii_of_N (n + 32) else c.

End Str.

(** ** Machine integers and floats *)

Definition u32 (z : Z) : Z := z mod 2 ^ 32.

Module F32.
(** IEEE binary32, the C++ [float]. *)
Definition prec : Z := 24.
Definition emax : Z := 128.
Definition of_Z (z : Z) : spec_float := binary_normalize prec emax z 0 false.
Definition div : spec_float -> spec_float -> spec_float := SFdiv prec emax.
Definition mul : spec_float -> spec_float -> spec_float := SFmul prec emax.
Definition add : spec_float -> spec_float -> spec_float := SFadd prec emax.
Definition sub : spec_float -> spec_float -> spec_float := SFsub prec emax.
(** a decimal literal [n/d] with the suffix [f]: the nearest binary32 *)
Definition lit (n d : Z) : spec_float := div (of_Z n) (of_Z d).
Definition zero : spec_float := S754_zero false.
Definition one : spec_float := of_Z 1.
End F32.

Module F64.
(** IEEE binary64, the C++ [double]. *)
Definition prec : Z := 53.
Definition emax : Z := 1024.
Definition of_Z (z : Z) : spec_float := binary_normalize prec emax z 0 false.
Definition div : spec_float -> spec_float -> spec_float := SFdiv prec emax.
(** a decimal literal [n/d]: the nearest binary64 *)
Definition lit (n d : Z) : spec_float := div (of_Z n) (of_Z d).
(** the promotion of a [float] to [double], which is exact *)
Definition of_f32 (x : spec_float) : spec_float :=
  match x with
  | S754_finite s m e => binary_normalize prec emax (cond_Zopp s (Zpos m)) e false
  | _ => x
  end.
End F64.

(** ** Outcomes of a call *)

(** How a call ends: it returns, it throws, an assertion fails, its
    behaviour is undefined, or it does not end at all. *)
Inductive outcome (A : Type) : Type :=
| Ok (a : A)
| Throw (what : string)
| AssertFail
| Undef
| Loops.

Arguments Ok {A} a.
Arguments Throw {A} what.
Arguments AssertFail {A}.
Arguments Undef {A}.
Arguments Loops {A}.

Definition bind {A B} (m : outcome A) (k : A -> outcome B) : outcome B :=
  match m with
  | Ok a => k a
  | Throw w => Throw w
  | AssertFail => AssertFail
  | Undef => Undef
  | Loops => Loops
  end.

Notation "x <- m ;; k" := (bind m (fun x => k))
  (at level 61, m at next level, right associativity).
Notation "' p <- m ;; k" := (bind m (fun x => let p := x in k))
  (at level 61, p pattern, m at next level, right associativity).

Definition throws {A} (m : outcome A) : Prop := exists w, m = Throw w.
Definition returns {A} (m : outcome A) : Prop := exists a, m = Ok a.

Definition fmap {A B} (f : A -> B) (m : outcome A) : outcome B :=
  match m with
  | Ok a => Ok (f a)
  | Throw w => Throw w
  | AssertFail => AssertFail
  | Undef => Undef
  | Loops => Loops
  end.

(** [assert(c)]: checked unless the build defines [NDEBUG]. *)
Definition assert (ndebug c : bool) : outcome unit :=
  if ndebug || c then Ok tt else AssertFail.

(** ** The alignment container *)

Definition is_gap (aa : ascii) : bool :=
  Ascii.eqb aa "-" || Ascii.eqb aa "~" || Ascii.eqb aa "." || Ascii.eqb aa "_".

Record seq : Type := mkseq {
  m_id : Str.t;
  m_seq : Str.t;
  m_identical : Z;
  m_length : Z
}.

(** [seq(const string& id)] *)
Definition new_seq (id : Str.t) : seq := mkseq id [] 0 0.

Definition mseq := list seq.

(** [v[i] = f(v[i])] on a vector; out of range is undefined in C++ and is
    caught before every use below. *)
Fixpoint update {A} (i : nat) (f : A -> A) (v : list A) : list A :=
  match v, i with
  | [], _ => []
  | x :: v', 0 => f x :: v'
  | x :: v', S i' => x :: update i' f v'
  end.

(** ** ReadStockholm *)

(** precalculated threshold table for identity values between 10 and 80 *)
Definition kHomologyThreshold : list spec_float :=
  map (fun n => F64.lit n 1000000)
  [ 845468; 803980; 767997; 736414; 708413; 683373; 660811; 640351; 621688; 604579;
    588820; 574246; 560718; 548117; 536344; 525314; 514951; 505194; 495984; 487275;
    479023; 471189; 463741; 456647; 449882; 443420; 437240; 431323; 425651; 420207;
    414976; 409947; 405105; 400440; 395941; 391599; 387406; 383352; 379431; 375636;
    371960; 368396; 364941; 361587; 358331; 355168; 352093; 349103; 346194; 343362;
    340604; 337917; 335298; 332744; 330252; 327821; 325448; 323129; 320865; 318652;
    316488; 314372; 312302; 310277; 308294; 306353; 304452; 302589; 300764; 298975;
    297221 ]%Z.

(** [boost::regex_match(id, sm, "(.+?)-i(?:\\d+)$")] and [sm.str(1)]: the
    whole id is a non-empty prefix, then [-i], then one or more digits up to
    the end.  A digit is never [i], so the digits are the longest run of
    digits at the end and the prefix is unique. *)
Fixpoint span_digits (s : Str.t) : Str.t * Str.t :=
  match s with
  | c :: s' => if Str.isdigit c
               then let '(d, r) := span_digits s' in (c :: d, r)
               else ([], s)
  | [] => ([], [])
  end.

Definition strip_iteration (id : Str.t) : Str.t :=
  match span_digits (rev id) with
  | (_ :: _, c1 :: c2 :: (_ :: _) as x) =>
      if Ascii.eqb c1 "i" && Ascii.eqb c2 "-" then rev x else id
  | _ => id
  end.

(** The loop over [qseq] of lines 184-191.  The hit iterator [si] is never
    compared with [seq.end()]: a hit line shorter than the query line is read
    past its end. *)
Fixpoint count_columns (qseq sq : Str.t) (ident len : Z) : outcome (Z * Z) :=
  match qseq with
  | [] => Ok (ident, len)
  | qi :: qseq' =>
      match sq with
      | [] => Undef
      | si :: sq' =>
          let ident' := if negb (is_gap qi) && Ascii.eqb qi si
                        then u32 (ident + 1) else ident in
          let len' := if negb (is_gap qi) || negb (is_gap si)
                      then u32 (len + 1) else len in
          count_columns qseq' sq' ident' len'
      end
  end.

Definition append_seq (sq : Str.t) (s : seq) : seq :=
  mkseq (m_id s) (m_seq s ++ sq) (m_identical s) (m_length s).

Definition set_counts (c : Z * Z) (s : seq) : seq :=
  mkseq (m_id s) (m_seq s) (fst c) (snd c).

(** The removal loop of lines 200-214 over the hits [msa.begin() + 1 ..]. *)
Definition score (s : seq) : spec_float :=
  F32.div (F32.of_Z (m_identical s)) (F32.of_Z (m_length s)).

Definition threshold_index (s : seq) : nat :=
  Z.to_nat (Z.max 10 (Z.min (m_length s) 80) - 10).

Definition below_threshold (s : seq) : bool :=
  SFltb (F64.of_f32 (score s))
        (nth (threshold_index s) kHomologyThreshold S754_nan).

Fixpoint remove_below (hits : mseq) : mseq :=
  match hits with
  | [] => []
  | mi :: rest => if below_threshold mi then remove_below rest
                  else mi :: remove_below rest
  end.

Section Parser.

Variable ndebug : bool.

(** One data line [id<spaces>seq] whose id is not the query's (lines 173-192). *)
Definition hit_line (id sq qseq : Str.t) (msa : mseq) (ix : nat)
  : outcome (mseq * nat) :=
  let ix := S ix in
  let msa := if length msa <=? ix then msa ++ [new_seq id] else msa in
  _ <- assert ndebug (ix <? length msa) ;;
  match nth_error msa ix with
  | None => Undef
  | Some s =>
      _ <- assert ndebug (Str.eqb id (m_id s)) ;;
      c <- count_columns qseq sq (m_identical s) (m_length s) ;;
      Ok (update ix (fun s => set_counts c (append_seq sq s)) msa, ix)
  end.

(** The body of the loop for a line that is neither empty nor [//] (lines
    138-192): the alignment, [ix] and [qseq] as one round leaves them. *)
Definition round (line : Str.t) (msa : mseq) (ix : nat) (qseq : Str.t)
  : outcome (mseq * nat * Str.t) :=
  if Str.starts_with line (str "#=GS ") then
    let id := Str.substr_from 5 line in
    let id := match Str.find id (str "DE ") with
              | Some s => Str.substr_to s id
              | None => id
              end in
    let id := Str.trim id in
    match msa with
    | [] => Undef
    | front :: _ =>
        let msa' := if (1 <? length msa) || negb (Str.eqb (m_id front) id)
                    then msa ++ [new_seq id] else msa in
        Ok (msa', ix, qseq)
    end
  else if negb (Ascii.eqb (hd Ascii.zero line) "#") then
    match Str.find_char " " line with
    | None => Throw "Invalid stockholm file"
    | Some s =>
        let id := Str.substr_to s line in
        let sq := Str.drop_while (Ascii.eqb " ") (Str.substr_from s line) in
        match msa with
        | [] => Undef
        | q0 :: others =>
            if Str.eqb id (m_id q0) then Ok (append_seq sq q0 :: others, 0, sq)
            else '(msa', ix') <- hit_line id sq qseq msa ix ;; Ok (msa', ix', qseq)
        end
    end
  else Ok (msa, ix, qseq).

(** [n] rounds of the body on one and the same line *)
Fixpoint rounds (n : nat) (line : Str.t) (msa : mseq) (ix : nat) (qseq : Str.t)
  : outcome (mseq * nat * Str.t) :=
  match n with
  | 0 => Ok (msa, ix, qseq)
  | S n' => '(msa', ix', qseq') <- round line msa ix qseq ;;
            rounds n' line msa' ix' qseq'
  end.

(** The loop once the stream is at its end: [getline] fails and leaves
    [line] as it is, so every round sees the line of the round before.  An
    empty line ends the loop, since [is.eof()] holds, and so does [//]; on
    any other line the body runs again and again.  A round can only fail on
    a row that was there when the stream ended: when the first
    [length msa + 1] rounds pass, every later one does (lemma
    [rounds_never_fail]), and the loop has no end. *)
Definition at_end (line : Str.t) (msa : mseq) (ix : nat) (qseq : Str.t)
  : outcome mseq :=
  match line with
  | [] => Ok msa
  | _ :: _ =>
      if Str.eqb line (str "//") then Ok msa
      else _ <- rounds (S (length msa)) line msa ix qseq ;; Loops
  end.

(** An input stream is the list of the pieces its newlines separate: every
    piece but the last is a line that ends in a newline, the last piece is
    what follows the last newline, and is empty when the stream ends in a
    newline.  The empty list is a stream at its end.

    [getline]: the next piece; reading the last piece sets [eofbit], and at
    the end of the stream the call fails before it touches [line]. *)
Definition getline (strm : list Str.t) (line : Str.t) : Str.t * list Str.t :=
  match strm with
  | [] => (line, [])
  | l :: r => (l, r)
  end.

(** The [for (;;)] loop of lines 126-194; [line], [ix] and [qseq] are its
    locals.  Each round starts with [getline], as above; after it
    [is.eof()] holds when no piece is left. *)
Fixpoint read_lines (line : Str.t) (strm : list Str.t) (msa : mseq) (ix : nat)
    (qseq : Str.t) : outcome mseq :=
  match strm with
  | [] => at_end line msa ix qseq
  | l :: rest =>
      match l with
      | [] => match rest with
              | [] => Ok msa
              | _ :: _ => read_lines l rest msa ix qseq
              end
      | _ :: _ =>
          if Str.eqb l (str "//") then Ok msa
          else '(msa', ix', qseq') <- round l msa ix qseq ;;
               read_lines l rest msa' ix' qseq'
      end
  end.

Definition ReadStockholm (strm : list Str.t) (msa : mseq) : outcome mseq :=
  let '(line, strm) := getline strm [] in
  if negb (Str.eqb line (str "# STOCKHOLM 1.0")) then Throw "Not a stockholm file"
  else
    let '(line, strm) := getline strm line in
    if negb (Str.starts_with line (str "#=GF ID "))
    then Throw "Not a valid stockholm file, missing #=GF ID line"
    else
      let id := strip_iteration (Str.substr_from 8 line) in
      let msa := msa ++ [new_seq id] in
      msa <- read_lines line strm msa 0 [] ;;
      if length msa <? 2 then Throw "Insufficient sequences in Stockholm MSA"
      else
        match msa with
        | [] => Undef
        | q :: hits => Ok (q :: remove_below hits)
        end.

End Parser.


(** ** CheckAlignmentForChain *)

Definition strip_gaps (s : Str.t) : Str.t :=
  filter (fun r => negb (is_gap r)) s.

(** [s.erase(0, n)]: never fails, removes at most the whole string. *)
Definition erase_front (n : nat) (s : seq) : seq :=
  mkseq (m_id s) (skipn n (m_seq s)) (m_identical s) (m_length s).

(** [s.erase(s.length() - n, n)]: the position is computed in [size_t]; when
    [n] exceeds the length it wraps to a position past the end and
    [std::string::erase] throws [std::out_of_range]. *)
Definition erase_back (n : nat) (s : seq) : outcome seq :=
  if n <=? length (m_seq s)
  then Ok (mkseq (m_id s) (firstn (length (m_seq s) - n) (m_seq s))
                 (m_identical s) (m_length s))
  else Throw "basic_string::erase".

Fixpoint map_outcome {A B} (f : A -> outcome B) (l : list A) : outcome (list B) :=
  match l with
  | [] => Ok []
  | x :: l' => y <- f x ;; r <- map_outcome f l' ;; Ok (y :: r)
  end.

(** [sc] is the result of [inChain->GetSequence(sc)]. *)
Definition CheckAlignmentForChain (inMSA : mseq) (sc : Str.t) : outcome mseq :=
  match inMSA with
  | [] => Undef
  | front :: _ =>
      let sa := strip_gaps (m_seq front) in
      if Str.eqb sa sc then Ok inMSA
      else if length sa <? length sc
      then Throw "Query used for Stockholm file is too short for the chain"
      else
        match Str.find sa sc with
        | None => Throw "Invalid Stockholm file for chain"
        | Some offset =>
            let msa1 := if 0 <? offset then map (erase_front offset) inMSA
                        else inMSA in
            if length sc + offset <? length sa then
              let n := Z.to_nat (u32 (Z.of_nat (length sa - (length sc + offset)))) in
              map_outcome (erase_back n) msa1
            else Ok msa1
        end
  end.

(** ** Hit *)

Record insertion : Type := mkins {
  ipos : Z;
  jpos : Z;
  iseq : Str.t
}.

Record Hit : Type := mkHit {
  msa : nat;            (* [const mseq& msa]: the alignment it refers to *)
  chain : ascii;
  nr : Z;
  ix : nat;
  id : Str.t;
  acc : Str.t;
  desc : Str.t;
  pdb : Str.t;
  ifir : Z;
  ilas : Z;
  jfir : Z;
  jlas : Z;
  lali : Z;
  ngap : Z;
  lgap : Z;
  lseq2 : Z;
  ide : spec_float;
  wsim : spec_float;
  identical : Z;
  similar : Z;
  insertions : list insertion
}.

(** [bool operator<(const Hit& rhs)] *)
Definition Hit_lt (a rhs : Hit) : bool :=
  SFltb (ide rhs) (ide a) || (SFeqb (ide a) (ide rhs) && (lali rhs <? lali a)%Z).

Definition id_char (c : ascii) : bool :=
  let n := N_of_ascii c in
  Ascii.eqb c "-" || Ascii.eqb c "_" || Str.isdigit c
  || ((97 <=? n)%N && (n <=? 122)%N) || ((65 <=? n)%N && (n <=? 90)%N).

Definition nonempty {A} (l : list A) : bool :=
  match l with [] => false | _ :: _ => true end.

(** [boost::regex_match(id, sm, "([-a-zA-Z0-9_]+)/(\\d+)-(\\d+)")]: the first
    group cannot hold a slash and the second cannot hold a dash, so the whole
    match, when there is one, is unique. *)
Definition parse_hit_id (s : Str.t) : option (Str.t * Str.t * Str.t) :=
  match Str.find_char "/" s with
  | None => None
  | Some p =>
      let name := firstn p s in
      let '(d1, r1) := span_digits (skipn (S p) s) in
      match r1 with
      | c :: r2 =>
          let '(d2, r3) := span_digits r2 in
          if Ascii.eqb c "-" && nonempty name && forallb id_char name
             && nonempty d1 && nonempty d2 && negb (nonempty r3)
          then Some (name, d1, d2) else None
      | [] => None
      end
  end.

Definition decimal (d : Str.t) : Z :=
  fold_left (fun v c => 10 * v + (Z.of_N (N_of_ascii c) - 48))%Z d 0%Z.

(** [boost::lexical_cast<uint32>] of a run of digits *)
Definition lexical_cast_uint32 (d : Str.t) : outcome Z :=
  if (decimal d <? 2 ^ 32)%Z then Ok (decimal d)
  else Throw "bad lexical cast".

Definition char_at (s : Str.t) (i : nat) : outcome ascii :=
  match nth_error s i with
  | Some c => Ok c
  | None => Undef
  end.

Definition set_char (i : nat) (c : ascii) (s : Str.t) : Str.t :=
  update i (fun _ => c) s.

(** The first loop of the constructor (lines 645-658): the number of
    leading columns in which the hit has a gap, over the query's columns. *)
Fixpoint trim_front (q s : Str.t) : outcome nat :=
  match q with
  | [] => Ok 0
  | _ :: q' =>
      match s with
      | [] => Undef
      | c :: s' => if is_gap c then k <- trim_front q' s' ;; Ok (S k) else Ok 0
      end
  end.

(** The second loop (lines 660-665) on the reversed hit row: [n] is
    [qe - qb], the number of query columns left. *)
Fixpoint trim_back (n : nat) (rs : Str.t) : outcome nat :=
  match n with
  | 0 => Ok 0
  | S n' =>
      match rs with
      | [] => Undef
      | c :: rs' => if is_gap c then t <- trim_back n' rs' ;; Ok (S t) else Ok 0
      end
  end.

Fixpoint blank (k : nat) (s : Str.t) : Str.t :=
  match k, s with
  | S k', _ :: s' => " "%char :: blank k' s'
  | _, _ => s
  end.

Definition blank_back (t : nat) (s : Str.t) : Str.t := rev (blank t (rev s)).

(** [gsi = si - 1; while (gsi != sb and is_gap( *gsi)) --gsi;] started at
    position [j]. *)
Fixpoint find_anchor (s : Str.t) (sb j : nat) : outcome nat :=
  if j =? sb then Ok j
  else
    c <- char_at s j ;;
    if is_gap c then
      match j with
      | 0 => Undef
      | S j' => find_anchor s sb j'
      end
    else Ok j.

Record walk : Type := mkwalk {
  w_s : Str.t;
  w_lali : Z;
  w_ilas : Z;
  w_ngap : Z;
  w_lgap : Z;
  w_identical : Z;
  w_similar : Z;
  w_sgap : bool;
  w_qgap : bool;
  w_ipos : Z;
  w_jpos : Z;
  w_ins : insertion;
  w_insertions : list insertion
}.

Definition vec_at {A} (v : list A) (i : nat) : outcome A :=
  match nth_error v i with
  | Some x => Ok x
  | None => Undef
  end.

Section HitBuilder.

Variable ndebug : bool.

(** [substitution_matrix m("BLOSUM62")] of matrix.h, which is not part of
    the sources at hand: [m a b] stands for [m(a, b)]. *)
Variable m : ascii -> ascii -> Z.

(** One column of the loop of lines 674-739: [i] is the column, [sb] the
    first column of the walk, [qi] the query's character. *)
Definition walk_step (sb i : nat) (qi : ascii) (w : walk) : outcome walk :=
  si <- char_at (w_s w) i ;;
  if is_gap si && is_gap qi then
    Ok (mkwalk (w_s w) (u32 (w_lali w - 1)) (w_ilas w) (w_ngap w) (w_lgap w)
               (w_identical w) (w_similar w) (w_sgap w) (w_qgap w)
               (w_ipos w) (w_jpos w) (w_ins w) (w_insertions w))
  else if is_gap si then
    Ok (mkwalk (w_s w) (w_lali w) (u32 (w_ilas w + 1))
               (if negb (w_sgap w || w_qgap w) then u32 (w_ngap w + 1) else w_ngap w)
               (u32 (w_lgap w + 1))
               (w_identical w) (w_similar w) true (w_qgap w)
               (w_ipos w) (u32 (w_jpos w + 1)) (w_ins w) (w_insertions w))
  else if is_gap qi then
    '(s', ins') <-
      (if negb (w_qgap w) then
         _ <- assert ndebug (negb (i =? sb)) ;;
         match i with
         | 0 => Undef
         | S j =>
             g <- find_anchor (w_s w) sb j ;;
             c <- char_at (w_s w) g ;;
             Ok (set_char g (Str.tolower c) (w_s w),
                 mkins (w_ipos w) (u32 (w_jpos w - 1)) [Str.tolower c; si])
         end
       else Ok (w_s w, mkins (ipos (w_ins w)) (jpos (w_ins w))
                             (iseq (w_ins w) ++ [si]))) ;;
    Ok (mkwalk s' (w_lali w) (w_ilas w)
               (if negb (w_sgap w || w_qgap w) then u32 (w_ngap w + 1) else w_ngap w)
               (u32 (w_lgap w + 1))
               (w_identical w) (w_similar w) (w_sgap w) true
               (u32 (w_ipos w + 1)) (w_jpos w) ins' (w_insertions w))
  else
    let si' := if w_qgap w then Str.tolower si else si in
    let s' := if w_qgap w then set_char i si' (w_s w) else w_s w in
    let ins' := if w_qgap w
                then mkins (ipos (w_ins w)) (jpos (w_ins w)) (iseq (w_ins w) ++ [si'])
                else w_ins w in
    let insertions' := if w_qgap w then w_insertions w ++ [ins']
                       else w_insertions w in
    let same := Ascii.eqb qi si' in
    Ok (mkwalk s' (w_lali w) (u32 (w_ilas w + 1)) (w_ngap w) (w_lgap w)
               (if same then u32 (w_identical w + 1) else w_identical w)
               (if same then u32 (w_similar w + 1)
                else if (0 <? m qi si')%Z then u32 (w_similar w + 1)
                else w_similar w)
               false false
               (u32 (w_ipos w + 1)) (u32 (w_jpos w + 1)) ins' insertions').

(** The loop itself: [n] columns are left, the next one is [i]. *)
Fixpoint walk_loop (q : Str.t) (sb n i : nat) (w : walk) : outcome walk :=
  match n with
  | 0 => Ok w
  | S n' =>
      qi <- char_at q i ;;
      w' <- walk_step sb i qi w ;;
      walk_loop q sb n' (S i) w'
  end.

(** [Hit::Hit(mseq& msa, char chain, uint32 qix, uint32 six)].  The hit row
    [msa[six].m_seq] is written in place, so the alignment is returned with
    the hit.  [nr] and [lseq2] are left to the callers.  When [qix = six] the
    two rows alias; no write happens then (no column has a gap in one row
    only), and reading the query from the row as it was is exact. *)
Definition Hit_new (href : nat) (msa0 : mseq) (ch : ascii) (qix six : nat)
  : outcome (Hit * mseq) :=
  qs <- vec_at msa0 qix ;;
  ss <- vec_at msa0 six ;;
  let q := m_seq qs in
  let s := m_seq ss in
  if negb (nonempty q) || negb (nonempty s) then Throw "Invalid (empty) sequence"
  else
    q0 <- char_at q 0 ;;
    ql <- char_at q (length q - 1) ;;
    if is_gap q0 || is_gap ql
    then Throw "Leading (or trailing) gaps found in query sequence"
    else
      _ <- assert ndebug (length q =? length s) ;;
      match parse_hit_id (m_id ss) with
      | None => Throw "Alignment ID should contain position"
      | Some (name, d1, d2) =>
          jf <- lexical_cast_uint32 d1 ;;
          jl <- lexical_cast_uint32 d2 ;;
          k <- trim_front q s ;;
          let s1 := blank k s in
          t <- trim_back (length q - k) (rev s1) ;;
          let s2 := blank_back t s1 in
          let ifir0 := u32 (1 + Z.of_nat k) in
          let w0 := mkwalk s2 (u32 (Z.of_nat (length s))) (u32 (Z.of_nat k))
                           0 0 0 0 false false ifir0 jf (mkins 0 0 []) [] in
          w <- walk_loop q k (length s - t - k) k w0 ;;
          let h := mkHit href ch 0 six name [] [] []
                         ifir0 (w_ilas w) jf jl (w_lali w) (w_ngap w) (w_lgap w) 0
                         (F32.div (F32.of_Z (w_identical w)) (F32.of_Z (w_lali w)))
                         (F32.div (F32.of_Z (w_similar w)) (F32.of_Z (w_lali w)))
                         (w_identical w) (w_similar w) (w_insertions w) in
          Ok (h, update six (fun r => mkseq (m_id r) (w_s w) (m_identical r) (m_length r)) msa0)
      end.

End HitBuilder.

(** ** ResidueHInfo *)

Definition kIX : list Z :=
  [ -1; -1; -1; -1; -1; -1; -1; -1; -1; -1; -1; -1; -1; -1; -1; -1;
    -1; -1; -1; -1; -1; -1; -1; -1; -1; -1; -1; -1; -1; -1; -1; -1;
    -1; -1; -1; -1; -1; -1; -1; -1; -1; -1; -1; -1; -1; -1; -1; -1;
    -1; -1; -1; -1; -1; -1; -1; -1; -1; -1; -1; -1; -1; -1; -1; -1;
    -1;  8; -1; 12; 19; 17;  4;  7; 13;  2; -1; 15;  1;  3; 18; -1;
     9; 16; 14; 10; 11; -1;  0;  5; -1;  6; -1; -1; -1; -1; -1; -1;
    -1;  8; -1; 12; 19; 17;  4;  7; 13;  2; -1; 15;  1;  3; 18; -1;
     9; 16; 14; 10; 11; -1;  0;  5; -1;  6; -1; -1; -1; -1; -1; -1;
    -1; -1; -1; -1; -1; -1; -1; -1; -1; -1; -1; -1; -1; -1; -1; -1;
    -1; -1; -1; -1; -1; -1; -1; -1; -1; -1; -1; -1; -1; -1; -1; -1;
    -1; -1; -1; -1; -1; -1; -1; -1; -1; -1; -1; -1; -1; -1; -1; -1;
    -1; -1; -1; -1; -1; -1; -1; -1; -1; -1; -1; -1; -1; -1; -1; -1;
    -1; -1; -1; -1; -1; -1; -1; -1; -1; -1; -1; -1; -1; -1; -1; -1;
    -1; -1; -1; -1; -1; -1; -1; -1; -1; -1; -1; -1; -1; -1; -1; -1;
    -1; -1; -1; -1; -1; -1; -1; -1; -1; -1; -1; -1; -1; -1; -1; -1;
    -1; -1; -1; -1; -1; -1; -1; -1; -1; -1; -1; -1; -1; -1; -1; -1 ]%Z.

(** [kIX[uint8(c)]] *)
Definition kIX_at (c : ascii) : Z := nth (N.to_nat (N_of_ascii c)) kIX (-1)%Z.

(** [s[pos]] on a [const std::string]: position [size()] holds the
    terminating null character, anything further is out of bounds. *)
Definition cstr_at (s : Str.t) (pos : nat) : outcome ascii :=
  match nth_error s pos with
  | Some c => Ok c
  | None => if pos =? length s then Ok zero else Undef
  end.

Module F64ops.
Definition mul : spec_float -> spec_float -> spec_float := SFmul F64.prec F64.emax.
Definition add : spec_float -> spec_float -> spec_float := SFadd F64.prec F64.emax.
(** [static_cast<float>] of a [double] *)
Definition to_f32 (x : spec_float) : spec_float :=
  match x with
  | S754_finite s m e => binary_normalize F32.prec F32.emax (cond_Zopp s (Zpos m)) e false
  | _ => x
  end.
(** [uint32(x)] for a [double]: truncation; out of the range of [uint32]
    the conversion is undefined. *)
Definition to_u32 (x : spec_float) : outcome Z :=
  match x with
  | S754_zero _ => Ok 0%Z
  | S754_finite s m e =>
      let v := (match e with
                | Zneg p => Z.shiftr (Zpos m) (Zpos p)
                | _ => Z.shiftl (Zpos m) e
                end) in
      if s then (if (v =? 0)%Z then Ok 0%Z else Undef)
      else if (v <? 2 ^ 32)%Z then Ok v else Undef
  | _ => Undef
  end.
End F64ops.

Record ResidueHInfo : Type := mkres {
  letter : ascii;
  r_chain : ascii;
  dssp : Str.t;
  seqNr : Z;
  pdbNr : Z;
  pos : nat;
  nocc : Z;
  ndel : Z;
  nins : Z;
  entropy : spec_float;
  consweight : spec_float;
  dist : list Z
}.

(** [dist[ix] += 1] *)
Definition bump (ix : Z) (dist : list Z) : list Z :=
  update (Z.to_nat ix) (fun d => u32 (d + 1)) dist.

Section Profile.

Variable ndebug : bool.

(** [std::log] on [double], from the C library *)
Variable log : spec_float -> spec_float.

(** The alignments the hits refer to: [msa h] is a position in this store. *)
Variable alignments : list mseq.

(** The loop of lines 825-833. *)
Fixpoint count_hits (hits : list Hit) (p : nat) (no : Z) (dist : list Z)
  : outcome (Z * list Z) :=
  match hits with
  | [] => Ok (no, dist)
  | hit :: hits' =>
      a <- vec_at alignments (msa hit) ;;
      row <- vec_at a (ix hit) ;;
      c <- cstr_at (m_seq row) p ;;
      let i := kIX_at c in
      if negb (i =? -1)%Z then count_hits hits' p (u32 (no + 1)) (bump i dist)
      else count_hits hits' p no dist
  end.

(** The loop of lines 836-844 over the twenty counts. *)
Fixpoint percentages (no : Z) (dist : list Z) (e : spec_float)
  : outcome (list Z * spec_float) :=
  match dist with
  | [] => Ok ([], e)
  | d :: dist' =>
      let freq := F64.div (F64.of_Z d) (F64.of_Z no) in
      pct <- F64ops.to_u32 (F64ops.add (F64ops.mul (F64.of_Z 100) freq) (F64.lit 1 2)) ;;
      let e' := if SFltb (S754_zero false) freq
                then F32.sub e (F64ops.to_f32 (F64ops.mul freq (log freq)))
                else e in
      '(rest, e'') <- percentages no dist' e' ;;
      Ok (pct :: rest, e'')
  end.

(** The loop of lines 852-861 over the rows of [hits.front()->msa]. *)
Fixpoint count_indels (a : mseq) (gap : bool) (hits : list Hit) (p : nat)
    (nd ni : Z) : outcome (Z * Z) :=
  match hits with
  | [] => Ok (nd, ni)
  | hit :: hits' =>
      row <- vec_at a (ix hit) ;;
      c <- cstr_at (m_seq row) p ;;
      let nd' := if is_gap c then u32 (nd + 1) else nd in
      let ni' := if gap && (97 <=? N_of_ascii c)%N && (N_of_ascii c <=? 121)%N
                 then u32 (ni + 1) else ni in
      count_indels a gap hits' p nd' ni'
  end.

(** [ResidueHInfo::ResidueHInfo(char a, vector<hit_ptr>& hits, uint32 pos, ...)] *)
Definition ResidueHInfo_new (a : ascii) (hits : list Hit) (p : nat) (ch : ascii)
    (sn pn : Z) (ds : Str.t) (cw : spec_float) : outcome ResidueHInfo :=
  let d0 := repeat 0%Z 20 in
  let i := kIX_at a in
  _ <- assert ndebug (negb (i =? -1)%Z) ;;
  let d1 := if negb (i =? -1)%Z then update (Z.to_nat i) (fun _ => 1%Z) d0 else d0 in
  '(no, d2) <- count_hits hits p 1 d1 ;;
  '(d3, e) <- percentages no d2 (S754_zero false) ;;
  match hits with
  | [] => Undef
  | front :: _ =>
      al <- vec_at alignments (msa front) ;;
      q <- vec_at al 0 ;;
      gap <- (if p + 1 <? length (m_seq q)
              then c <- cstr_at (m_seq q) (p + 1) ;; Ok (is_gap c)
              else Ok false) ;;
      '(nd, ni) <- count_indels al gap hits p 0 0 ;;
      Ok (mkres a ch ds sn pn p no nd ni e cw d3)
  end.

End Profile.

(** ** Conservation *)

(** Dayhoff matrix as used by maxhom: the lower triangle, row by row, in
    tenths. *)
Definition kDayhoffData : list spec_float :=
  map (fun n => F32.lit n 10)
  [ 15;
     8; 15;
    11;  8; 15;
     6; 13;  6; 15;
     2; 12;  7;  5; 15;
    -8;  5; -5; -3; 13; 15;
    -1;  3;  1; -1; 14; 11; 15;
     2; -5; -3; -3; -6;-10; -7; 15;
     2; -1;  0;  0; -5; -8; -3;  7; 15;
     1; -3; -2; -2; -7; -8; -8;  3;  5; 15;
    -1; -4; -1; -3; -3;  3; -4;  6;  4;  4; 15;
     2; -1;  2;  0; -3; -6; -3;  4;  4;  3;  3; 15;
     2; -8;  2; -6; -1;-12; 10;  2;  3;  1;  7;  2; 15;
    -3; -2; -3; -3; -1; -1;  3; -2; -1;  2; -2; -1; -1; 15;
    -3; -4; -3;  2; -5; 14; -6; -3; -3;  3;  1; -1; -3;  5; 15;
    -2; -3; -2;  2; -7;  1; -6; -1;  0;  1;  2;  2; -6;  1;  8; 15;
    -2; -1; -3;  0; -8; -5; -6;  2;  2;  3; -1; -1; -6;  7;  4;  4; 15;
    -2; -3; -2; -2; -7;-11; -5;  5;  3;  1;  2;  2; -6;  4;  0;  3;  7; 15;
    -3; -4; -3; -3; -5; -3; -1;  4;  2;  0;  3;  2; -3;  5;  1;  4;  4;  5; 15;
    -2; -5; -2; -4;-10;-11; -5;  7;  3;  1;  2;  2; -5;  4;  0;  3;  7; 10;  7; 15 ]%Z.

(** Modelled from the spec: class [symmetric_matrix] of matrix.h is not part
    of the sources at hand.  The spec calls [D] symmetric; the data are the
    lower triangle, row by row, so [(i, j)] and [(j, i)] both read entry [j]
    of row [i] when [j <= i]. *)
Definition symmetric_at {A} (data : list A) (d : A) (i j : nat) : A :=
  let r := Nat.max i j in
  let c := Nat.min i j in
  nth (r * (r + 1) / 2 + c) data d.

(** [static const symmetric_matrix<float> D(kDayhoffData, 20)] *)
Definition D (ri rj : Z) : spec_float :=
  symmetric_at kDayhoffData S754_nan (Z.to_nat ri) (Z.to_nat rj).

Section Conservation.

(** [w i j] is [w(i, j)] of the [symmetric_matrix<float>] holding the weights. *)
Variable w : nat -> nat -> spec_float.

(** column of the alignment *)
Variable r : nat.

(** The loop over [j] (lines 1079-1088); [rows] are the rows after row [i]
    with their positions, the pair is (conservation, weight). *)
Fixpoint conservation_inner (i : nat) (ri : Z) (rows : list (nat * seq))
    (acc : spec_float * spec_float) : outcome (spec_float * spec_float) :=
  match rows with
  | [] => Ok acc
  | (j, sj) :: rows' =>
      c <- cstr_at (m_seq sj) r ;;
      let rj := kIX_at c in
      if (rj =? -1)%Z then conservation_inner i ri rows' acc
      else conservation_inner i ri rows'
             (F32.add (fst acc) (F32.mul (w i j) (D ri rj)),
              F32.add (snd acc) (F32.mul (w i j) (F32.lit 15 10)))
  end.

(** The loop over [i] (lines 1072-1089), which stops before the last row. *)
Fixpoint conservation_outer (rows : list (nat * seq))
    (acc : spec_float * spec_float) : outcome (spec_float * spec_float) :=
  match rows with
  | [] => Ok acc
  | (i, si) :: rows' =>
      match rows' with
      | [] => Ok acc
      | _ :: _ =>
          c <- cstr_at (m_seq si) r ;;
          let ri := kIX_at c in
          if (ri =? -1)%Z then conservation_outer rows' acc
          else acc' <- conservation_inner i ri rows' acc ;;
               conservation_outer rows' acc'
      end
  end.

Definition numbered {A} (l : list A) : list (nat * A) :=
  combine (List.seq 0 (length l)) l.

Definition CalculateConservation (a : mseq) : outcome spec_float :=
  '(conservation, weight) <-
     conservation_outer (numbered a) (S754_zero false, S754_zero false) ;;
  if negb (SFeqb weight (S754_zero false))
  then Ok (F32.div conservation weight)
  else Ok F32.one.

End Conservation.

Section Weights.

Variable ndebug : bool.

(** The loop of [CalculateWeight] over the columns [k] of the query row. *)
Fixpoint weight_columns (sq si sj : Str.t) (k : nat) (L d : Z) : outcome (Z * Z) :=
  match sq with
  | [] => Ok (L, d)
  | c :: sq' =>
      if negb (is_gap c) then
        ci <- cstr_at si k ;;
        cj <- cstr_at sj k ;;
        weight_columns sq' si sj (S k) (u32 (L + 1))
          (if Ascii.eqb ci cj && negb (is_gap ci) then u32 (d + 1) else d)
      else weight_columns sq' si sj (S k) L d
  end.

Definition CalculateWeight (a : mseq) (i j : nat) : outcome spec_float :=
  q <- vec_at a 0 ;;
  si <- vec_at a i ;;
  _ <- assert ndebug (length (m_seq si) =? length (m_seq q)) ;;
  sj <- vec_at a j ;;
  _ <- assert ndebug (length (m_seq sj) =? length (m_seq q)) ;;
  '(L, d) <- weight_columns (m_seq q) (m_seq si) (m_seq sj) 0 0 0 ;;
  Ok (F32.sub F32.one (F32.div (F32.of_Z d) (F32.of_Z L))).

End Weights.

(** ** Ranking of the hits and the parts of the report that depend on it *)

Definition set_nr (n : Z) (h : Hit) : Hit :=
  mkHit (msa h) (chain h) n (ix h) (id h) (acc h) (desc h) (pdb h)
        (ifir h) (ilas h) (jfir h) (jlas h) (lali h) (ngap h) (lgap h) (lseq2 h)
        (ide h) (wsim h) (identical h) (similar h) (insertions h).

(** [foreach (hit_ptr h, hits) h->nr = nr++;] *)
Fixpoint number_hits (n : Z) (hits : list Hit) : list Hit :=
  match hits with
  | [] => []
  | h :: hits' => set_nr n h :: number_hits (u32 (n + 1)) hits'
  end.

(** The [NALIGN] field of the header: [hits.size()]. *)
Definition NALIGN (hits : list Hit) : Z := Z.of_nat (length hits).

(** The [NR.] column of the PROTEINS table: a counter of
    [CreateHSSPOutput]'s own, started at 1. *)
Fixpoint proteins_nr (n : Z) (hits : list Hit) : list Z :=
  match hits with
  | [] => []
  | _ :: hits' => n :: proteins_nr (u32 (n + 1)) hits'
  end.

Section Ranking.

(** [std::sort(first, last, comp)] of the C++ library. *)
Variable std_sort : (Hit -> Hit -> bool) -> list Hit -> list Hit.

(** Lines 1258-1264, 1332-1338 and 1410-1416: the same five lines in the
    three overloads of [hmmer::CreateHSSP]. *)
Definition CreateHSSP_rank (hits : list Hit) : list Hit :=
  let hits := std_sort Hit_lt hits in
  let hits := if (9999 <? Z.of_nat (length hits))%Z
              then firstn (Z.to_nat 9999) hits else hits in
  number_hits 1 hits.

End Ranking.

(** ** The BLAST/Clustal pipeline of hh-hssp.cpp *)

Module HH.

Record hit : Type := mkhit {
  nr : Z;
  id : Str.t;
  acc : Str.t;
  desc : Str.t;
  pdb : Str.t;
  seq : Str.t;
  saln : Str.t;
  ifir : Z;
  ilas : Z;
  jfir : Z;
  jlas : Z;
  lali : Z;
  ngap : Z;
  lgap : Z;
  lseq2 : Z;
  ide : spec_float;
  wsim : spec_float;
  identical : Z;
  similar : Z
}.

(** [bool operator<(const hit& rhs)] of hh-hssp.cpp *)
Definition hit_lt (a rhs : hit) : bool := SFltb (ide rhs) (ide a).

Definition set_nr (n : Z) (h : hit) : hit :=
  mkhit n (id h) (acc h) (desc h) (pdb h) (seq h) (saln h) (ifir h) (ilas h)
        (jfir h) (jlas h) (lali h) (ngap h) (lgap h) (lseq2 h) (ide h) (wsim h)
        (identical h) (similar h).

Fixpoint number_hits (n : Z) (hits : list hit) : list hit :=
  match hits with
  | [] => []
  | h :: hits' => set_nr n h :: number_hits (u32 (n + 1)) hits'
  end.

Definition NALIGN (hssp : list hit) : Z := Z.of_nat (length hssp).

Section Ranking.

Variable std_sort : (hit -> hit -> bool) -> list hit -> list hit.

(** Lines 567-570 of hh-hssp.cpp, in its [CreateHSSP]. *)
Definition CreateHSSP_rank (hssp : list hit) : list hit :=
  number_hits 1 (std_sort hit_lt hssp).

End Ranking.

Section CreateHit.

Variable ndebug : bool.

(** [encode], [kSignalGapCode], [substitution_matrix] and [kAA] come from
    headers that are not part of the sources at hand: residues are codes. *)
Variable encode : Str.t -> list Z.
Variable kSignalGapCode : Z.
Variable m : Z -> Z -> Z.
Variable kAA : Z -> ascii.

(** lines 143-158: the columns that are not gaps in both rows *)
Fixpoint remove_common_gaps (sq ss : list Z) : outcome (list (Z * Z)) :=
  match sq with
  | [] => Ok []
  | qi :: sq' =>
      match ss with
      | [] => Undef
      | si :: ss' =>
          r <- remove_common_gaps sq' ss' ;;
          if (qi =? kSignalGapCode)%Z && (si =? kSignalGapCode)%Z then Ok r
          else Ok ((qi, si) :: r)
      end
  end.

Record bounds : Type := mkbounds {
  b_ifir : Z;
  b_jfir : Z;
  b_ilas : Z;
  b_jlas : Z;
  b_lseq2 : Z
}.

(** lines 179-205: the columns cut at the front *)
Fixpoint trim_head (cols : list (Z * Z)) (b : bounds) : list (Z * Z) * bounds :=
  match cols with
  | [] => ([], b)
  | (qb, sb) :: cols' =>
      if (qb =? kSignalGapCode)%Z then
        trim_head cols' (mkbounds (b_ifir b) (u32 (b_jfir b + 1)) (u32 (b_ilas b - 1))
                                  (b_jlas b) (b_lseq2 b))
      else if (sb =? kSignalGapCode)%Z then
        trim_head cols' (mkbounds (u32 (b_ifir b + 1)) (b_jfir b) (b_ilas b)
                                  (u32 (b_jlas b - 1)) (u32 (b_lseq2 b - 1)))
      else if (m qb sb <=? 0)%Z then
        trim_head cols' (mkbounds (u32 (b_ifir b + 1)) (u32 (b_jfir b + 1)) (b_ilas b)
                                  (b_jlas b) (b_lseq2 b))
      else (cols, b)
  end.

(** lines 207-219 on the reversed columns: the columns cut at the back *)
Fixpoint trim_tail (rcols : list (Z * Z)) (b : bounds) : list (Z * Z) * bounds :=
  match rcols with
  | [] => ([], b)
  | (qe, se) :: rcols' =>
      if (qe =? kSignalGapCode)%Z || (se =? kSignalGapCode)%Z || (m qe se <=? 0)%Z then
        trim_tail rcols'
          (mkbounds (b_ifir b) (b_jfir b) (u32 (b_ilas b - 1)) (u32 (b_jlas b - 1))
                    (if (se =? kSignalGapCode)%Z then u32 (b_lseq2 b - 1) else b_lseq2 b))
      else (rcols, b)
  end.

Record counters : Type := mkcounters {
  c_ngap : Z;
  c_lgap : Z;
  c_lseq2 : Z;
  c_identical : Z;
  c_similar : Z;
  c_gap : bool;
  c_saln : Str.t
}.

(** lines 231-264 *)
Fixpoint walk (cols : list (Z * Z)) (c : counters) : counters :=
  match cols with
  | [] => c
  | (qi, si) :: cols' =>
      walk cols'
        (if (si =? kSignalGapCode)%Z then
           mkcounters (if negb (c_gap c) then u32 (c_ngap c + 1) else c_ngap c)
                      (u32 (c_lgap c + 1)) (u32 (c_lseq2 c - 1))
                      (c_identical c) (c_similar c) true (c_saln c ++ [" "%char])
         else if (qi =? kSignalGapCode)%Z then
           mkcounters (if negb (c_gap c) then u32 (c_ngap c + 1) else c_ngap c)
                      (u32 (c_lgap c + 1)) (c_lseq2 c)
                      (c_identical c) (c_similar c) true (c_saln c)
         else
           mkcounters (c_ngap c) (c_lgap c) (c_lseq2 c)
                      (if (qi =? si)%Z then u32 (c_identical c + 1) else c_identical c)
                      (if (qi =? si)%Z then u32 (c_similar c + 1)
                       else if (0 <? m qi si)%Z then u32 (c_similar c + 1)
                       else c_similar c)
                      false (c_saln c ++ [kAA si]))
  end.

(** [hit_ptr CreateHit(const string& id, const string& q, const string& s)];
    the third component is the trimmed alignment, which the function keeps
    in its locals [sq] and [ss] *)
Definition CreateHit (id q s : Str.t) : outcome (hit * list (Z * Z)) :=
  _ <- assert ndebug (length q =? length s) ;;
  cols <- remove_common_gaps (encode q) (encode s) ;;
  let n := u32 (Z.of_nat (length cols)) in
  let '(cols1, b1) := trim_head cols (mkbounds 1 1 n n n) in
  let '(rcols2, b2) := trim_tail (rev cols1) b1 in
  let cols2 := rev rcols2 in
  let la := u32 (Z.of_nat (length cols2)) in
  let c := walk cols2 (mkcounters 0 0 (b_lseq2 b2) 0 0 true
                                  (repeat " "%char (Z.to_nat (u32 (b_ifir b2 - 1))))) in
  Ok (mkhit 0 id [] [] [] s (c_saln c) (b_ifir b2) (b_ilas b2) (b_jfir b2)
               (b_jlas b2) la
               (c_ngap c) (c_lgap c) (c_lseq2 c)
               (F32.div (F32.of_Z (c_identical c)) (F32.of_Z la))
               (F32.div (F32.of_Z (c_similar c)) (F32.of_Z la))
               (c_identical c) (c_similar c),
      cols2).

End CreateHit.

Section Threshold.

Variable ndebug : bool.

(** [static vector<double> kHomologyThreshold] of
    [hit::IdentityAboveThreshold]: filled on the first call with
    [2.9015 * pow(i, -0.562) + 0.05] for [i] from 10 to 80, by the C library. *)
Variable kHomologyThreshold : list spec_float.

(** lines 110-116: the entry for an alignment of [lali] columns *)
Definition threshold_slot (lali : Z) : Z :=
  if (lali <? 10)%Z then 0%Z
  else if (80 <? lali)%Z then 70%Z
  else u32 (lali - 10).

(** [bool hit::IdentityAboveThreshold() const] *)
Definition IdentityAboveThreshold (h : hit) : outcome bool :=
  let l := threshold_slot (lali h) in
  _ <- assert ndebug (l <? Z.of_nat (length kHomologyThreshold))%Z ;;
  t <- vec_at kHomologyThreshold (Z.to_nat l) ;;
  Ok (SFltb t (F64.of_f32 (ide h))).

End Threshold.

(** The [switch] of [CreateResidueHInfo] (lines 296-319): the column of the
    profile a residue is counted in. *)
Definition letter_slot (c : ascii) : option nat :=
  if Ascii.eqb c "V" then Some 0 else if Ascii.eqb c "L" then Some 1
  else if Ascii.eqb c "I" then Some 2 else if Ascii.eqb c "M" then Some 3
  else if Ascii.eqb c "F" then Some 4 else if Ascii.eqb c "W" then Some 5
  else if Ascii.eqb c "Y" then Some 6 else if Ascii.eqb c "G" then Some 7
  else if Ascii.eqb c "A" then Some 8 else if Ascii.eqb c "P" then Some 9
  else if Ascii.eqb c "S" then Some 10 else if Ascii.eqb c "T" then Some 11
  else if Ascii.eqb c "C" then Some 12 else if Ascii.eqb c "H" then Some 13
  else if Ascii.eqb c "R" then Some 14 else if Ascii.eqb c "K" then Some 15
  else if Ascii.eqb c "Q" then Some 16 else if Ascii.eqb c "E" then Some 17
  else if Ascii.eqb c "N" then Some 18 else if Ascii.eqb c "D" then Some 19
  else None.

(** The fields of [struct ResidueHInfo] of hh-hssp.cpp that
    [CreateResidueHInfo] sets; [res] is kept as its sequence number. *)
Record ResidueHInfo : Type := mkres {
  res_seqNo : Z;
  r_pos : nat;
  r_nocc : Z;
  r_ndel : Z;
  r_nins : Z;
  r_var : Z;
  r_dist : list Z
}.

(** The loop over the hits (lines 288-320). *)
Fixpoint tally (seqNo : Z) (hits : list hit) (pos : nat) (nocc : Z) (dist : list Z)
  : outcome (Z * list Z) :=
  match hits with
  | [] => Ok (nocc, dist)
  | h :: hits' =>
      if (seqNo <? ifir h)%Z || (ilas h <? seqNo)%Z then tally seqNo hits' pos nocc dist
      else
        c <- cstr_at (seq h) pos ;;
        match letter_slot c with
        | Some a => tally seqNo hits' pos (u32 (nocc + 1))
                          (update a (fun d => u32 (d + 1)) dist)
        | None => tally seqNo hits' pos (u32 (u32 (nocc + 1) - 1)) dist
        end
  end.

(** The loop of lines 322-323: [uint32((100.0 * dist[a]) / nocc + 0.5)]. *)
Fixpoint percent (nocc : Z) (dist : list Z) : outcome (list Z) :=
  match dist with
  | [] => Ok []
  | d :: dist' =>
      p <- F64ops.to_u32
             (F64ops.add (F64.div (F64ops.mul (F64.of_Z 100) (F64.of_Z d))
                                  (F64.of_Z nocc))
                         (F64.lit 1 2)) ;;
      rest <- percent nocc dist' ;;
      Ok (p :: rest)
  end.

(** [res_ptr CreateResidueHInfo(const MResidue* res, vector<hit_ptr>& hits,
    uint32 pos)]; [seqNo] is [res->GetSeqNumber()] as the [uint32] the loop
    compares it as. *)
Definition CreateResidueHInfo (seqNo : Z) (hits : list hit) (pos : nat)
  : outcome ResidueHInfo :=
  '(nocc, d) <- tally seqNo hits pos 1 (repeat 0%Z 20) ;;
  d' <- percent nocc d ;;
  Ok (mkres seqNo pos nocc 0 0 0 d').


End HH.

(** ** ClusterSequences *)

(** [ba::contains(a, b)]: [b] occurs in [a] *)
Definition contains (a b : Str.t) : bool :=
  match Str.find a b with
  | Some _ => true
  | None => false
  end.

(** The loop over [j] for one [i] (lines 1203-1223): [a] is [s[i]], [rest]
    holds [s[j]], [s[j + 1]], ...; the result is the entry to clear and the
    entry that contains it. *)
Fixpoint scan_inner (a : Str.t) (i j : nat) (rest : list Str.t) : option (nat * nat) :=
  match rest with
  | [] => None
  | b :: rest' =>
      if negb (nonempty a) || negb (nonempty b) then scan_inner a i (S j) rest'
      else if contains a b then Some (j, i)
      else if contains b a then Some (i, j)
      else scan_inner a i (S j) rest'
  end.

(** The loop over [i] (lines 1201-1224) on a vector that is not empty: for
    the last [i] the loop over [j] has nothing to visit, so the bound
    [s.size() - 1] and the end of the vector stop at the same pair. *)
Fixpoint scan_outer (i : nat) (s : list Str.t) : option (nat * nat) :=
  match s with
  | [] => None
  | a :: s' =>
      match scan_inner a i (S i) s' with
      | Some m => Some m
      | None => scan_outer (S i) s'
      end
  end.

(** The rounds of [for (;;)]: one string is emptied in every round but the
    last, so [fuel] rounds are enough when [fuel] is the number of strings.
    [ix[j] = i] past the end of [ix] is undefined. *)
Fixpoint cluster_rounds (fuel : nat) (s : list Str.t) (ix : list nat)
  : outcome (list Str.t * list nat) :=
  match scan_outer 0 s with
  | None => Ok (s, ix)
  | Some (c, k) =>
      if c <? length ix then
        match fuel with
        | 0 => Undef
        | S fuel' => cluster_rounds fuel' (update c (fun _ => []) s)
                                          (update c (fun _ => k) ix)
        end
      else Undef
  end.

(** [void ClusterSequences(vector<string>& s, vector<uint32>& ix)].  On an
    empty [s] the bound [s.size() - 1] wraps and [i] never reaches it: the
    loop has no end and no effect, which is undefined. *)
Definition ClusterSequences (s : list Str.t) (ix : list nat)
  : outcome (list Str.t * list nat) :=
  match s with
  | [] => Undef
  | _ :: _ => cluster_rounds (length s) s ix
  end.

(** ** CreateHSSPOutput *)

(** The loop of lines 926-967: the blocks of the ALIGNMENTS section, each the
    hits [i .. n - 1]; the heading of a block prints [i + 1] and [n].  [i] is
    a [uint32]; [fuel] bounds the rounds. *)
Fixpoint alignment_blocks (fuel : nat) (i size : Z) : list (Z * Z) :=
  match fuel with
  | 0 => []
  | S fuel' =>
      if (i <? size)%Z then
        let n := u32 (i + 70) in
        let n := if (size <? n)%Z then size else n in
        (i, n) :: alignment_blocks fuel' (u32 (i + 70)) size
      else []
  end.

(** The [while] loop of lines 1018-1026: the pieces after the first one;
    [n] is a [uint32], [fuel] bounds the rounds. *)
Fixpoint more_pieces (fuel : nat) (s : Str.t) : list Str.t :=
  match fuel with
  | 0 => []
  | S fuel' =>
      match s with
      | [] => []
      | _ :: _ =>
          let n := Z.to_nat (u32 (Z.of_nat (length s))) in
          let n := if 100 <? n then 100 else n in
          firstn n s :: more_pieces fuel' (skipn n s)
      end
  end.

(** Lines 1008-1028: the pieces of the sequence of one insertion, one on each
    line it is written on. *)
Definition insertion_pieces (s : Str.t) : list Str.t :=
  if length s <=? 100 then [s]
  else firstn 100 s :: more_pieces (length s) (skipn 100 s).

(** ** ChainToHits *)

(** What [ChainToHits] asks of the databank; [CDatabank.h] is not part of
    the sources at hand. *)
Record Databank : Type := mkdb {
  GetDocumentNr : Str.t -> outcome Z;
  GetMetaData : Z -> Str.t -> outcome Str.t;
  GetSequence : Z -> Z -> outcome Str.t
}.

(** What it asks of a residue and of the chain ([structure.h] and [dssp.h]
    are not part of the sources either): [GetNumber()], the line
    [ResidueToDSSPLine] writes for the residue, [GetChainID()] and
    [GetResidues()]. *)
Record MResidue : Type := mkresidue {
  GetNumber : Z;
  ResidueToDSSPLine : Str.t
}.

Record MChain : Type := mkchain {
  GetChainID : ascii;
  GetResidues : list MResidue
}.

(** An entry of [vector<res_ptr>]: built by the constructor for a chain
    break, which sets [letter] to 0 and [seqNr] and nothing else, or by the
    other constructor. *)
Inductive res_entry : Type :=
| ChainBreak (seqNr : Z)
| Residue (r : ResidueHInfo).

(** [try { ... } catch (...) {}]: an exception leaves things as they were *)
Definition catch_all {A} (m : outcome A) (unchanged : A) : outcome A :=
  match m with
  | Throw _ => Ok unchanged
  | _ => m
  end.

(** [s.substr(pos, n)], which throws when [pos] is past the end *)
Definition substr (pos n : nat) (s : Str.t) : outcome Str.t :=
  if pos <=? length s then Ok (firstn n (skipn pos s))
  else Throw "basic_string::substr".

(** the pairs [(i, j)] of the two loops of lines 1156-1160, in their order *)
Definition weight_pairs (n : nat) : list (nat * nat) :=
  flat_map (fun i => map (pair i) (List.seq (S i) (n - S i))) (List.seq 0 (n - 1)).

(** [w(i, j)] as the loops have set it; [CalculateConservation] reads it at
    these pairs only, those with [i < j] *)
Fixpoint w_at (table : list (nat * nat * spec_float)) (i j : nat) : spec_float :=
  match table with
  | [] => S754_zero false
  | (a, b, x) :: table' => if (i =? a) && (j =? b) then x else w_at table' i j
  end.

Section Chain.

Variable ndebug : bool.
Variable m : ascii -> ascii -> Z.
Variable log : spec_float -> spec_float.
Variable db : Databank.

(** The loop of lines 1129-1147 over the rows [i] of the alignment. *)
Fixpoint make_hits (href : nat) (ch : ascii) (rows : list nat) (a : mseq)
    (hits : list Hit) : outcome (mseq * list Hit) :=
  match rows with
  | [] => Ok (a, hits)
  | i :: rows' =>
      '(h, a1) <- Hit_new ndebug m href a ch 0 i ;;
      docNr <- GetDocumentNr db (id h) ;;
      title <- GetMetaData db docNr (str "title") ;;
      '(id1, acc1) <-
        catch_all
          (if Str.starts_with (id h) (str "UniRef100_")
           then Ok (Str.substr_from 10 (id h), Str.substr_from 10 (id h))
           else acc0 <- GetMetaData db docNr (str "acc") ;; Ok (id h, acc0))
          (id h, acc h) ;;
      sq <- GetSequence db docNr 0 ;;
      let h1 := mkHit (msa h) (chain h) (nr h) (ix h) id1 acc1 title (pdb h)
                      (ifir h) (ilas h) (jfir h) (jlas h) (lali h) (ngap h) (lgap h)
                      (u32 (Z.of_nat (length sq))) (ide h) (wsim h)
                      (identical h) (similar h) (insertions h) in
      make_hits href ch rows' a1 (hits ++ [h1])
  end.

(** Lines 1154-1160: the weights of all the pairs of rows. *)
Definition weight_table (a : mseq) : outcome (list (nat * nat * spec_float)) :=
  map_outcome (fun p => x <- CalculateWeight ndebug a (fst p) (snd p) ;; Ok (p, x))
              (weight_pairs (length a)).

Section Residues.

(** the alignments as the hits have left them, the chain id, the hits, the
    alignment of this chain and its weights *)
Variable alignments : list mseq.
Variable ch : ascii.
Variable hits : list Hit.
Variable a : mseq.
Variable w : nat -> nat -> spec_float.

(** The loop of lines 1169-1185 over the columns [(i, s[i])] of the query
    row; [prev] is the residue before [ri], none at [residues.begin()]. *)
Fixpoint residue_loop (cols : list (nat * ascii)) (prev : option MResidue)
    (ri : list MResidue) (res : list res_entry)
  : outcome (list MResidue * list res_entry) :=
  match cols with
  | [] => Ok (ri, res)
  | (i, c) :: cols' =>
      if is_gap c then residue_loop cols' prev ri res
      else
        _ <- assert ndebug (nonempty ri) ;;
        match ri with
        | [] => Undef
        | r :: ri' =>
            let res1 :=
              match prev with
              | Some p => if (GetNumber p + 1 <? GetNumber r)%Z
                          then res ++ [ChainBreak (u32 (Z.of_nat (length res) + 1))]
                          else res
              | None => res
              end in
            dssp <- substr 5 34 (ResidueToDSSPLine r) ;;
            cw <- CalculateConservation w i a ;;
            info <- ResidueHInfo_new ndebug log alignments c hits i ch
                      (u32 (Z.of_nat (length res1) + 1)) (u32 (GetNumber r)) dssp cw ;;
            residue_loop cols' (Some r) ri' (res1 ++ [Residue info])
        end
  end.

End Residues.

(** [void ChainToHits(CDatabankPtr inDatabank, mseq& msa, const MChain& chain,
    vector<hit_ptr>& hits, vector<res_ptr>& res)]; [msa] is the alignment
    [href] of [alignments]. *)
Definition ChainToHits (alignments : list mseq) (href : nat) (chn : MChain)
    (hits : list Hit) (res : list res_entry)
  : outcome (list mseq * list Hit * list res_entry) :=
  a <- vec_at alignments href ;;
  '(a1, hits1) <- make_hits href (GetChainID chn) (List.seq 1 (length a - 1)) a hits ;;
  table <- weight_table a1 ;;
  match a1 with
  | [] => Undef
  | front :: _ =>
      let alignments1 := update href (fun _ => a1) alignments in
      '(ri, res1) <- residue_loop alignments1 (GetChainID chn) hits1 a1 (w_at table)
                       (numbered (m_seq front)) None (GetResidues chn) res ;;
      _ <- assert ndebug (negb (nonempty ri)) ;;
      Ok (alignments1, hits1, res1)
  end.

(** Lines 1403-1406, and 1325-1328: between two chains a chain break is
    added to the profile, then the chain adds its hits and its residues to
    the hits and the profile of the chains before it. *)
Definition add_chain (alignments : list mseq) (href : nat) (chn : MChain)
    (hits : list Hit) (res : list res_entry)
  : outcome (list mseq * list Hit * list res_entry) :=
  let res1 := if nonempty res
              then res ++ [ChainBreak (u32 (Z.of_nat (length res) + 1))]
              else res in
  ChainToHits alignments href chn hits res1.

End Chain.

(** * The vocabulary of the properties, and examples *)

(** ** Letters and case *)

Definition is_upper (c : ascii) : bool :=
  (65 <=? N_of_ascii c)%N && (N_of_ascii c <=? 90)%N.

Definition is_lower (c : ascii) : bool :=
  (97 <=? N_of_ascii c)%N && (N_of_ascii c <=? 122)%N.

(** two characters that differ at most in case *)
Definition same_letter (c c' : ascii) : Prop := Str.tolower c = Str.tolower c'.

Definition orel {A B} (R : A -> B -> Prop) (x : outcome A) (y : outcome B) : Prop :=
  match x, y with
  | Ok a, Ok b => R a b
  | Throw u, Throw v => u = v
  | AssertFail, AssertFail => True
  | Undef, Undef => True
  | Loops, Loops => True
  | _, _ => False
  end.

Definition same_row (s s' : seq) : Prop := Forall2 same_letter (m_seq s) (m_seq s').
Definition same_rows (a a' : mseq) : Prop := Forall2 same_row a a'.
Definition same_store (st st' : list mseq) : Prop := Forall2 same_rows st st'.

(** ** The sums of the conservation score *)

(** the rows with a canonical residue in column [r]: position and index *)
Definition residues_at (r : nat) (rows : list (nat * seq)) : list (nat * Z) :=
  filter (fun x => negb (snd x =? -1)%Z)
         (map (fun x => (fst x, kIX_at (nth r (m_seq (snd x)) zero))) rows).

(** all the pairs [(x, y)] with [x] before [y], in the order of the loops *)
Fixpoint pairs_of {A} (l : list A) : list (A * A) :=
  match l with
  | [] => []
  | x :: l' => map (pair x) l' ++ pairs_of l'
  end.

(** a sum of floats, accumulated from the left as the loops do *)
Definition fsum (l : list spec_float) : spec_float :=
  fold_left F32.add l (S754_zero false).

(** the two terms a pair of rows adds to the sums *)
Definition term_conservation (w : nat -> nat -> spec_float)
    (p : (nat * Z) * (nat * Z)) : spec_float :=
  F32.mul (w (fst (fst p)) (fst (snd p))) (D (snd (fst p)) (snd (snd p))).

Definition term_weight (w : nat -> nat -> spec_float)
    (p : (nat * Z) * (nat * Z)) : spec_float :=
  F32.mul (w (fst (fst p)) (fst (snd p))) (F32.lit 15 10).

Definition accumulate (w : nat -> nat -> spec_float) (acc : spec_float * spec_float)
    (ps : list ((nat * Z) * (nat * Z))) : spec_float * spec_float :=
  (fold_left F32.add (map (term_conservation w) ps) (fst acc),
   fold_left F32.add (map (term_weight w) ps) (snd acc)).

(** every row reaches column [r] *)
Definition long_enough (r : nat) (rows : list (nat * seq)) : Prop :=
  Forall (fun x => r <= length (m_seq (snd x))) rows.

(** ** Columns of a profile *)

(** the character of hit [h] in column [p] of alignment [al] *)
Definition hit_char (al : mseq) (p : nat) (h : Hit) : ascii :=
  nth p (m_seq (nth (ix h) al (new_seq []))) zero.

(** the letters [a] to [y], the test of line 859 *)
Definition is_a_to_y (c : ascii) : bool :=
  (97 <=? N_of_ascii c)%N && (N_of_ascii c <=? 121)%N.

Definition count {A} (f : A -> bool) (l : list A) : Z :=
  Z.of_nat (length (filter f l)).

(** the hits are rows of [al] that reach column [p] *)
Definition rows_reach (al : mseq) (p : nat) (hits : list Hit) : Prop :=
  Forall (fun h => exists row, nth_error al (ix h) = Some row
                               /\ p <= length (m_seq row)) hits.

(** the test [pos + 1 < q.length() and is_gap(q[pos + 1])] of line 850 *)
Definition next_is_gap (q : Str.t) (p : nat) : bool :=
  (p + 1 <? length q) && is_gap (nth (p + 1) q zero).

(** overwrite column [k] of the query row (row 0) of alignment [n] *)
Definition poke_query (n k : nat) (c : ascii) (st : list mseq) : list mseq :=
  update n (update 0 (fun q => mkseq (m_id q) (set_char k c (m_seq q))
                                     (m_identical q) (m_length q))) st.

(** an alignment of a query with one hit that has an insertion after its
    second residue, before and after [Hit::Hit] has marked it *)
Definition ex_rows (c : ascii) : mseq :=
  [ mkseq (str "Q") (str "AG-C") 0 0;
    mkseq (str "h/1-4") ["A"; c; "K"; "C"]%char 0 0 ].

Definition ex_marked (c : ascii) : mseq :=
  [ mkseq (str "Q") (str "AG-C") 0 0;
    mkseq (str "h/1-4") ["A"; Str.tolower c; "K"; "c"]%char 0 0 ].

Definition ex_hit (c : ascii) : Hit :=
  mkHit 0 "A" 0 1 (str "h") [] [] [] 1 3 1 4 4 1 1 0
        (F32.lit 1 4) (F32.lit 1 4) 1 1
        [mkins 3 2 [Str.tolower c; "K"; "c"]%char].

(** ** Stockholm input *)

Definition marker : Str.t := str "# STOCKHOLM 1.0".
Definition header : Str.t := str "#=GF ID ".
Definition terminator : Str.t := str "//".


(** a line that is neither empty nor a comment *)
Definition is_data (l : Str.t) : bool :=
  match l with
  | [] => false
  | c :: _ => negb (Ascii.eqb c "#")
  end.

Definition no_space (l : Str.t) : bool :=
  match Str.find_char " " l with
  | None => true
  | Some _ => false
  end.

(** the id a [#=GS] line declares *)
Definition gs_id (l : Str.t) : Str.t :=
  let id := Str.substr_from 5 l in
  Str.trim (match Str.find id (str "DE ") with
            | Some s => Str.substr_to s id
            | None => id
            end).

(** the line declares, or carries residues of, a sequence other than [qid] *)
Definition names_other (qid l : Str.t) : bool :=
  match l with
  | [] => false
  | c :: _ =>
      if Str.starts_with l (str "#=GS ") then negb (Str.eqb qid (gs_id l))
      else if negb (Ascii.eqb c "#") then
        match Str.find_char " " l with
        | None => false
        | Some s => negb (Str.eqb (Str.substr_to s l) qid)
        end
      else false
  end.

Definition header_id (l2 : Str.t) : Str.t :=
  strip_iteration (Str.substr_from 8 l2).

(** the line the first [getline] gives is not the marker *)
Definition bad_marker (input : list Str.t) : Prop :=
  fst (getline input []) <> marker.

(** the line the second [getline] gives, or leaves, does not start with the
    header *)
Definition bad_header (input : list Str.t) : Prop :=
  Str.starts_with
    (fst (getline (snd (getline input [])) (fst (getline input [])))) header
  = false.



(** the alignment as the loop leaves it, before the count is checked *)
Definition parsed (ndebug : bool) (input : list Str.t) : outcome mseq :=
  read_lines ndebug (nth 1 input []) (skipn 2 input)
             [new_seq (header_id (nth 1 input []))] 0 [].

(** a state of the loop in which a round on [line] passes and leaves such
    a state again: the line is a comment, or a line of the first sequence,
    or a line of another one while [ix] is at the last row and the line is
    as long as the query's *)
Definition steady (line : Str.t) (a : mseq) (ix : nat) (qseq : Str.t) : Prop :=
  if Str.starts_with line (str "#=GS ") then a <> []
  else if Ascii.eqb (hd Ascii.zero line) "#" then True
  else match Str.find_char " " line, a with
       | Some s, front :: _ =>
           if Str.eqb (Str.substr_to s line) (m_id front) then True
           else length a = S ix
                /\ length qseq
                   <= length (Str.drop_while (Ascii.eqb " ") (Str.substr_from s line))
       | _, _ => False
       end.



(** lines 196-214, after the loop *)
Definition finish (a : mseq) : outcome mseq :=
  if length a <? 2 then Throw "Insufficient sequences in Stockholm MSA"
  else match a with
       | [] => Undef
       | q :: hits => Ok (q :: remove_below hits)
       end.







Definition ex_all_below : list Str.t :=
  map str [ "# STOCKHOLM 1.0"; "#=GF ID Q"; "Q     ACDEFGHIKL";
            "h/1-10 WWWWWWWWWW"; "//" ]%string.

Definition ex_query_alone : list Str.t :=
  map str [ "# STOCKHOLM 1.0"; "#=GF ID Q"; "Q     ACDEFGHIKL"; "//" ]%string.

(** ** Alignments written in blocks *)

(** a data line: the id, one or more spaces, the residues *)
Definition data_line (pad : nat) (id chunk : Str.t) : Str.t :=
  id ++ repeat " "%char (S pad) ++ chunk.

(** an id as a data line can carry it: not empty, not starting with [#],
    without a space *)
Definition wf_id (id : Str.t) : Prop := is_data id = true /\ no_space id = true.

(** residues that do not start with a space *)
Definition no_lead (c : Str.t) : bool :=
  match c with
  | x :: _ => negb (Ascii.eqb " " x)
  | [] => true
  end.

(** a column counts for the length when either residue is not a gap, and as
    identical when neither is a gap and the two are equal *)
Definition compared (qc sc : ascii) : bool := negb (is_gap qc) || negb (is_gap sc).

Definition same_residue (qc sc : ascii) : bool :=
  negb (is_gap qc) && negb (is_gap sc) && Ascii.eqb qc sc.

Definition count_cols (f : ascii -> ascii -> bool) (q s : Str.t) : Z :=
  count (fun p => f (fst p) (snd p)) (combine q s).

(** a hit row of the alignment with its two counters *)
Definition aligned_row (qrow id row : Str.t) : seq :=
  mkseq id row (u32 (count_cols same_residue qrow row))
               (u32 (count_cols compared qrow row)).

Definition rows_state (qrow : Str.t) (ids rows : list Str.t) : mseq :=
  map (fun p => aligned_row qrow (fst p) (snd p)) (combine ids rows).

(** the rows with the residues of one more block *)
Definition add_block (rows cs : list Str.t) : list Str.t :=
  map (fun p => fst p ++ snd p) (combine rows cs).

Definition hit_lines (pad : nat) (ids cs : list Str.t) : list Str.t :=
  map (fun p => data_line pad (fst p) (snd p)) (combine ids cs).

(** one block: the line of the query, then one line for every hit *)
Definition block_lines (pad : nat) (qid : Str.t) (ids : list Str.t)
    (b : Str.t * list Str.t) : list Str.t :=
  data_line pad qid (fst b) :: hit_lines pad ids (snd b).

Definition wf_block (ids : list Str.t) (b : Str.t * list Str.t) : Prop :=
  no_lead (fst b) = true
  /\ length (snd b) = length ids
  /\ Forall (fun c => no_lead c = true /\ length c = length (fst b)) (snd b).

(** the rows of the hits and of the query after all the blocks *)
Fixpoint rows_of (rows : list Str.t) (blocks : list (Str.t * list Str.t))
  : list Str.t :=
  match blocks with
  | [] => rows
  | b :: bs => rows_of (add_block rows (snd b)) bs
  end.

Definition qrow_of (blocks : list (Str.t * list Str.t)) : Str.t :=
  concat (map fst blocks).

Definition ex_two_blocks : list Str.t :=
  map str [ "# STOCKHOLM 1.0"; "#=GF ID Q1-i3";
            "Q1   ACDEF"; "h1/1-9   ACDE-"; "h2/3-9   WWWWW";
            "Q1   GHIKL"; "h1/1-9   GHIKL"; "h2/3-9   WWWWW"; "//" ]%string.

(** ** Rows, gaps and counters of a hit *)

(** [sc] occurs in [sa] *)
Definition substring (sc sa : Str.t) : Prop := exists a b, sa = a ++ sc ++ b.

(** an alignment whose query has a gap among the columns to cut *)
Definition ex_gapped_query : mseq :=
  [ mkseq (str "Q") (str "A-BCD") 0 0; mkseq (str "h/1-5") (str "AXBCD") 0 0 ].

(** two rows with gaps in the same columns *)
Definition gap_equiv (s s' : Str.t) : Prop :=
  Forall2 (fun a b => is_gap a = is_gap b) s s'.

(** the number of columns from [i] on, [n] of them, in which both rows have
    a gap *)
Fixpoint common_gaps (q s : Str.t) (i n : nat) : Z :=
  match n with
  | 0 => 0
  | S n' => (if is_gap (nth i s zero) && is_gap (nth i q zero) then 1 else 0)
            + common_gaps q s (S i) n'
  end.

(** what the loop keeps true: [n] columns are left *)
Definition counters_ok (n : nat) (w : walk) : Prop :=
  (0 <= w_identical w <= w_similar w)%Z
  /\ (w_similar w + Z.of_nat n <= w_lali w)%Z
  /\ (w_lali w < 2 ^ 32)%Z.

(** a column that is not a gap in both rows *)
Definition not_common (gap : Z) (c : Z * Z) : Prop :=
  ((fst c =? gap)%Z && (snd c =? gap)%Z) = false.

(** the columns of two rows that are not gaps in both *)
Definition without_common_gaps (gap : Z) (sq ss : list Z) : list (Z * Z) :=
  filter (fun c => negb ((fst c =? gap)%Z && (snd c =? gap)%Z)) (combine sq ss).

(** a column that is cut from an end of the alignment: a gap in either row,
    or a pair of residues that does not score *)
Definition weak (gap : Z) (m : Z -> Z -> Z) (c : Z * Z) : bool :=
  (fst c =? gap)%Z || (snd c =? gap)%Z || (m (fst c) (snd c) <=? 0)%Z.

Fixpoint drop_weak (gap : Z) (m : Z -> Z -> Z) (cols : list (Z * Z))
  : list (Z * Z) :=
  match cols with
  | [] => []
  | c :: cols' => if weak gap m c then drop_weak gap m cols' else cols
  end.

(** the alignment of two rows without its common gaps and without the weak
    columns at its two ends *)
Definition trimmed_columns (gap : Z) (m : Z -> Z -> Z) (sq ss : list Z)
  : list (Z * Z) :=
  rev (drop_weak gap m (rev (drop_weak gap m (without_common_gaps gap sq ss)))).

(** a hit that starts at the second residue of the query *)
Definition ex_flank : mseq :=
  [ mkseq (str "Q") (str "ACDE") 0 0; mkseq (str "h/2-4") (str "-CDE") 0 0 ].

(** residues as their character codes, for [CreateHit] *)
Definition ex_encode (s : Str.t) : list Z := map (fun c => Z.of_N (N_of_ascii c)) s.
Definition ex_matrix (a b : Z) : Z := if (a =? b)%Z then 4%Z else (-1)%Z.
Definition ex_kAA (c : Z) : ascii := ascii_of_N (Z.to_N c).

(** ** The order of the hits *)

Definition is_nan (x : spec_float) : bool :=
  match x with
  | S754_nan => true
  | _ => false
  end.

(** a position on a line for every float that is not a NaN: the order of
    [SFcompare] is the lexicographic order of these triples *)
Definition fkey (x : spec_float) : Z * Z * Z :=
  match x with
  | S754_zero _ => (0, 0, 0)
  | S754_infinity false => (2, 0, 0)
  | S754_infinity true => (-2, 0, 0)
  | S754_nan => (0, 0, 0)
  | S754_finite false m e => (1, e, Zpos m)
  | S754_finite true m e => (-1, - e, Zneg m)
  end%Z.

Definition lex_lt (a b : Z * Z * Z) : Prop :=
  let '(a1, a2, a3) := a in
  let '(b1, b2, b3) := b in
  (a1 < b1 \/ (a1 = b1 /\ (a2 < b2 \/ (a2 = b2 /\ a3 < b3))))%Z.

(** a hit whose identity is a number, not the NaN of 0 / 0; the hits that
    [Hit::Hit] builds are such (lemma [Hit_new_valid]) *)
Definition valid_hit (h : Hit) : Prop := is_nan (ide h) = false.

(** [a] may stand before [b] in the sorted list *)
Definition before (a b : Hit) : Prop := Hit_lt b a = false.

(** the two keys of the order as integers *)
Definition hit_key (h : Hit) : Z * Z * Z * Z := (fkey (ide h), lali h).

Definition key_lt (a b : Z * Z * Z * Z) : Prop :=
  let '(a1, a2, a3, a4) := a in
  let '(b1, b2, b3, b4) := b in
  (a1 < b1 \/ (a1 = b1 /\ (a2 < b2 \/ (a2 = b2 /\ (a3 < b3 \/ (a3 = b3 /\ a4 < b4))))))%Z.

(** two hits that the order does not tell apart: same identity, same [lali] *)
Definition tie (a b : Hit) : Prop := before a b /\ before b a.

(** sorted: no later hit compares less than an earlier one *)
Definition sorted (l : list Hit) : Prop := StronglySorted before l.

(** what [std::sort] promises for a comparison that is a strict weak
    ordering, as [Hit::operator<] is on hits whose identity is a number: the
    result holds the same hits and no hit compares less than an earlier one *)
Definition sorts (std_sort : (Hit -> Hit -> bool) -> list Hit -> list Hit) : Prop :=
  forall l, Forall valid_hit l ->
            Permutation l (std_sort Hit_lt l) /\ sorted (std_sort Hit_lt l).

(** the hits as sorted and cut, before they are numbered *)
Definition kept (std_sort : (Hit -> Hit -> bool) -> list Hit -> list Hit)
    (hits : list Hit) : list Hit :=
  firstn (Z.to_nat 9999) (std_sort Hit_lt hits).

Definition dropped (std_sort : (Hit -> Hit -> bool) -> list Hit -> list Hit)
    (hits : list Hit) : list Hit :=
  skipn (Z.to_nat 9999) (std_sort Hit_lt hits).

(** insertion sort, which [std::sort] is on short ranges *)
Fixpoint insert {A} (lt : A -> A -> bool) (x : A) (l : list A) : list A :=
  match l with
  | [] => [x]
  | y :: l' => if lt x y then x :: y :: l' else y :: insert lt x l'
  end.

Definition insertion_sort {A} (lt : A -> A -> bool) (l : list A) : list A :=
  fold_right (insert lt) [] l.

(** ** Hits and columns to run the report on *)

(** three hits: 5 of 10 identical, 9 of 10, and 10 of 20 *)
Definition ex_ranked (name : string) (same len : Z) : Hit :=
  mkHit 0 "A" 0 1 (str name) [] [] [] 1 len 1 len len 0 0 len
        (F32.div (F32.of_Z same) (F32.of_Z len))
        (F32.div (F32.of_Z same) (F32.of_Z len)) same same [].

Definition ex_hits : list Hit :=
  [ ex_ranked "a" 5 10; ex_ranked "b" 9 10; ex_ranked "c" 10 20 ].

(** two hits with the same identity and the same [lali] *)
Definition ex_tied : list Hit := [ ex_ranked "x" 5 10; ex_ranked "y" 5 10 ].

(** a sort that keeps the promise of [std::sort] as [insertion_sort] does,
    and orders hits that compare equal the other way round *)
Definition reversing_sort {A} (lt : A -> A -> bool) (l : list A) : list A :=
  insertion_sort lt (rev l).

Definition ex_hh_hit : HH.hit :=
  HH.mkhit 0 (str "h") [] [] [] (str "ACDE") (str "ACDE") 1 4 1 4 4 0 0 4
           F32.one F32.one 4 4.

Definition ex_column : mseq :=
  [ mkseq (str "Q") (str "AC") 0 0; mkseq (str "h1/1-2") (str "AD") 0 0;
    mkseq (str "h2/1-2") (str "GC") 0 0; mkseq (str "h3/1-2") (str "-C") 0 0 ].

Definition ex_weights (i j : nat) : spec_float := F32.one.

Definition ex_upper : list mseq :=
  [ [ mkseq (str "Q") (str "AG-C") 0 0; mkseq (str "h/1-4") (str "AKKC") 0 0 ] ].

(** ** Sequences that contain one another *)

(** the number of strings that are not empty *)
Definition live (s : list Str.t) : nat := length (filter nonempty s).

(** no string of [s] that is not empty occurs in another one *)
Definition antichain (s : list Str.t) : Prop :=
  forall i j a b,
    i <> j -> nth_error s i = Some a -> nth_error s j = Some b ->
    a <> [] -> b <> [] -> ~ substring b a.

(** the state of the rounds: [s0] and [ix0] are the vectors on entry *)
Definition cluster_inv (s0 : list Str.t) (ix0 : list nat) (s : list Str.t)
    (ix : list nat) : Prop :=
  length s = length s0 /\ length ix = length ix0
  /\ (forall j, j < length s0 ->
        (nth_error s j = nth_error s0 j /\ nth_error ix j = nth_error ix0 j)
        \/ (nth_error s j = Some [] /\ nth j s0 [] <> []
            /\ exists i, nth_error ix j = Some i /\ i <> j /\ i < length s0
                         /\ substring (nth j s0 []) (nth i s0 [])))
  /\ (forall j a, nth_error s0 j = Some a -> a <> [] ->
        exists k b, nth_error s k = Some b /\ nth_error s0 k = Some b
                    /\ b <> [] /\ substring a b).

(** three chains: the second occurs in the first, the first in the third *)
Definition ex_chains : list Str.t := [str "AB"; str "A"; str "ABC"].

(** ** The columns a weight counts *)

(** the columns [CalculateWeight] counts: those in which the query has a
    residue, and among them those in which the two rows hold the same residue *)
Definition weight_L (q : Str.t) : Z := count (fun c => negb (is_gap c)) q.

Definition weight_d (q si sj : Str.t) : Z :=
  count (fun t => negb (is_gap (fst t))
                  && (Ascii.eqb (fst (snd t)) (snd (snd t))
                      && negb (is_gap (fst (snd t)))))
        (combine q (combine si sj)).

(** a query with a gap in column 2 and two rows that agree in two of its
    three residues *)
Definition ex_three_rows : mseq :=
  [ mkseq (str "Q") (str "AC-E") 0 0; mkseq (str "h1/1-4") (str "ACDE") 0 0;
    mkseq (str "h2/1-4") (str "A-DE") 0 0 ].

(** ** Ids, and the characters of a row before and after [Hit::Hit] *)

(** a run of one or more digits *)
Definition digits (d : Str.t) : Prop := d <> [] /\ forallb Str.isdigit d = true.

(** a name of one or more of the characters [-a-zA-Z0-9_] *)
Definition id_name (n : Str.t) : Prop := n <> [] /\ forallb id_char n = true.

(** what [Hit::Hit] may do to a character of the hit row: leave it, lower
    its case, or blank a gap of the flanks *)
Definition row_rel (c c' : ascii) : Prop :=
  c' = c \/ c' = Str.tolower c \/ (is_gap c = true /\ c' = " "%char).

(** what the loop keeps true besides [counters_ok]: [n] columns are left,
    [s] is the hit row on entry *)
Definition gaps_ok (s : Str.t) (n : nat) (w : walk) : Prop :=
  Forall2 row_rel s (w_s w)
  /\ Forall (fun x => 3 <= length (iseq x)) (w_insertions w)
  /\ (w_qgap w = true -> 2 <= length (iseq (w_ins w)))
  /\ (Z.of_nat (length (w_insertions w)) + (if w_sgap w || w_qgap w then 1 else 0)
      <= w_ngap w <= w_lgap w)%Z
  /\ (0 <= w_similar w)%Z
  /\ (w_lgap w + w_similar w + Z.of_nat n <= w_lali w)%Z
  /\ (w_lali w < 2 ^ 32)%Z.

(** what the trimming of a flank may do to a character: leave it, or blank
    a gap *)
Definition blank_rel (c c' : ascii) : Prop :=
  c' = c \/ (is_gap c = true /\ c' = " "%char).

(** at the first column in which the hit has a residue, the query has one
    too *)
Definition anchored (q s : Str.t) : Prop :=
  forall k, k < length s ->
    (forall i, i < k -> is_gap (nth i s zero) = true) ->
    is_gap (nth k s zero) = false ->
    is_gap (nth k q zero) = false.

(** a matrix for the examples: every pair of different residues scores 0 *)
Definition ex_zero_matrix (a b : ascii) : Z := 0%Z.

(** the query row has a residue in its first and in its last column *)
Definition edge_free (q : Str.t) : Prop :=
  is_gap (nth 0 q zero) = false /\ is_gap (nth (length q - 1) q zero) = false.

(** an id of the form name/digits-digits, both numbers below 2^32 *)
Definition ranged_id (s : Str.t) : Prop :=
  exists n d1 d2,
    id_name n /\ digits d1 /\ digits d2
    /\ s = n ++ str "/" ++ d1 ++ str "-" ++ d2
    /\ (decimal d1 < 2 ^ 32)%Z /\ (decimal d2 < 2 ^ 32)%Z.

(** ** The hits of hh-hssp.cpp that are counted in a column *)

(** a hit of hh-hssp.cpp covers the residue numbered [seqNo] and holds one of
    the twenty letters, in upper case, in column [pos] *)
Definition counted (seqNo : Z) (pos : nat) (h : HH.hit) : bool :=
  negb ((seqNo <? HH.ifir h)%Z || (HH.ilas h <? seqNo)%Z)
  && match HH.letter_slot (nth pos (HH.seq h) zero) with
     | Some _ => true
     | None => false
     end.

(** the sum of the counts of a profile column *)
Definition zsum (l : list Z) : Z := fold_right Z.add 0%Z l.

(** three hits: the second has a lower-case letter in column 1, the third
    starts at residue 3 *)
Definition ex_hh_hits : list HH.hit :=
  [ HH.mkhit 1 (str "a") [] [] [] (str "ACDE") (str "ACDE") 1 4 1 4 4 0 0 4
             F32.one F32.one 4 4;
    HH.mkhit 2 (str "b") [] [] [] (str "AcDE") (str "AcDE") 1 4 1 4 4 0 0 4
             F32.one F32.one 4 4;
    HH.mkhit 3 (str "c") [] [] [] (str "--DE") (str "  DE") 3 4 1 2 2 0 0 2
             F32.one F32.one 2 2 ].

(** ** Blocks that follow one another *)

(** blocks that follow one another from hit [i] to the last of [size] hits:
    each holds 70 hits, the last one what is left *)
Fixpoint chained (i : Z) (blocks : list (Z * Z)) (size : Z) : Prop :=
  match blocks with
  | [] => i = size
  | (a, n) :: blocks' =>
      a = i /\ (i < n <= i + 70)%Z /\ (n < size -> n = i + 70)%Z
      /\ chained n blocks' size
  end.

(** ** The entries of a chain, and a chain to run [ChainToHits] on *)

(** [seqNr] of an entry *)
Definition entry_seqNr (e : res_entry) : Z :=
  match e with
  | ChainBreak n => n
  | Residue r => seqNr r
  end.

(** the entries are numbered from 1 on *)
Definition numbered_entries (res : list res_entry) : Prop :=
  forall k e, nth_error res k = Some e -> entry_seqNr e = (Z.of_nat k + 1)%Z.

(** the entries that are not chain breaks *)
Definition residues_of (res : list res_entry) : list ResidueHInfo :=
  flat_map (fun e => match e with
                     | ChainBreak _ => []
                     | Residue r => [r]
                     end) res.

(** a databank that knows every id, and a chain of three residues numbered
    1, 2 and 5 for the query of [ex_rows] *)
Definition ex_db : Databank :=
  mkdb (fun _ => Ok 1%Z) (fun _ _ => Ok (str "a protein")) (fun _ _ => Ok (str "AKKC")).

Definition ex_chain : MChain :=
  mkchain "A" [ mkresidue 1 (str "    1    1 A A");
                mkresidue 2 (str "    2    2 A G");
                mkresidue 5 (str "    3    5 A C") ].

(** a protein of two chains: the alignment of chain A is that of [ex_rows],
    in which the hit has an insertion after its second residue; in the
    alignment of chain B the query has no gap and the hit equals it *)
Definition ex_two_chains : list mseq :=
  [ ex_rows "K";
    [ mkseq (str "R") (str "AGWC") 0 0; mkseq (str "g/1-4") (str "AGWC") 0 0 ] ].

Definition ex_chain_B : MChain :=
  mkchain "B" [ mkresidue 1 (str "    5    1 B A");
                mkresidue 2 (str "    6    2 B G");
                mkresidue 3 (str "    7    3 B W");
                mkresidue 4 (str "    8    4 B C") ].

(** ** Rows cut alike, and the character of a hit in its own alignment *)

(** a row cut by [o] columns at the front and [n] at the back, its id and
    counters kept *)
Definition cut_row (o n : nat) (row row' : seq) : Prop :=
  m_id row' = m_id row /\ m_identical row' = m_identical row
  /\ m_length row' = m_length row
  /\ m_seq row' = firstn (length (m_seq row) - o - n) (skipn o (m_seq row)).

(** the character of a hit in column [p] of its own alignment *)
Definition own_char (st : list mseq) (p : nat) (h : Hit) : ascii :=
  nth p (m_seq (nth (ix h) (nth (msa h) st []) (new_seq []))) zero.

(** one of the twenty letters, in either case *)
Definition canonical (c : ascii) : bool := negb (kIX_at c =? -1)%Z.

(** ** Letters in upper case, and the counts of a column *)

(** [toupper] in the C locale *)
Definition toupper (c : ascii) : ascii :=
  if is_lower c then ascii_of_N (N_of_ascii c - 32) else c.

(** a row with every letter in upper case *)
Definition upper_row (s : seq) : seq :=
  mkseq (m_id s) (map toupper (m_seq s)) (m_identical s) (m_length s).

(** how often the letter of index [k] is counted in column [p]: once when
    the residue [a] of the query is that letter, and once for every hit that
    holds it, in either case, in its own alignment *)
Definition letter_count (st : list mseq) (p : nat) (a : ascii) (hits : list Hit)
    (k : nat) : Z :=
  ((if (kIX_at (toupper a) =? Z.of_nat k)%Z then 1 else 0)
   + count (fun h => (kIX_at (toupper (own_char st p h)) =? Z.of_nat k)%Z) hits)%Z.

(** a query and two hits that hold the same residue in column 1, before and
    after [Hit::Hit] has marked the insertion of the first one *)
Definition ex_three : mseq :=
  [ mkseq (str "Q") (str "AG-C") 0 0; mkseq (str "h/1-4") (str "AKKC") 0 0;
    mkseq (str "g/1-3") (str "AK-C") 0 0 ].

Definition ex_three_marked : mseq :=
  [ mkseq (str "Q") (str "AG-C") 0 0; mkseq (str "h/1-4") (str "AkKc") 0 0;
    mkseq (str "g/1-3") (str "AK-C") 0 0 ].

(** * Properties *)

(** ** Characters and the index table *)

Ltac all_chars c :=
  destruct c as [[|] [|] [|] [|] [|] [|] [|] [|]]; vm_compute; intros;
  first [reflexivity | discriminate].

Lemma kIX_tolower (c : ascii) : kIX_at (Str.tolower c) = kIX_at c.
Proof. all_chars c. Qed.

Lemma kIX_same_letter [c c' : ascii] : same_letter c c' -> kIX_at c = kIX_at c'.
Proof.
  unfold same_letter; intros E.
  rewrite <- (kIX_tolower c), <- (kIX_tolower c'); now rewrite E.
Qed.

Lemma kIX_non_letter (c : ascii) :
  is_upper c = false -> is_lower c = false -> kIX_at c = (-1)%Z.
Proof. all_chars c. Qed.

Lemma kIX_gap (c : ascii) : is_gap c = true -> kIX_at c = (-1)%Z.
Proof. all_chars c. Qed.

Lemma is_gap_tolower (c : ascii) : is_gap (Str.tolower c) = is_gap c.
Proof. all_chars c. Qed.

Lemma is_gap_same_letter [c c' : ascii] :
  same_letter c c' -> is_gap c = is_gap c'.
Proof.
  unfold same_letter; intros E.
  rewrite <- (is_gap_tolower c), <- (is_gap_tolower c'); now rewrite E.
Qed.

(** ** Outcomes related pointwise *)

Lemma orel_bind {A B A' B'} (R : A -> A' -> Prop) (S : B -> B' -> Prop)
    (x : outcome A) (y : outcome A') (k : A -> outcome B) (k' : A' -> outcome B') :
  orel R x y ->
  (forall a b, R a b -> orel S (k a) (k' b)) ->
  orel S (bind x k) (bind y k').
Proof.
  destruct x, y; simpl; intros H K; try contradiction; auto.
Qed.

Lemma orel_eq {A} (x y : outcome A) : orel eq x y -> x = y.
Proof. destruct x, y; simpl; intros H; try contradiction; congruence. Qed.

Lemma orel_refl {A} (R : A -> A -> Prop) (x : outcome A) :
  (forall a, R a a) -> orel R x x.
Proof. destruct x; simpl; auto. Qed.

Lemma vec_at_rel {A B} [R : A -> B -> Prop] [v : list A] [v' : list B] (i : nat) :
  Forall2 R v v' -> orel R (vec_at v i) (vec_at v' i).
Proof.
  intros H; revert i; induction H; intros [|i]; unfold vec_at; simpl; auto.
  apply IHForall2.
Qed.

Lemma cstr_at_rel [s s' : Str.t] (p : nat) :
  Forall2 same_letter s s' -> orel same_letter (cstr_at s p) (cstr_at s' p).
Proof.
  intros H. unfold cstr_at.
  rewrite <- (Forall2_length H).
  revert p; induction H; intros [|p]; simpl; try reflexivity; auto.
Qed.

(** ** Rows that differ in case only *)

Lemma same_row_length [s s' : seq] :
  same_row s s' -> length (m_seq s) = length (m_seq s').
Proof. apply Forall2_length. Qed.

Section CaseInsensitive.

Variable ndebug : bool.
Variable log : spec_float -> spec_float.
Variables st st' : list mseq.
Hypothesis Hst : same_store st st'.

Lemma count_hits_case (hits : list Hit) (p : nat) (no : Z) (d : list Z) :
  count_hits st hits p no d = count_hits st' hits p no d.
Proof.
  revert no d; induction hits as [|h hits IH]; intros no d; simpl; [reflexivity|].
  apply orel_eq.
  eapply orel_bind; [apply vec_at_rel, Hst|]; intros a a' Ha.
  eapply orel_bind; [apply vec_at_rel, Ha|]; intros row row' Hrow.
  eapply orel_bind; [apply cstr_at_rel, Hrow|]; intros c c' Hc.
  rewrite (kIX_same_letter Hc).
  destruct (negb _); rewrite IH; apply orel_refl; reflexivity.
Qed.

Lemma count_indels_case [a a' : mseq] (gap : bool) (hits : list Hit) (p : nat)
    (nd ni ni' : Z) :
  same_rows a a' ->
  orel (fun x y => fst x = fst y)
       (count_indels a gap hits p nd ni) (count_indels a' gap hits p nd ni').
Proof.
  intros Ha; revert nd ni ni'; induction hits as [|h hits IH]; intros nd ni ni';
    simpl; [reflexivity|].
  eapply orel_bind; [apply vec_at_rel, Ha|]; intros row row' Hrow.
  eapply orel_bind; [apply cstr_at_rel, Hrow|]; intros c c' Hc.
  rewrite (is_gap_same_letter Hc). apply IH.
Qed.

Lemma ResidueHInfo_case (a : ascii) (hits : list Hit) (p : nat) (ch : ascii)
    (sn pn : Z) (ds : Str.t) (cw : spec_float) :
  orel (fun x y => nocc x = nocc y /\ dist x = dist y /\ entropy x = entropy y
                   /\ ndel x = ndel y)
       (ResidueHInfo_new ndebug log st a hits p ch sn pn ds cw)
       (ResidueHInfo_new ndebug log st' a hits p ch sn pn ds cw).
Proof.
  unfold ResidueHInfo_new.
  eapply orel_bind with (R := eq); [apply orel_refl; reflexivity|].
  intros _ _ _.
  rewrite count_hits_case.
  eapply orel_bind with (R := eq); [apply orel_refl; reflexivity|].
  intros [no d2] ? <-.
  eapply orel_bind with (R := eq); [apply orel_refl; reflexivity|].
  intros [d3 e] ? <-.
  destruct hits as [|front hits']; [exact I|].
  eapply orel_bind; [apply vec_at_rel, Hst|]; intros al al' Hal.
  eapply orel_bind; [apply vec_at_rel, Hal|]; intros q q' Hq.
  rewrite <- (same_row_length Hq).
  eapply orel_bind with (R := eq).
  { destruct (p + 1 <? length (m_seq q)); [|reflexivity].
    eapply orel_bind; [apply cstr_at_rel, Hq|]; intros c c' Hc.
    simpl. apply is_gap_same_letter, Hc. }
  intros gap ? <-.
  eapply orel_bind; [apply count_indels_case, Hal|].
  intros [nd ni] [nd' ni'] E; simpl in *. subst; auto.
Qed.

End CaseInsensitive.

Section ConservationCase.

Variable w : nat -> nat -> spec_float.
Variable r : nat.

Lemma conservation_inner_case (i : nat) (ri : Z) [rows rows' : list (nat * seq)]
    (acc : spec_float * spec_float) :
  Forall2 (fun x y => fst x = fst y /\ same_row (snd x) (snd y)) rows rows' ->
  conservation_inner w r i ri rows acc = conservation_inner w r i ri rows' acc.
Proof.
  intros H; revert acc; induction H as [|[j sj] [j' sj'] rows rows' [E Hs] H IH];
    intros acc; simpl in *; [reflexivity|]. subst j'.
  apply orel_eq.
  eapply orel_bind; [apply cstr_at_rel, Hs|]; intros c c' Hc.
  rewrite (kIX_same_letter Hc).
  destruct (_ =? _)%Z; rewrite IH; apply orel_refl; reflexivity.
Qed.

Lemma conservation_outer_case [rows rows' : list (nat * seq)]
    (acc : spec_float * spec_float) :
  Forall2 (fun x y => fst x = fst y /\ same_row (snd x) (snd y)) rows rows' ->
  conservation_outer w r rows acc = conservation_outer w r rows' acc.
Proof.
  intros H; revert acc; induction H as [|[i si] [i' si'] rows rows' [E Hs] H IH];
    intros acc; simpl in *; [reflexivity|]. subst i'.
  destruct H as [|x y rows rows' Hxy H]; [reflexivity|].
  apply orel_eq.
  eapply orel_bind; [apply cstr_at_rel, Hs|]; intros c c' Hc.
  rewrite (kIX_same_letter Hc).
  destruct (_ =? _)%Z.
  - rewrite IH. apply orel_refl; reflexivity.
  - rewrite (conservation_inner_case _ _ _ (Forall2_cons _ _ Hxy H)).
    eapply orel_bind with (R := eq); [apply orel_refl; reflexivity|].
    intros ? ? <-. rewrite IH. apply orel_refl; reflexivity.
Qed.

Lemma numbered_case [a a' : mseq] :
  same_rows a a' ->
  Forall2 (fun x y => fst x = fst y /\ same_row (snd x) (snd y))
          (numbered a) (numbered a').
Proof.
  unfold numbered; intros H. rewrite <- (Forall2_length H).
  generalize 0 as n.
  induction H; intros n; simpl; constructor; auto.
Qed.

Lemma CalculateConservation_case [a a' : mseq] :
  same_rows a a' ->
  CalculateConservation w r a = CalculateConservation w r a'.
Proof.
  intros H. unfold CalculateConservation.
  now rewrite (conservation_outer_case _ (numbered_case H)).
Qed.

End ConservationCase.

(** lowering the case of characters of a row, as [Hit::Hit] does *)
Lemma same_letter_tolower (c : ascii) : same_letter c (Str.tolower c).
Proof. unfold same_letter. all_chars c. Qed.

(** ** The conservation score as a quotient of two sums *)

Section ConservationSum.

Variable w : nat -> nat -> spec_float.
Variable r : nat.

Lemma accumulate_app acc ps qs :
  accumulate w acc (ps ++ qs) = accumulate w (accumulate w acc ps) qs.
Proof. unfold accumulate; simpl. now rewrite !map_app, !fold_left_app. Qed.

Lemma cstr_at_nth (s : Str.t) [p : nat] :
  p <= length s -> cstr_at s p = Ok (nth p s zero).
Proof.
  intros H. unfold cstr_at.
  destruct (nth_error s p) as [c|] eqn:E.
  - now rewrite (nth_error_nth _ _ _ E).
  - apply nth_error_None in E.
    assert (p = length s) as -> by lia.
    rewrite Nat.eqb_refl, nth_overflow; auto.
Qed.

Lemma conservation_inner_sum (i : nat) (ri : Z) [rows : list (nat * seq)] acc :
  long_enough r rows ->
  conservation_inner w r i ri rows acc
  = Ok (accumulate w acc (map (pair (i, ri)) (residues_at r rows))).
Proof.
  intros H; revert acc; induction H as [|[j sj] rows Hj H IH]; intros [c0 w0];
    simpl in *; [reflexivity|].
  rewrite (cstr_at_nth _ Hj); simpl.
  unfold residues_at in *; simpl.
  destruct (kIX_at (nth r (m_seq sj) zero) =? -1)%Z; simpl; now rewrite IH.
Qed.

Lemma conservation_outer_sum [rows : list (nat * seq)] acc :
  long_enough r rows ->
  conservation_outer w r rows acc
  = Ok (accumulate w acc (pairs_of (residues_at r rows))).
Proof.
  intros H; revert acc; induction H as [|[i si] rows Hi H IH]; intros acc;
    [destruct acc; reflexivity|].
  cbn [conservation_outer].
  destruct rows as [|y rows].
  { unfold residues_at; simpl. destruct (negb _); destruct acc; reflexivity. }
  simpl in Hi. rewrite (cstr_at_nth _ Hi). cbn [bind].
  unfold residues_at at 1; cbn [map filter fst snd].
  fold (residues_at r (y :: rows)).
  destruct (kIX_at (nth r (m_seq si) zero) =? -1)%Z; cbn [negb].
  - apply IH.
  - rewrite (conservation_inner_sum _ _ _ H). cbn [bind pairs_of].
    rewrite IH. now rewrite accumulate_app.
Qed.

Lemma numbered_long_enough [a : mseq] :
  Forall (fun s => r <= length (m_seq s)) a -> long_enough r (numbered a).
Proof.
  unfold numbered, long_enough. generalize 0 as n.
  induction a as [|s a IH]; intros n H; simpl; constructor;
    inversion H; subst; auto.
Qed.

End ConservationSum.

Lemma D_symmetric (i j : Z) : D i j = D j i.
Proof. unfold D, symmetric_at. now rewrite Nat.max_comm, Nat.min_comm. Qed.

Lemma D_diagonal [i : Z] : (0 <= i < 20)%Z -> D i i = F32.lit 15 10.
Proof.
  intros H.
  assert (In i [0;1;2;3;4;5;6;7;8;9;10;11;12;13;14;15;16;17;18;19]%Z) as Hin.
  { simpl. lia. }
  simpl in Hin.
  repeat (destruct Hin as [<-|Hin]; [vm_compute; reflexivity|]).
  contradiction.
Qed.

Lemma pairs_of_short {A} (l : list A) : length l < 2 -> pairs_of l = [].
Proof. destruct l as [|x [|y l]]; simpl; intros; auto; lia. Qed.

(** C5: on an alignment whose rows reach column [r], [CalculateConservation]
    returns the sum of [w(i,j) * D(aa_i, aa_j)] divided by the sum of
    [w(i,j) * 1.5], both over the pairs [i < j] of rows with a canonical
    residue in column [r] (single precision, added in the order of the
    loops), and exactly 1.0 when the sum of the weights is zero, which is
    the case with fewer than two such rows; [D] is symmetric with 1.5 on
    its diagonal. *)
Theorem CalculateConservation_formula (w : nat -> nat -> spec_float) [r : nat]
    [a : mseq] :
  Forall (fun s => r <= length (m_seq s)) a ->
  let ps := pairs_of (residues_at r (numbered a)) in
  let conservation := fsum (map (term_conservation w) ps) in
  let weight := fsum (map (term_weight w) ps) in
  CalculateConservation w r a
    = Ok (if SFeqb weight (S754_zero false) then F32.one
          else F32.div conservation weight)
  /\ (length (residues_at r (numbered a)) < 2 ->
      CalculateConservation w r a = Ok F32.one)
  /\ (forall i j, D i j = D j i)
  /\ (forall i, (0 <= i < 20)%Z -> D i i = F32.lit 15 10).
Proof.
  intros H ps conservation weight.
  assert (CalculateConservation w r a
          = Ok (if SFeqb weight (S754_zero false) then F32.one
                else F32.div conservation weight)) as E.
  { unfold CalculateConservation.
    rewrite (conservation_outer_sum w r (S754_zero false, S754_zero false)
               (numbered_long_enough r H)).
    cbn [bind accumulate fst snd].
    fold ps. fold (fsum (map (term_weight w) ps)). fold weight.
    fold (fsum (map (term_conservation w) ps)). fold conservation.
    destruct (SFeqb weight (S754_zero false)); reflexivity. }
  split; [exact E|].
  split.
  - intros Hlen. rewrite E. subst weight ps.
    rewrite (pairs_of_short _ Hlen). reflexivity.
  - split; [exact D_symmetric | exact D_diagonal].
Qed.

(** ** Deletions and insertions at a query position *)

Lemma u32_small [z : Z] : (0 <= z < 2 ^ 32)%Z -> u32 z = z.
Proof. intros H. unfold u32. now rewrite Z.mod_small. Qed.

Lemma u32_succ (z : Z) : u32 (u32 z + 1) = u32 (z + 1).
Proof. unfold u32. now rewrite Zplus_mod_idemp_l. Qed.

Lemma u32_range (z : Z) : (0 <= u32 z < 2 ^ 32)%Z.
Proof. unfold u32. apply Z.mod_pos_bound. reflexivity. Qed.

Lemma u32_idem (z : Z) : u32 (u32 z) = u32 z.
Proof. apply u32_small, u32_range. Qed.

Lemma count_indels_spec [al : mseq] (gap : bool) [hits : list Hit] [p : nat]
    (nd ni : Z) :
  rows_reach al p hits ->
  count_indels al gap hits p (u32 nd) (u32 ni)
  = Ok (u32 (nd + count (fun h => is_gap (hit_char al p h)) hits),
        u32 (ni + if gap then count (fun h => is_a_to_y (hit_char al p h)) hits
                  else 0)).
Proof.
  intros H; revert nd ni; induction H as [|h hits (row & Hrow & Hp) H IH];
    intros nd ni.
  - unfold count; simpl. destruct gap; now rewrite !Z.add_0_r.
  - simpl. unfold vec_at. rewrite Hrow. cbn [bind].
    rewrite (cstr_at_nth _ Hp). cbn [bind].
    assert (hit_char al p h = nth p (m_seq row) zero) as Hc.
    { unfold hit_char. now rewrite (nth_error_nth _ _ _ Hrow). }
    unfold count in *; cbn [filter]. rewrite Hc.
    fold (is_a_to_y (nth p (m_seq row) zero)).
    set (c := nth p (m_seq row) zero).
    assert (forall (b : bool) (x : Z), (if b then u32 (u32 x + 1) else u32 x)
                              = u32 (if b then x + 1 else x)) as Hb.
    { intros [|] x; [apply u32_succ | reflexivity]. }
    rewrite (Hb (is_gap c)).
    replace (if gap && (97 <=? N_of_ascii c)%N && (N_of_ascii c <=? 121)%N
             then u32 (u32 ni + 1) else u32 ni)
      with (u32 (if gap && is_a_to_y c then ni + 1 else ni)).
    2:{ unfold is_a_to_y. rewrite andb_assoc.
        destruct (gap && (97 <=? N_of_ascii c)%N && (N_of_ascii c <=? 121)%N);
          [now rewrite u32_succ | reflexivity]. }
    rewrite IH. f_equal. f_equal.
    + f_equal. destruct (is_gap c); cbn [length]; lia.
    + f_equal. destruct gap; cbn [andb]; [|reflexivity].
      destruct (is_a_to_y c); cbn [length]; lia.
Qed.

Lemma ResidueHInfo_indels (ndebug : bool) (log : spec_float -> spec_float)
    (st : list mseq) (a : ascii) [front : Hit] [hits : list Hit] [p : nat]
    (ch : ascii) (sn pn : Z) (ds : Str.t) (cw : spec_float)
    [al : mseq] [q : seq] [res : ResidueHInfo] :
  nth_error st (msa front) = Some al ->
  nth_error al 0 = Some q ->
  rows_reach al p (front :: hits) ->
  ResidueHInfo_new ndebug log st a (front :: hits) p ch sn pn ds cw = Ok res ->
  ndel res = u32 (count (fun h => is_gap (hit_char al p h)) (front :: hits)) /\
  nins res = u32 (if next_is_gap (m_seq q) p
                  then count (fun h => is_a_to_y (hit_char al p h)) (front :: hits)
                  else 0).
Proof.
  intros Hal Hq Hrows. unfold ResidueHInfo_new.
  destruct (assert ndebug (negb (kIX_at a =? -1)%Z)); cbn [bind]; try discriminate.
  match goal with
  | |- context [count_hits ?s ?h ?p ?n ?d] =>
      destruct (count_hits s h p n d) as [[no d2]| | | |]
  end; cbn [bind]; try discriminate.
  destruct (percentages log no d2 (S754_zero false)) as [[d3 e]| | | |];
    cbn [bind]; try discriminate.
  unfold vec_at. rewrite Hal. cbn [bind]. rewrite Hq. cbn [bind].
  assert ((if p + 1 <? length (m_seq q)
           then c <- cstr_at (m_seq q) (p + 1);; Ok (is_gap c)
           else Ok false) = Ok (next_is_gap (m_seq q) p)) as ->.
  { unfold next_is_gap. destruct (p + 1 <? length (m_seq q)) eqn:E; [|reflexivity].
    apply Nat.ltb_lt in E. rewrite cstr_at_nth by lia. reflexivity. }
  cbn [bind].
  change 0%Z with (u32 0) at 1 2.
  rewrite (count_indels_spec _ 0 0 Hrows). cbn [bind].
  intros [= <-]; cbn [ndel nins]. split; reflexivity.
Qed.

(** *** The column before [pos] is not looked at *)

Lemma update_length {A} (i : nat) (f : A -> A) (v : list A) :
  length (update i f v) = length v.
Proof. revert i; induction v; intros [|i]; simpl; auto. Qed.

Lemma update_middle {A} (f : A -> A) (pre : list A) (x : A) (post : list A) :
  update (length pre) f (pre ++ x :: post) = pre ++ f x :: post.
Proof. induction pre as [|y pre IH]; simpl; [reflexivity|]. now rewrite IH. Qed.

Lemma nth_error_middle {A} (pre : list A) (x : A) (post : list A) :
  nth_error (pre ++ x :: post) (length pre) = Some x.
Proof. induction pre as [|y pre IH]; simpl; auto. Qed.

Lemma nth_error_update_ne {A} [i j : nat] (f : A -> A) (v : list A) :
  i <> j -> nth_error (update i f v) j = nth_error v j.
Proof.
  revert i j; induction v; intros [|i] [|j] H; simpl; auto; try congruence.
Qed.

Lemma nth_error_update_eq {A} (i : nat) (f : A -> A) (v : list A) :
  nth_error (update i f v) i = option_map f (nth_error v i).
Proof. revert i; induction v; intros [|i]; simpl; auto. Qed.

Lemma nth_update_ne {A} [i j : nat] (f : A -> A) (v : list A) (d : A) :
  i <> j -> nth j (update i f v) d = nth j v d.
Proof.
  revert i j; induction v; intros [|i] [|j] H; simpl; auto; try congruence.
Qed.

Lemma poke_query_row (n k : nat) (c : ascii) (st : list mseq) (a : nat) [i : nat] :
  i <> 0 ->
  (al <- vec_at (poke_query n k c st) a ;; vec_at al i)
  = (al <- vec_at st a ;; vec_at al i).
Proof.
  intros Hi. unfold poke_query, vec_at.
  destruct (Nat.eq_dec n a) as [->|Hn].
  - rewrite nth_error_update_eq.
    destruct (nth_error st a) as [al|]; cbn [option_map bind]; [|reflexivity].
    now rewrite nth_error_update_ne by auto.
  - now rewrite nth_error_update_ne by auto.
Qed.

Lemma bind_assoc {A B C} (x : outcome A) (f : A -> outcome B) (g : B -> outcome C) :
  bind (bind x f) g = bind x (fun a => bind (f a) g).
Proof. destruct x; reflexivity. Qed.

Lemma count_hits_poke (n k : nat) (c : ascii) (st : list mseq) [hits : list Hit]
    (p : nat) (no : Z) (d : list Z) :
  Forall (fun h => ix h <> 0) hits ->
  count_hits (poke_query n k c st) hits p no d = count_hits st hits p no d.
Proof.
  intros H; revert no d; induction H as [|h hits Hh H IH]; intros no d;
    [reflexivity|].
  cbn [count_hits].
  rewrite <- !bind_assoc. rewrite (poke_query_row n k c st (msa h) Hh).
  destruct (al <- vec_at st (msa h);; vec_at al (ix h)); cbn [bind]; auto.
  destruct (cstr_at (m_seq a) p); cbn [bind]; auto.
  destruct (negb _); apply IH.
Qed.

Lemma count_indels_poke (k : nat) (c : ascii) (al : mseq) (gap : bool)
    [hits : list Hit] (p : nat) (nd ni : Z) :
  Forall (fun h => ix h <> 0) hits ->
  count_indels (update 0 (fun q => mkseq (m_id q) (set_char k c (m_seq q))
                                         (m_identical q) (m_length q)) al)
               gap hits p nd ni
  = count_indels al gap hits p nd ni.
Proof.
  intros H; revert nd ni; induction H as [|h hits Hh H IH]; intros nd ni;
    [reflexivity|].
  cbn [count_indels]. unfold vec_at.
  rewrite nth_error_update_ne by auto.
  destruct (nth_error al (ix h)); cbn [bind]; auto.
  destruct (cstr_at (m_seq s) p); cbn [bind]; auto.
Qed.

Lemma ResidueHInfo_prev_column (ndebug : bool) (log : spec_float -> spec_float)
    (st : list mseq) (a : ascii) [hits : list Hit] [p : nat]
    (ch : ascii) (sn pn : Z) (ds : Str.t) (cw : spec_float) (n : nat) (c : ascii) :
  1 <= p ->
  Forall (fun h => ix h <> 0) hits ->
  orel (fun x y => ndel x = ndel y /\ nins x = nins y)
       (ResidueHInfo_new ndebug log st a hits p ch sn pn ds cw)
       (ResidueHInfo_new ndebug log (poke_query n (p - 1) c st) a hits p ch sn pn ds cw).
Proof.
  intros Hp Hix. unfold ResidueHInfo_new.
  eapply orel_bind with (R := eq); [apply orel_refl; reflexivity|].
  intros _ _ _.
  rewrite (count_hits_poke n (p - 1) c st _ _ _ Hix).
  eapply orel_bind with (R := eq); [apply orel_refl; reflexivity|].
  intros [no d2] ? <-.
  eapply orel_bind with (R := eq); [apply orel_refl; reflexivity|].
  intros [d3 e] ? <-.
  destruct hits as [|front hits']; [exact I|].
  unfold poke_query, vec_at.
  destruct (Nat.eq_dec n (msa front)) as [->|Hn].
  2:{ rewrite nth_error_update_ne by auto. apply orel_refl. auto. }
  rewrite nth_error_update_eq.
  destruct (nth_error st (msa front)) as [al|]; cbn [option_map bind]; [|exact I].
  rewrite nth_error_update_eq.
  destruct (nth_error al 0) as [q|]; cbn [option_map bind m_seq]; [|exact I].
  unfold set_char. rewrite update_length.
  assert (cstr_at (update (p - 1) (fun _ => c) (m_seq q)) (p + 1)
          = cstr_at (m_seq q) (p + 1)) as ->.
  { unfold cstr_at. rewrite nth_error_update_ne by lia.
    now rewrite update_length. }
  eapply orel_bind with (R := eq); [apply orel_refl; reflexivity|].
  intros gap ? <-.
  fold (set_char (p - 1) c (m_seq q)).
  rewrite (count_indels_poke (p - 1) c al gap _ 0 0 Hix).
  eapply orel_bind with (R := eq); [apply orel_refl; reflexivity|].
  intros [nd ni] ? <-. simpl. auto.
Qed.

(** What the second loop of the constructor computes, which is what C7
    says on a protein of one chain but for the letter [z]: in a profile
    built at position [pos], [ndel] is the number of hits whose row holds a
    gap at [pos], and [nins] is the number of hits whose row holds one of
    the letters [a] to [y] at [pos], counted only when the query has a
    column [pos + 1] and it is a gap; overwriting the query's column
    [pos - 1] changes neither.  The query and the rows are those of the
    alignment of the first hit, where [Hit::Hit] has blanked the columns a
    hit does not cover. *)
Theorem ResidueHInfo_ndel_nins (ndebug : bool) (log : spec_float -> spec_float)
    (st : list mseq) (a : ascii) [front : Hit] [hits : list Hit] [p : nat]
    (ch : ascii) (sn pn : Z) (ds : Str.t) (cw : spec_float)
    [al : mseq] [q : seq] [res : ResidueHInfo] :
  nth_error st (msa front) = Some al ->
  nth_error al 0 = Some q ->
  rows_reach al p (front :: hits) ->
  ResidueHInfo_new ndebug log st a (front :: hits) p ch sn pn ds cw = Ok res ->
  ndel res = u32 (count (fun h => is_gap (hit_char al p h)) (front :: hits)) /\
  nins res = u32 (if next_is_gap (m_seq q) p
                  then count (fun h => is_a_to_y (hit_char al p h)) (front :: hits)
                  else 0) /\
  (forall n c,
      1 <= p -> Forall (fun h => ix h <> 0) (front :: hits) ->
      exists res',
        ResidueHInfo_new ndebug log (poke_query n (p - 1) c st) a (front :: hits)
                         p ch sn pn ds cw = Ok res'
        /\ ndel res' = ndel res /\ nins res' = nins res).
Proof.
  intros Hal Hq Hrows Hres.
  destruct (ResidueHInfo_indels _ _ _ _ _ _ _ _ _ Hal Hq Hrows Hres) as [Hd Hi].
  repeat split; auto.
  intros n c Hp Hix.
  pose proof (@ResidueHInfo_prev_column ndebug log st a (front :: hits) p ch sn pn
                ds cw n c Hp Hix) as R.
  rewrite Hres in R.
  destruct (ResidueHInfo_new ndebug log (poke_query n (p - 1) c st) a
              (front :: hits) p ch sn pn ds cw) as [res'| | | |];
    simpl in R; try contradiction.
  exists res'. intuition congruence.
Qed.

Lemma ResidueHInfo_ndel_nins_witness :
  exists res,
    Hit_new false (fun _ _ => 0%Z) 0 (ex_rows "K") "A" 0 1
      = Ok (ex_hit "K", ex_marked "K") /\
    ResidueHInfo_new false (fun x => x) [ex_marked "K"] "G" [ex_hit "K"] 1 "A" 2 2 []
                     F32.one = Ok res /\
    ndel res = 0%Z /\ nins res = 1%Z.
Proof.
  eexists.
  split; [vm_compute; reflexivity|].
  split; [vm_compute; reflexivity|].
  match goal with
  | |- ndel ?r = _ /\ _ =>
      destruct (@ResidueHInfo_ndel_nins false (fun x => x) [ex_marked "K"] "G"%char
                  (ex_hit "K") [] 1 "A"%char 2%Z 2%Z []
                  F32.one (ex_marked "K")
                  (mkseq (str "Q") (str "AG-C") 0 0) r) as (Hd & Hi & _)
  end.
  - reflexivity.
  - reflexivity.
  - repeat constructor. eexists; split; [reflexivity|]. simpl; lia.
  - vm_compute; reflexivity.
  - split; [rewrite Hd | rewrite Hi]; vm_compute; reflexivity.
Defined.

(** A lowered [z] is not counted: the hit's residue [Z] before an insertion
    is lowered by [Hit::Hit] as the anchor of the insertion, the next query
    column is a gap, and [nins] stays 0. *)
Lemma nins_misses_lowered_z :
  exists res,
    Hit_new false (fun _ _ => 0%Z) 0 (ex_rows "Z") "A" 0 1
      = Ok (ex_hit "Z", ex_marked "Z") /\
    insertions (ex_hit "Z") = [mkins 3 2 (str "zKc")] /\
    ResidueHInfo_new false (fun x => x) [ex_marked "Z"] "G" [ex_hit "Z"] 1 "A" 2 2 []
                     F32.one = Ok res /\
    next_is_gap (str "AG-C") 1 = true /\
    hit_char (ex_marked "Z") 1 (ex_hit "Z") = "z"%char /\
    count (fun h => is_lower (hit_char (ex_marked "Z") 1 h)) [ex_hit "Z"] = 1%Z /\
    nins res = 0%Z.
Proof.
  eexists.
  split; [vm_compute; reflexivity|].
  split; [vm_compute; reflexivity|].
  split; [vm_compute; reflexivity|].
  repeat split; vm_compute; reflexivity.
Qed.

(** C7 fails on a protein of two chains: the second loop of the constructor
    reads the query row and the row of every hit in the alignment of the
    first hit, whatever chain a hit or the residue belongs to.  Chain B has
    a query without gap and a hit that holds G in column 1; its residue G
    gets [nins = 2], from the rows of chain A, whose query has a gap in
    column 2 and whose hit holds a lowered k in column 1, read once for each
    of the two hits. *)
Theorem ResidueHInfo_indels_of_another_chain :
  exists al1 hits1 res1 al2 hits2 res2 r qB hB,
    add_chain false ex_zero_matrix (fun x => x) ex_db ex_two_chains 0 ex_chain [] []
    = Ok (al1, hits1, res1)
    /\ add_chain false ex_zero_matrix (fun x => x) ex_db al1 1 ex_chain_B hits1 res1
       = Ok (al2, hits2, res2)
    /\ map (fun h => (chain h, msa h, ix h)) hits2
       = [ ("A"%char, 0, 1); ("B"%char, 1, 1) ]
    /\ nth_error res2 6 = Some (Residue r)
    /\ letter r = "G"%char /\ r_chain r = "B"%char /\ pos r = 1
    /\ nth_error al2 1 = Some [qB; hB]
    /\ next_is_gap (m_seq qB) 1 = false
    /\ nth 1 (m_seq hB) zero = "G"%char
    /\ nth_error al2 0 = Some (ex_marked "K")
    /\ next_is_gap (str "AG-C") 1 = true
    /\ hit_char (ex_marked "K") 1 (ex_hit "K") = "k"%char
    /\ nins r = 2%Z.
Proof.
  do 9 eexists.
  split; [vm_compute; reflexivity|].
  split; [vm_compute; reflexivity|].
  split; [reflexivity|]. split; [reflexivity|].
  repeat split.
Qed.

(** ** ReadStockholm: which inputs are refused *)

Lemma Str_eqb_eq (a b : Str.t) : Str.eqb a b = true <-> a = b.
Proof.
  unfold Str.eqb; destruct (list_eq_dec ascii_dec a b); split; congruence.
Qed.

Lemma Str_eqb_neq (a b : Str.t) : Str.eqb a b = false <-> a <> b.
Proof.
  unfold Str.eqb; destruct (list_eq_dec ascii_dec a b); split; congruence.
Qed.

Lemma Str_eqb_refl (a : Str.t) : Str.eqb a a = true.
Proof. now apply Str_eqb_eq. Qed.

Lemma Str_eqb_sym (a b : Str.t) : Str.eqb a b = Str.eqb b a.
Proof.
  destruct (Str.eqb a b) eqn:E.
  - apply Str_eqb_eq in E; subst. now rewrite Str_eqb_refl.
  - symmetry. apply Str_eqb_neq. apply Str_eqb_neq in E. congruence.
Qed.

Lemma ReadStockholm_parsed (ndebug : bool) [input : list Str.t] :
  ~ bad_marker input -> ~ bad_header input ->
  ReadStockholm ndebug input [] = bind (parsed ndebug input) finish.
Proof.
  unfold bad_marker, bad_header, ReadStockholm, parsed, finish.
  intros Hm Hh.
  destruct input as [|l1 [|l2 rest]]; cbn [getline fst snd] in *.
  - exfalso; apply Hm. discriminate.
  - exfalso. apply Hh.
    destruct (list_eq_dec ascii_dec l1 marker) as [->|N]; [reflexivity|contradiction].
  - destruct (Str.eqb l1 (str "# STOCKHOLM 1.0")) eqn:E1.
    2:{ exfalso. apply Hm. apply Str_eqb_neq in E1. exact E1. }
    cbn [negb].
    destruct (Str.starts_with l2 (str "#=GF ID ")) eqn:E2.
    2:{ exfalso. apply Hh. exact E2. }
    reflexivity.
Qed.


Lemma count_columns_returns (qseq sq : Str.t) :
  length qseq <= length sq ->
  forall i l, exists c, count_columns qseq sq i l = Ok c.
Proof.
  revert sq; induction qseq as [|qi qseq IH]; intros sq H i l; cbn [count_columns].
  - eexists; reflexivity.
  - destruct sq as [|si sq]; [cbn [length] in H; lia|].
    apply IH. cbn [length] in H. lia.
Qed.

Lemma count_columns_outcome (qseq sq : Str.t) :
  forall i l,
  (exists c, count_columns qseq sq i l = Ok c /\ length qseq <= length sq)
  \/ count_columns qseq sq i l = Undef.
Proof.
  revert sq; induction qseq as [|qi qseq IH]; intros sq i l; cbn [count_columns].
  - left. eexists. split; [reflexivity|cbn [length]; lia].
  - destruct sq as [|si sq]; [now right|].
    destruct (IH sq (if negb (is_gap qi) && Ascii.eqb qi si then u32 (i + 1) else i)
                 (if negb (is_gap qi) || negb (is_gap si) then u32 (l + 1) else l))
      as [(c & Hc & Hl)|Hu].
    + left. exists c. split; [exact Hc|cbn [length]; lia].
    + now right.
Qed.


Lemma hit_line_has_end (ndebug : bool) (id sq qseq : Str.t) (a : mseq) (ix : nat) :
  hit_line ndebug id sq qseq a ix <> Loops.
Proof.
  unfold hit_line, assert.
  destruct (ndebug || _); cbn [bind]; [|discriminate].
  destruct (nth_error _ _); [|discriminate].
  destruct (ndebug || _); cbn [bind]; [|discriminate].
  destruct (count_columns_outcome qseq sq (m_identical s) (m_length s))
    as [(c & -> & _)| ->]; cbn [bind]; discriminate.
Qed.


Section ReadLines.

Variable ndebug : bool.

(** *** One round of the loop *)



Lemma round_has_end (line : Str.t) (a : mseq) (ix : nat) (qseq : Str.t) :
  round ndebug line a ix qseq <> Loops.
Proof.
  unfold round.
  destruct (Str.starts_with line (str "#=GS ")).
  { destruct a; discriminate. }
  destruct (negb _); [|discriminate].
  destruct (Str.find_char " " line) as [s|]; [|discriminate].
  destruct a as [|q0 others]; [discriminate|].
  destruct (Str.eqb _ (m_id q0)); [discriminate|].
  destruct (hit_line ndebug _ _ qseq (q0 :: others) ix) as [[a1 ix1]| | | |] eqn:Eh;
    cbn [bind]; try discriminate.
  exfalso. eapply hit_line_has_end. eassumption.
Qed.




(** *** The rounds at the end of the stream *)


Lemma rounds_have_end (n : nat) (line : Str.t) :
  forall a ix qseq, rounds ndebug n line a ix qseq <> Loops.
Proof.
  induction n as [|n IH]; intros a ix qseq; cbn [rounds]; [discriminate|].
  destruct (round ndebug line a ix qseq) as [[[a1 i1] q1]| | | |] eqn:E;
    cbn [bind]; try discriminate.
  - apply IH.
  - exfalso. eapply round_has_end. eassumption.
Qed.


Lemma rounds_app (n k : nat) (line : Str.t) :
  forall a ix qseq,
  rounds ndebug (n + k) line a ix qseq
  = bind (rounds ndebug n line a ix qseq)
         (fun st => rounds ndebug k line (fst (fst st)) (snd (fst st)) (snd st)).
Proof.
  induction n as [|n IH]; intros a ix qseq; cbn [rounds Nat.add bind fst snd];
    [reflexivity|].
  destruct (round ndebug line a ix qseq) as [[[a1 i1] q1]| | | |]; cbn [bind];
    [apply IH|reflexivity..].
Qed.

Lemma steady_round (line : Str.t) (a : mseq) (ix : nat) (qseq : Str.t) :
  steady line a ix qseq ->
  exists a' ix' qseq',
    round ndebug line a ix qseq = Ok (a', ix', qseq') /\ steady line a' ix' qseq'.
Proof.
  unfold steady, round.
  destruct (Str.starts_with line (str "#=GS ")).
  { destruct a as [|front a]; [congruence|]. intros _.
    eexists. eexists. eexists. split; [reflexivity|].
    destruct (_ || _); discriminate. }
  destruct (Ascii.eqb (hd Ascii.zero line) "#"); cbn [negb].
  { intros _. exists a, ix, qseq. split; reflexivity. }
  destruct (Str.find_char " " line) as [s|]; [|contradiction].
  destruct a as [|front others]; [contradiction|].
  destruct (Str.eqb (Str.substr_to s line) (m_id front)) eqn:Eid.
  { intros _. eexists. eexists. eexists. split; [reflexivity|].
    cbn [append_seq m_id]. now rewrite Eid. }
  intros [Hlen Hq]. unfold hit_line.
  assert ((length (front :: others) <=? S ix) = true) as ->
    by (apply Nat.leb_le; lia).
  assert ((S ix <? length ((front :: others) ++ [new_seq (Str.substr_to s line)]))
          = true) as ->.
  { apply Nat.ltb_lt. rewrite length_app. cbn [length] in *. lia. }
  unfold assert at 1. rewrite orb_true_r. cbn [bind].
  assert (nth_error ((front :: others) ++ [new_seq (Str.substr_to s line)]) (S ix)
          = Some (new_seq (Str.substr_to s line))) as ->.
  { rewrite <- Hlen. apply nth_error_middle. }
  cbn [new_seq m_id m_identical m_length]. rewrite Str_eqb_refl.
  unfold assert. rewrite orb_true_r. cbn [bind].
  destruct (count_columns_returns qseq _ Hq 0%Z 0%Z) as (c & ->). cbn [bind].
  eexists. eexists. eexists. split; [reflexivity|].
  cbn [app update m_id]. rewrite Eid. split; [|exact Hq].
  cbn [length]. rewrite update_length, length_app. cbn [length] in *. lia.
Qed.

Lemma steady_rounds (line : Str.t) (n : nat) :
  forall a ix qseq, steady line a ix qseq ->
  exists a' ix' qseq',
    rounds ndebug n line a ix qseq = Ok (a', ix', qseq') /\ steady line a' ix' qseq'.
Proof.
  induction n as [|n IH]; intros a ix qseq H; cbn [rounds].
  - exists a, ix, qseq. split; [reflexivity|exact H].
  - destruct (steady_round line a ix qseq H) as (a1 & i1 & q1 & -> & H1).
    cbn [bind]. now apply IH.
Qed.

Lemma round_steady_or_next (line : Str.t) (a : mseq) (ix : nat) (qseq : Str.t)
    [a' : mseq] [ix' : nat] [qseq' : Str.t] :
  round ndebug line a ix qseq = Ok (a', ix', qseq') ->
  steady line a' ix' qseq'
  \/ (length a' = length a /\ ix' = S ix /\ ix' < length a).
Proof.
  unfold steady, round. intros H.
  destruct (Str.starts_with line (str "#=GS ")).
  { left. destruct a as [|front a]; [discriminate H|]. injection H as <- _ _.
    destruct (_ || _); discriminate. }
  destruct (Ascii.eqb (hd Ascii.zero line) "#"); cbn [negb] in *; [now left|].
  destruct (Str.find_char " " line) as [s|]; [|discriminate H].
  destruct a as [|front others]; [discriminate H|].
  destruct (Str.eqb (Str.substr_to s line) (m_id front)) eqn:Eid.
  { left. injection H as <- _ _. cbn [append_seq m_id]. now rewrite Eid. }
  destruct (hit_line ndebug _ _ qseq (front :: others) ix) as [[a2 ix2]| | | |] eqn:Eh;
    cbn [bind] in H; try discriminate H.
  injection H as <- <- <-.
  unfold hit_line in Eh.
  set (a0 := if length (front :: others) <=? S ix
             then (front :: others) ++ [new_seq (Str.substr_to s line)]
             else front :: others) in Eh.
  destruct (assert ndebug _); cbn [bind] in Eh; try discriminate Eh.
  destruct (nth_error a0 (S ix)) as [row|] eqn:En; [|discriminate Eh].
  destruct (assert ndebug _); cbn [bind] in Eh; try discriminate Eh.
  destruct (count_columns_outcome qseq
              (Str.drop_while (Ascii.eqb " ") (Str.substr_from s line))
              (m_identical row) (m_length row)) as [(c & Hc & Hq)|Hc];
    rewrite Hc in Eh; cbn [bind] in Eh; [|discriminate Eh].
  injection Eh as <- <-.
  assert (S ix < length a0) as Hlt by (apply nth_error_Some; congruence).
  assert (hd (new_seq []) a0 = front) as Hhd.
  { subst a0. destruct (_ <=? _); reflexivity. }
  subst a0. destruct (length (front :: others) <=? S ix) eqn:El.
  - left. apply Nat.leb_le in El. rewrite length_app in Hlt. cbn [length] in *.
    cbn [app update m_id]. rewrite Eid. split; [|exact Hq].
    cbn [length]. rewrite update_length, length_app. cbn [length]. lia.
  - right. apply Nat.leb_gt in El. cbn [length] in *. rewrite update_length.
    repeat split; auto.
Qed.

Lemma rounds_steady_or_next (line : Str.t) (n : nat) :
  forall a ix qseq a' ix' qseq',
  rounds ndebug (S n) line a ix qseq = Ok (a', ix', qseq') ->
  steady line a' ix' qseq'
  \/ (length a' = length a /\ ix' = ix + S n /\ ix' < length a).
Proof.
  induction n as [|n IH]; intros a ix qseq a' ix' qseq' H;
    cbn [rounds] in H;
    destruct (round ndebug line a ix qseq) as [[[a1 i1] q1]| | | |] eqn:E;
    cbn [bind] in H; try discriminate H.
  - injection H as <- <- <-.
    destruct (round_steady_or_next _ _ _ _ E) as [Hs|(H1 & H2 & H3)]; [now left|].
    right. repeat split; auto; lia.
  - destruct (round_steady_or_next _ _ _ _ E) as [Hs|(H1 & H2 & H3)].
    + left. destruct (steady_rounds line (S n) a1 i1 q1 Hs) as (a2 & i2 & q2 & E2 & Hs2).
      cbn [rounds] in E2. rewrite E2 in H. now injection H as <- <- <-.
    + destruct (IH a1 i1 q1 a' ix' qseq' H) as [Hs|(H4 & H5 & H6)]; [now left|].
      right. repeat split; lia.
Qed.

(** When the rounds that [at_end] runs all pass, every number of rounds
    does: the loop has no end. *)
Lemma rounds_never_fail (line : Str.t) (a : mseq) (ix : nat) (qseq : Str.t) :
  returns (rounds ndebug (S (length a)) line a ix qseq) ->
  forall n, returns (rounds ndebug n line a ix qseq).
Proof.
  intros [[[a' ix'] qseq'] H] n.
  assert (steady line a' ix' qseq') as Hs.
  { destruct (rounds_steady_or_next _ _ _ _ _ _ _ _ H) as [Hs|(H1 & H2 & H3)];
      [exact Hs|lia]. }
  destruct (Nat.le_gt_cases n (S (length a))) as [Hle|Hgt].
  - replace (S (length a)) with (n + (S (length a) - n)) in H by lia.
    rewrite rounds_app in H.
    destruct (rounds ndebug n line a ix qseq) as [st| | | |]; cbn [bind] in H;
      try discriminate H.
    eexists; reflexivity.
  - replace n with (S (length a) + (n - S (length a))) by lia.
    rewrite rounds_app, H. cbn [bind fst snd].
    destruct (steady_rounds line (n - S (length a)) a' ix' qseq' Hs)
      as (a2 & i2 & q2 & -> & _).
    eexists; reflexivity.
Qed.

(** *** The loop *)







End ReadLines.






Lemma starts_with_prefix (s p : Str.t) :
  Str.starts_with s p = true <-> exists b, s = p ++ b.
Proof.
  revert s; induction p as [|c p IH]; intros s.
  - split; [intros _; exists s; reflexivity|]. intros _. destruct s; reflexivity.
  - destruct s as [|d s]; simpl.
    + split; [discriminate|]. intros [b Hb]. discriminate Hb.
    + rewrite andb_true_iff, Ascii.eqb_eq, IH. split.
      * intros [-> [b ->]]. exists b. reflexivity.
      * intros [b Hb]. injection Hb as -> ->. split; [reflexivity|]. now exists b.
Qed.



Lemma names_not_both (qid : Str.t) [lines : list Str.t] :
  Forall (fun l => names_other qid l = false) lines ->
  Exists (fun l => names_other qid l = true) lines -> False.
Proof.
  intros HF HE. apply Exists_exists in HE. destruct HE as (l & Hin & Hl).
  rewrite Forall_forall in HF. rewrite (HF _ Hin) in Hl. discriminate.
Qed.









(** ** The threshold is applied after the count is checked *)

Lemma remove_below_filter (hits : mseq) :
  remove_below hits = filter (fun s => negb (below_threshold s)) hits.
Proof.
  induction hits as [|s hits IH]; simpl; [reflexivity|].
  destruct (below_threshold s); simpl; now rewrite IH.
Qed.

Lemma remove_below_all [hits : mseq] :
  Forall (fun s => below_threshold s = true) hits -> remove_below hits = [].
Proof.
  induction 1 as [|s hits Hs H IH]; simpl; [reflexivity|]. now rewrite Hs.
Qed.

(** C9: the count of sequences is checked on the alignment as the loop
    leaves it, before any hit is removed: when there is at least one hit and
    every hit is below its threshold the call returns the query alone, and
    when the loop leaves the query alone the call throws. *)
Theorem count_checked_before_threshold (ndebug : bool) [input : list Str.t] :
  ~ bad_marker input -> ~ bad_header input ->
  (forall q hits,
      parsed ndebug input = Ok (q :: hits) -> hits <> [] ->
      Forall (fun s => below_threshold s = true) hits ->
      ReadStockholm ndebug input [] = Ok [q])
  /\ (forall q,
      parsed ndebug input = Ok [q] ->
      ReadStockholm ndebug input [] = Throw "Insufficient sequences in Stockholm MSA").
Proof.
  intros Hm Hh. rewrite (ReadStockholm_parsed ndebug Hm Hh). split.
  - intros q hits Hp Hne Hall. rewrite Hp. cbn [bind]. unfold finish.
    destruct hits as [|h hits]; [congruence|].
    cbn [length Nat.ltb Nat.leb]. now rewrite (remove_below_all Hall).
  - intros q Hp. rewrite Hp. reflexivity.
Qed.

Lemma count_checked_before_threshold_witness :
  ReadStockholm false ex_all_below [] = Ok [mkseq (str "Q") (str "ACDEFGHIKL") 0 0]
  /\ ReadStockholm false ex_query_alone []
     = Throw "Insufficient sequences in Stockholm MSA".
Proof.
  split.
  - refine (proj1 (@count_checked_before_threshold false ex_all_below _ _)
              (mkseq (str "Q") (str "ACDEFGHIKL") 0 0)
              [mkseq (str "h/1-10") (str "WWWWWWWWWW") 0 10] _ _ _).
    + intros H; apply H; reflexivity.
    + intros H; discriminate H.
    + vm_compute; reflexivity.
    + discriminate.
    + repeat constructor.
  - refine (proj2 (@count_checked_before_threshold false ex_query_alone _ _)
              (mkseq (str "Q") (str "ACDEFGHIKL") 0 0) _).
    + intros H; apply H; reflexivity.
    + intros H; discriminate H.
    + vm_compute; reflexivity.
Defined.

(** ** ReadStockholm on an alignment written in blocks *)

Lemma find_char_app (c : ascii) (a b : Str.t) :
  Str.find_char c a = None ->
  Str.find_char c (a ++ c :: b) = Some (length a).
Proof.
  induction a as [|x a IH]; simpl.
  - now rewrite Ascii.eqb_refl.
  - destruct (Ascii.eqb x c); [discriminate|].
    destruct (Str.find_char c a); [discriminate|].
    intros _. now rewrite IH.
Qed.

Lemma find_char_none_neq (c : ascii) (a b : Str.t) :
  Str.find_char c a = None -> Str.find_char c b <> None -> a <> b.
Proof. congruence. Qed.

Lemma drop_spaces (n : nat) (c : Str.t) :
  no_lead c = true ->
  Str.drop_while (Ascii.eqb " ") (repeat " "%char n ++ c) = c.
Proof.
  intros H. induction n as [|n IH]; simpl; auto.
  destruct c as [|x c]; simpl in *; auto.
  apply negb_true_iff in H. now rewrite H.
Qed.

Lemma data_line_split (pad : nat) (id c : Str.t) :
  wf_id id -> no_lead c = true ->
  exists c0 l,
    data_line pad id c = c0 :: l
    /\ Ascii.eqb c0 "#" = false
    /\ Str.eqb (data_line pad id c) terminator = false
    /\ Str.starts_with (data_line pad id c) (str "#=GS ") = false
    /\ Str.find_char " " (data_line pad id c) = Some (length id)
    /\ Str.substr_to (length id) (data_line pad id c) = id
    /\ Str.drop_while (Ascii.eqb " ")
         (Str.substr_from (length id) (data_line pad id c)) = c.
Proof.
  intros [Hd Hn] Hc. unfold data_line.
  destruct id as [|c0 id]; [discriminate Hd|].
  cbn [is_data] in Hd. apply negb_true_iff in Hd.
  unfold no_space in Hn.
  destruct (Str.find_char " " (c0 :: id)) eqn:Ef; [discriminate Hn|].
  assert (Str.find_char " " ((c0 :: id) ++ repeat " "%char (S pad) ++ c)
          = Some (length (c0 :: id))) as Hf.
  { change (repeat " "%char (S pad) ++ c) with (" "%char :: repeat " "%char pad ++ c).
    now apply find_char_app. }
  exists c0, (id ++ repeat " "%char (S pad) ++ c).
  split; [reflexivity|]. split; [exact Hd|]. split; [|split; [|split; [|split]]].
  - apply Str_eqb_neq. intros E. rewrite E in Hf. discriminate Hf.
  - rewrite <- app_comm_cons. cbn [str list_ascii_of_string Str.starts_with].
    rewrite Ascii.eqb_sym, Hd. reflexivity.
  - exact Hf.
  - unfold Str.substr_to. rewrite firstn_app, Nat.sub_diag, firstn_all.
    cbn [firstn]. now rewrite app_nil_r.
  - unfold Str.substr_from. rewrite skipn_app, Nat.sub_diag, skipn_all.
    cbn [skipn app]. now apply drop_spaces.
Qed.

Section Lines.

Variable ndebug : bool.

Lemma read_query_line (pad : nat) (c : Str.t) (rest : list Str.t) (q : seq)
    (others : mseq) (ix : nat) (qseq line0 : Str.t) :
  wf_id (m_id q) -> no_lead c = true ->
  read_lines ndebug line0 (data_line pad (m_id q) c :: rest) (q :: others) ix qseq
  = read_lines ndebug (data_line pad (m_id q) c) rest (append_seq c q :: others) 0 c.
Proof.
  intros Hid Hc.
  destruct (data_line_split pad _ _ Hid Hc)
    as (c0 & l & E & H1 & H2 & H3 & H4 & H5 & H6).
  set (line := data_line pad (m_id q) c) in *. clearbody line. subst line.
  cbn [read_lines]. fold terminator. unfold round. cbn [hd].
  rewrite H2, H3, H1. cbn [negb]. rewrite H4, H5, H6.
  now rewrite Str_eqb_refl.
Qed.

Lemma read_hit_line (pad : nat) (id c : Str.t) (rest : list Str.t) (q : seq)
    (others : mseq) (ix : nat) (qseq line0 : Str.t) :
  wf_id id -> id <> m_id q -> no_lead c = true ->
  read_lines ndebug line0 (data_line pad id c :: rest) (q :: others) ix qseq
  = bind (hit_line ndebug id c qseq (q :: others) ix)
         (fun r => read_lines ndebug (data_line pad id c) rest (fst r) (snd r) qseq).
Proof.
  intros Hid Hne Hc.
  destruct (data_line_split pad _ _ Hid Hc)
    as (c0 & l & E & H1 & H2 & H3 & H4 & H5 & H6).
  set (line := data_line pad id c) in *. clearbody line. subst line.
  cbn [read_lines]. fold terminator. unfold round. cbn [hd].
  rewrite H2, H3, H1. cbn [negb]. rewrite H4, H5, H6.
  apply Str_eqb_neq in Hne. rewrite Hne.
  destruct (hit_line ndebug id c qseq (q :: others) ix) as [[a i]| | | |]; reflexivity.
Qed.

End Lines.

Lemma same_residue_code (qc sc : ascii) :
  negb (is_gap qc) && Ascii.eqb qc sc = same_residue qc sc.
Proof.
  unfold same_residue. destruct (Ascii.eqb qc sc) eqn:E.
  - apply Ascii.eqb_eq in E. subst. destruct (is_gap sc); reflexivity.
  - now rewrite !andb_false_r.
Qed.

Lemma count_columns_spec (qc c : Str.t) (i l : Z) :
  length qc <= length c ->
  count_columns qc c (u32 i) (u32 l)
  = Ok (u32 (i + count_cols same_residue qc c), u32 (l + count_cols compared qc c)).
Proof.
  revert c i l. induction qc as [|qi qc IH]; intros c i l H.
  - unfold count_cols, count. simpl. now rewrite !Z.add_0_r.
  - destruct c as [|si c]; [simpl in H; lia|].
    cbn [count_columns]. rewrite same_residue_code. fold (compared qi si).
    assert (forall (b : bool) (x : Z), (if b then u32 (u32 x + 1) else u32 x)
                                       = u32 (if b then x + 1 else x)) as Hb.
    { intros [|] x; [apply u32_succ | reflexivity]. }
    rewrite !Hb. rewrite IH by (simpl in H; lia).
    unfold count_cols, count. cbn [combine filter fst snd].
    f_equal. f_equal.
    + f_equal. destruct (same_residue qi si); cbn [length]; lia.
    + f_equal. destruct (compared qi si); cbn [length]; lia.
Qed.

Lemma combine_append {A B} (a1 a2 : list A) (b1 b2 : list B) :
  length a1 = length b1 ->
  combine (a1 ++ a2) (b1 ++ b2) = combine a1 b1 ++ combine a2 b2.
Proof.
  revert b1; induction a1 as [|x a1 IH]; intros [|y b1] H; simpl in *;
    try discriminate; auto.
  f_equal. apply IH. lia.
Qed.

Lemma count_cols_app (f : ascii -> ascii -> bool) (q1 q2 s1 s2 : Str.t) :
  length q1 = length s1 ->
  count_cols f (q1 ++ q2) (s1 ++ s2) = (count_cols f q1 s1 + count_cols f q2 s2)%Z.
Proof.
  intros H. unfold count_cols, count.
  rewrite combine_append by exact H.
  rewrite filter_app, length_app. lia.
Qed.

Section Blocks.

Variable ndebug : bool.
Variable pad : nat.

(** the query row before the block, and the residues of the query in it *)
Variables qprev qc : Str.t.

Lemma hit_row_step (id c rprev : Str.t) (q : seq) (pre post : mseq) :
  length qprev = length rprev -> length c = length qc ->
  hit_line ndebug id c qc (q :: pre ++ aligned_row qprev id rprev :: post) (length pre)
  = Ok (q :: pre ++ aligned_row (qprev ++ qc) id (rprev ++ c) :: post, S (length pre)).
Proof.
  intros Hr Hc. unfold hit_line.
  assert ((length (q :: pre ++ aligned_row qprev id rprev :: post) <=? S (length pre))
          = false) as ->.
  { apply Nat.leb_gt. simpl. rewrite length_app. simpl. lia. }
  assert ((S (length pre) <? length (q :: pre ++ aligned_row qprev id rprev :: post))
          = true) as ->.
  { apply Nat.ltb_lt. simpl. rewrite length_app. simpl. lia. }
  unfold assert at 1. rewrite orb_true_r. cbn [bind].
  cbn [nth_error]. rewrite nth_error_middle.
  cbn [aligned_row m_id]. rewrite Str_eqb_refl.
  unfold assert. rewrite orb_true_r. cbn [bind].
  unfold aligned_row at 1 2. cbn [m_identical m_length].
  rewrite count_columns_spec by lia. cbn [bind].
  cbn [update]. rewrite update_middle.
  unfold set_counts, append_seq, aligned_row; cbn [m_id m_seq m_identical m_length fst snd].
  now rewrite <- !count_cols_app by exact Hr.
Qed.

Lemma hit_lines_read (q : seq) (rest : list Str.t) :
  rest <> [] ->
  forall (ids cs rows : list Str.t) (pre tail : mseq) (line0 : Str.t),
  length cs = length ids -> length rows = length ids ->
  Forall (fun id => wf_id id /\ id <> m_id q) ids ->
  Forall (fun c => no_lead c = true /\ length c = length qc) cs ->
  Forall (fun r => length qprev = length r) rows ->
  tail = rows_state qprev ids rows
  \/ (tail = [] /\ rows_state qprev ids rows = map new_seq ids) ->
  read_lines ndebug line0 (hit_lines pad ids cs ++ rest) (q :: pre ++ tail)
             (length pre) qc
  = read_lines ndebug [] rest
      (q :: pre ++ rows_state (qprev ++ qc) ids (add_block rows cs))
      (length pre + length ids) qc.
Proof.
  intros Hrest.
  induction ids as [|id ids IH]; intros cs rows pre tail line0 Hcs Hrows Hids Hc Hr Ht.
  - destruct cs; [|discriminate]. destruct rows; [|discriminate].
    destruct rest as [|x rest]; [congruence|].
    simpl. rewrite Nat.add_0_r.
    destruct Ht as [->|[-> _]]; reflexivity.
  - destruct cs as [|c cs]; [discriminate|]. destruct rows as [|r rows]; [discriminate|].
    inversion Hids as [|? ? [Hid Hne] Hids']; subst.
    inversion Hc as [|? ? [Hlead Hlen] Hc']; subst.
    inversion Hr as [|? ? Hr0 Hr']; subst.
    cbn [hit_lines combine map app fst snd].
    rewrite read_hit_line by assumption.
    assert (hit_line ndebug id c qc (q :: pre ++ tail) (length pre)
            = Ok (q :: pre ++ aligned_row (qprev ++ qc) id (r ++ c)
                       :: match tail with [] => [] | _ :: t => t end,
                  S (length pre))) as ->.
    { destruct Ht as [->|[-> Ht]].
      - cbn [rows_state combine map fst snd]. now apply hit_row_step.
      - cbn [rows_state combine map fst snd] in Ht.
        pose proof (f_equal (hd (new_seq [])) Ht) as Hnew. cbn [hd] in Hnew.
        unfold hit_line.
        assert ((length (q :: pre ++ []) <=? S (length pre)) = true) as ->.
        { apply Nat.leb_le. simpl. rewrite app_nil_r. lia. }
        rewrite app_nil_r. change (q :: pre) with ([q] ++ pre). rewrite <- app_assoc.
        rewrite <- Hnew.
        change ([q] ++ pre ++ [aligned_row qprev id r])
          with (q :: pre ++ aligned_row qprev id r :: []).
        pose proof (hit_row_step id c r q pre [] Hr0 Hlen) as Hs.
        unfold hit_line in Hs.
        assert ((length (q :: pre ++ [aligned_row qprev id r]) <=? S (length pre))
                = false) as E.
        { apply Nat.leb_gt. simpl. rewrite length_app. simpl. lia. }
        rewrite E in Hs. exact Hs. }
    cbn [bind fst snd].
    replace (q :: pre ++ aligned_row (qprev ++ qc) id (r ++ c)
               :: match tail with [] => [] | _ :: t => t end)
      with (q :: (pre ++ [aligned_row (qprev ++ qc) id (r ++ c)])
              ++ match tail with [] => [] | _ :: t => t end)
      by (now rewrite <- app_assoc).
    replace (S (length pre)) with (length (pre ++ [aligned_row (qprev ++ qc) id (r ++ c)]))
      by (rewrite length_app; simpl; lia).
    rewrite (IH cs rows); try assumption; try (simpl in *; lia).
    + rewrite length_app. cbn [length add_block rows_state combine map fst snd].
      rewrite <- app_assoc. cbn [app].
      f_equal. lia.
    + destruct Ht as [->|[-> Ht]].
      * left. reflexivity.
      * right. split; [reflexivity|].
        cbn [rows_state combine map fst snd] in Ht.
        exact (f_equal (@tl seq) Ht).
Qed.

End Blocks.

Lemma add_block_length (rows cs : list Str.t) :
  length cs = length rows -> length (add_block rows cs) = length rows.
Proof.
  intros H. unfold add_block. rewrite length_map, length_combine. lia.
Qed.

Lemma add_block_widths (qprev qc : Str.t) (rows cs : list Str.t) :
  Forall (fun r => length qprev = length r) rows ->
  Forall (fun c => no_lead c = true /\ length c = length qc) cs ->
  Forall (fun r => length (qprev ++ qc) = length r) (add_block rows cs).
Proof.
  intros Hr; revert cs; induction Hr as [|r rows Hr0 Hr IH]; intros cs Hc.
  - constructor.
  - destruct cs as [|c cs]; [constructor|].
    inversion Hc as [|? ? [_ Hlen] Hc']; subst.
    cbn [add_block combine map fst snd]. constructor.
    + rewrite !length_app. lia.
    + now apply IH.
Qed.

Section Alignment.

Variable ndebug : bool.
Variable pad : nat.
Variable qid : Str.t.
Variable ids : list Str.t.
Hypothesis Hqid : wf_id qid.
Hypothesis Hids : Forall (fun id => wf_id id /\ id <> qid) ids.

Lemma block_lines_cons (b : Str.t * list Str.t) (bs : list (Str.t * list Str.t))
    (rest : list Str.t) :
  concat (map (block_lines pad qid ids) (b :: bs)) ++ rest
  = data_line pad qid (fst b)
      :: hit_lines pad ids (snd b) ++ concat (map (block_lines pad qid ids) bs) ++ rest.
Proof.
  cbn [map concat]. unfold block_lines at 1.
  rewrite <- app_assoc. reflexivity.
Qed.

Lemma blocks_read (junk : list Str.t) :
  forall (bs : list (Str.t * list Str.t)) (b : Str.t * list Str.t)
         (qprev : Str.t) (rows : list Str.t) (st : mseq) (ix : nat)
         (qseq line0 : Str.t),
  Forall (wf_block ids) (b :: bs) ->
  length rows = length ids ->
  Forall (fun r => length qprev = length r) rows ->
  st = rows_state qprev ids rows
  \/ (st = [] /\ rows_state qprev ids rows = map new_seq ids) ->
  read_lines ndebug line0
    (concat (map (block_lines pad qid ids) (b :: bs)) ++ terminator :: junk)
    (mkseq qid qprev 0 0 :: st) ix qseq
  = Ok (mkseq qid (qprev ++ qrow_of (b :: bs)) 0 0
        :: rows_state (qprev ++ qrow_of (b :: bs)) ids (rows_of rows (b :: bs))).
Proof.
  induction bs as [|b' bs IH];
    intros [qc cs] qprev rows st ix qseq line0 Hwf Hrows Hr Hst;
    inversion Hwf as [|? ? (Hlead & Hlen & Hcs) Hwf']; subst; cbn [fst snd] in *;
    rewrite block_lines_cons; cbn [fst snd];
    change (data_line pad qid qc) with (data_line pad (m_id (mkseq qid qprev 0 0)) qc);
    rewrite read_query_line by assumption;
    unfold append_seq; cbn [m_id m_seq m_identical m_length].
  - assert (terminator :: junk <> []) as Hne by discriminate.
    pose proof (hit_lines_read ndebug pad qprev qc (mkseq qid (qprev ++ qc) 0 0)
                  (terminator :: junk) Hne ids cs rows [] st
                  (data_line pad qid qc) Hlen Hrows Hids Hcs Hr Hst) as E.
    cbn [app length Nat.add map concat] in *. rewrite E.
    cbn [read_lines terminator str list_ascii_of_string]. rewrite Str_eqb_refl.
    unfold qrow_of; cbn [map concat fst rows_of snd app]. now rewrite app_nil_r.
  - assert (concat (map (block_lines pad qid ids) (b' :: bs)) ++ terminator :: junk <> [])
      as Hne by (intros E; apply app_eq_nil in E; destruct E; discriminate).
    pose proof (hit_lines_read ndebug pad qprev qc (mkseq qid (qprev ++ qc) 0 0)
                  (concat (map (block_lines pad qid ids) (b' :: bs)) ++ terminator :: junk)
                  Hne ids cs rows [] st (data_line pad qid qc)
                  Hlen Hrows Hids Hcs Hr Hst) as E.
    cbn [app length Nat.add] in E. rewrite E.
    rewrite (IH b' (qprev ++ qc) (add_block rows cs)); try assumption.
    + unfold qrow_of. cbn [map concat fst rows_of snd]. now rewrite <- !app_assoc.
    + rewrite add_block_length; lia.
    + now apply add_block_widths.
    + left. reflexivity.
Qed.

End Alignment.

Lemma starts_with_app (p s : Str.t) : Str.starts_with (p ++ s) p = true.
Proof.
  induction p as [|c p IH]; simpl.
  - destruct s; reflexivity.
  - now rewrite Ascii.eqb_refl, IH.
Qed.

Lemma rows_state_fresh (ids : list Str.t) :
  rows_state [] ids (map (fun _ => []) ids) = map new_seq ids.
Proof.
  unfold rows_state. induction ids as [|id ids IH]; [reflexivity|].
  cbn [map combine fst snd]. rewrite IH. reflexivity.
Qed.

Lemma rows_of_length (ids : list Str.t) (blocks : list (Str.t * list Str.t)) :
  Forall (wf_block ids) blocks ->
  forall rows, length rows = length ids -> length (rows_of rows blocks) = length ids.
Proof.
  induction 1 as [|b bs (_ & Hlen & _) _ IH]; intros rows Hrows; cbn [rows_of]; auto.
  apply IH. rewrite add_block_length; lia.
Qed.

Lemma rows_state_length (qrow : Str.t) (ids rows : list Str.t) :
  length rows = length ids -> length (rows_state qrow ids rows) = length ids.
Proof.
  intros H. unfold rows_state. rewrite length_map, length_combine. lia.
Qed.

Lemma threshold_index_bound (s : seq) : threshold_index s < 71.
Proof. unfold threshold_index. lia. Qed.

(** C1: on an alignment written in blocks (the line of the query, then one
    line for each hit, every line as wide as the query's), [ReadStockholm]
    leaves the query and, of the hits, exactly those that are not below the
    threshold.  Each hit carries [m_length], the number of columns in which
    the query or the hit is not a gap, and [m_identical], the number of
    columns in which neither is a gap and both are equal (both modulo 2^32);
    a hit is below the threshold when [m_identical / m_length], a single
    precision quotient, is less than entry [clamp(m_length, 10, 80) - 10] of
    the table of 71 thresholds.  With 14 identical columns of 45 the score
    is 14/45, the entry is entry 35, 0.391599, and the hit is removed. *)
Theorem ReadStockholm_homology_filter (ndebug : bool) (pad : nat)
    (hid qid : Str.t) (ids : list Str.t) (b : Str.t * list Str.t)
    (bs : list (Str.t * list Str.t)) (junk : list Str.t) :
  strip_iteration hid = qid ->
  wf_id qid ->
  Forall (fun id => wf_id id /\ id <> qid) ids ->
  ids <> [] ->
  Forall (wf_block ids) (b :: bs) ->
  let qrow := qrow_of (b :: bs) in
  let rows := rows_of (map (fun _ => []) ids) (b :: bs) in
  let hits := map (fun p => mkseq (fst p) (snd p)
                                  (u32 (count_cols same_residue qrow (snd p)))
                                  (u32 (count_cols compared qrow (snd p))))
                  (combine ids rows) in
  ReadStockholm ndebug
    (marker :: (header ++ hid)
       :: concat (map (block_lines pad qid ids) (b :: bs)) ++ terminator :: junk) []
  = Ok (mkseq qid qrow 0 0 :: filter (fun s => negb (below_threshold s)) hits)
  /\ (forall s,
        below_threshold s
        = SFltb (F64.of_f32 (F32.div (F32.of_Z (m_identical s)) (F32.of_Z (m_length s))))
                (nth (Z.to_nat (Z.max 10 (Z.min (m_length s) 80) - 10))
                     kHomologyThreshold S754_nan))
  /\ length kHomologyThreshold = 71
  /\ (forall s, threshold_index s < 71)
  /\ (forall id row,
        score (mkseq id row 14 45) = F32.lit 14 45
        /\ threshold_index (mkseq id row 14 45) = 35
        /\ nth 35 kHomologyThreshold S754_nan = F64.lit 391599 1000000
        /\ below_threshold (mkseq id row 14 45) = true).
Proof.
  intros Hhid Hqid Hids Hne Hwf qrow rows hits.
  split; [|split; [reflexivity|split; [reflexivity|split;
            [exact threshold_index_bound|]]]].
  - rewrite ReadStockholm_parsed.
    2:{ intros H. apply H. reflexivity. }
    2:{ unfold bad_header. cbn [getline fst snd].
        rewrite starts_with_app. discriminate. }
    unfold parsed. cbn [skipn nth]. unfold header_id.
    change (Str.substr_from 8 (header ++ hid)) with hid. rewrite Hhid.
    unfold new_seq.
    rewrite (blocks_read ndebug pad qid ids Hqid Hids junk bs b [] (map (fun _ => []) ids)
               [] 0 [] (header ++ hid)); try assumption.
    + cbn [bind app]. fold qrow. fold rows. unfold finish.
      assert (length (rows_state qrow ids rows) = length ids) as Hl.
      { apply rows_state_length. apply rows_of_length; [assumption|].
        now rewrite length_map. }
      destruct (rows_state qrow ids rows) as [|h hs] eqn:E.
      { destruct ids; [congruence|discriminate Hl]. }
      cbn [length Nat.ltb Nat.leb]. rewrite remove_below_filter.
      rewrite <- E. reflexivity.
    + now rewrite length_map.
    + apply Forall_forall. intros r Hr. apply in_map_iff in Hr.
      destruct Hr as (? & <- & _). reflexivity.
    + right. split; [reflexivity|]. apply rows_state_fresh.
  - intros id row. repeat split; vm_compute; reflexivity.
Qed.

Lemma ReadStockholm_homology_filter_witness :
  ReadStockholm false ex_two_blocks []
  = Ok [ mkseq (str "Q1") (str "ACDEFGHIKL") 0 0;
         mkseq (str "h1/1-9") (str "ACDE-GHIKL") 9 10 ].
Proof.
  refine (proj1 (ReadStockholm_homology_filter false 2 (str "Q1-i3") (str "Q1")
                   [str "h1/1-9"; str "h2/3-9"]
                   (str "ACDEF", [str "ACDE-"; str "WWWWW"])
                   [(str "GHIKL", [str "GHIKL"; str "WWWWW"])] [] _ _ _ _ _)).
  - reflexivity.
  - split; reflexivity.
  - repeat constructor; discriminate.
  - discriminate.
  - repeat constructor.
Defined.

(** ** CheckAlignmentForChain *)

Lemma find_Some (s p : Str.t) (n : nat) :
  Str.find s p = Some n -> exists a b, s = a ++ p ++ b /\ length a = n.
Proof.
  revert n; induction s as [|c s IH]; intros n.
  - destruct p as [|x p]; simpl; [|discriminate].
    intros [= <-]. exists [], []. split; reflexivity.
  - cbn [Str.find]. destruct (Str.starts_with (c :: s) p) eqn:E.
    + intros [= <-]. apply starts_with_prefix in E. destruct E as [b Hb].
      exists [], b. split; [exact Hb|reflexivity].
    + destruct (Str.find s p) as [k|]; [|discriminate].
      intros [= <-]. destruct (IH k eq_refl) as (a & b & -> & Ha).
      exists (c :: a), b. split; [reflexivity|]. simpl. now rewrite Ha.
Qed.

Lemma find_None (s p : Str.t) :
  Str.find s p = None -> forall a b, s <> a ++ p ++ b.
Proof.
  induction s as [|c s IH].
  - destruct p as [|x p]; simpl; [discriminate|].
    intros _ a b H. destruct a; discriminate H.
  - cbn [Str.find]. destruct (Str.starts_with (c :: s) p) eqn:E; [discriminate|].
    destruct (Str.find s p) eqn:Ef; [discriminate|].
    intros _ a b H. destruct a as [|x a].
    + simpl in H. assert (Str.starts_with (c :: s) p = true); [|congruence].
      apply starts_with_prefix. now exists b.
    + injection H as _ H. exact (IH eq_refl a b H).
Qed.

Lemma find_substring (sa sc : Str.t) :
  Str.find sa sc = None <-> ~ substring sc sa.
Proof.
  split.
  - intros H (a & b & E). exact (find_None sa sc H a b E).
  - intros H. destruct (Str.find sa sc) as [n|] eqn:E; [|reflexivity].
    exfalso. apply H. destruct (find_Some sa sc n E) as (a & b & Hs & _).
    now exists a, b.
Qed.

(** X23, the part of C4 that holds: [CheckAlignmentForChain] throws when the
    chain's sequence does not occur in the query without its gaps, and when
    that query is shorter than the chain's sequence *)
Lemma CheckAlignmentForChain_throws (front : seq) (rest : mseq) (sc : Str.t) :
  ~ substring sc (strip_gaps (m_seq front))
  \/ length (strip_gaps (m_seq front)) < length sc ->
  throws (CheckAlignmentForChain (front :: rest) sc).
Proof.
  intros H. unfold CheckAlignmentForChain.
  destruct (Str.eqb (strip_gaps (m_seq front)) sc) eqn:E.
  { apply Str_eqb_eq in E. exfalso. destruct H as [H|H].
    - apply H. exists [], []. rewrite app_nil_r. exact E.
    - rewrite E in H. lia. }
  destruct (length (strip_gaps (m_seq front)) <? length sc) eqn:El.
  { eexists; reflexivity. }
  apply Nat.ltb_ge in El. destruct H as [H|H]; [|lia].
  apply find_substring in H. rewrite H. eexists; reflexivity.
Qed.

(** X24: when the query row has no gap and fewer than 2^32 columns, a normal
    return of [CheckAlignmentForChain] leaves the chain's sequence as the
    query row *)
Lemma CheckAlignmentForChain_without_gaps (front : seq) (rest : mseq) (sc : Str.t)
    (a : mseq) :
  strip_gaps (m_seq front) = m_seq front ->
  (Z.of_nat (length (m_seq front)) < 2 ^ 32)%Z ->
  CheckAlignmentForChain (front :: rest) sc = Ok a ->
  exists q, nth_error a 0 = Some q /\ m_seq q = sc.
Proof.
  intros Hg Hlen H. unfold CheckAlignmentForChain in H. rewrite Hg in H.
  destruct (Str.eqb (m_seq front) sc) eqn:E.
  { apply Str_eqb_eq in E. injection H as <-. now exists front. }
  destruct (length (m_seq front) <? length sc); [discriminate H|].
  destruct (Str.find (m_seq front) sc) as [offset|] eqn:Ef; [|discriminate H].
  destruct (find_Some _ _ _ Ef) as (x & y & Hs & Hx).
  set (msa1 := if 0 <? offset then map (erase_front offset) (front :: rest)
               else front :: rest) in H.
  assert (exists q1 rest1, msa1 = q1 :: rest1 /\ m_seq q1 = sc ++ y) as (q1 & r1 & E1 & Hq1).
  { subst msa1. destruct (0 <? offset) eqn:Eo.
    - eexists. eexists. split; [reflexivity|]. cbn [erase_front m_seq].
      rewrite Hs, <- Hx. rewrite skipn_app, skipn_all, Nat.sub_diag. reflexivity.
    - apply Nat.ltb_ge in Eo. destruct x as [|c x]; [|cbn [length] in Hx; lia].
      exists front, rest. split; [reflexivity|exact Hs]. }
  rewrite E1 in H. clear msa1 E1.
  assert (length (m_seq front) = offset + length sc + length y) as Hl.
  { rewrite Hs, !length_app. lia. }
  destruct (length sc + offset <? length (m_seq front)) eqn:Ec.
  - cbn [map_outcome] in H.
    replace (Z.to_nat (u32 (Z.of_nat (length (m_seq front) - (length sc + offset)))))
      with (length y) in H
      by (rewrite u32_small by lia; lia).
    unfold erase_back at 1 in H. rewrite Hq1, length_app in H.
    replace (length y <=? length sc + length y) with true in H
      by (symmetry; apply Nat.leb_le; lia).
    cbn [bind] in H.
    destruct (map_outcome (erase_back (length y)) r1) as [r| | | |]; cbn [bind] in H;
      try discriminate H.
    injection H as <-. eexists. split; [reflexivity|]. cbn [m_seq].
    replace (length sc + length y - length y) with (length sc) by lia.
    rewrite firstn_app, firstn_all, Nat.sub_diag. cbn [firstn]. apply app_nil_r.
  - apply Nat.ltb_ge in Ec. injection H as <-.
    exists q1. split; [reflexivity|]. rewrite Hq1.
    destruct y; [apply app_nil_r|cbn [length] in Hl; lia].
Qed.

(** C4 fails there: the reference [CD] starts 2 residues into the query
    [ABCD], the call cuts 2 columns, one of them a gap, and returns with a
    query that reads [BCD]. *)
Theorem CheckAlignmentForChain_cuts_columns_not_residues :
  exists a q,
    CheckAlignmentForChain ex_gapped_query (str "CD") = Ok a
    /\ nth_error a 0 = Some q
    /\ m_seq q = str "BCD"
    /\ strip_gaps (m_seq q) <> str "CD".
Proof.
  eexists. eexists.
  split; [vm_compute; reflexivity|].
  split; [reflexivity|].
  split; [reflexivity|]. discriminate.
Qed.

(** ** The counters of a Hit *)

Lemma gap_equiv_refl (s : Str.t) : gap_equiv s s.
Proof. induction s; constructor; auto. Qed.

Lemma gap_equiv_set (s s0 : Str.t) (g : nat) (c c' : ascii) :
  gap_equiv s s0 -> nth_error s g = Some c -> is_gap c' = is_gap c ->
  gap_equiv (set_char g c' s) s0.
Proof.
  intros H; revert g; induction H as [|a b s s0 Hab H IH]; intros [|g] Hg Hc;
    simpl in *; try discriminate.
  - injection Hg as ->. constructor; [congruence|exact H].
  - constructor; [exact Hab|]. now apply IH.
Qed.

Lemma gap_equiv_nth (s s0 : Str.t) (i : nat) (c : ascii) :
  gap_equiv s s0 -> nth_error s i = Some c -> is_gap (nth i s0 zero) = is_gap c.
Proof.
  intros H; revert i; induction H as [|a b s s0 Hab H IH]; intros [|i] Hi;
    simpl in *; try discriminate.
  - injection Hi as ->. now symmetry.
  - now apply IH.
Qed.

Lemma common_gaps_bounds (q s : Str.t) (i n : nat) :
  (0 <= common_gaps q s i n <= Z.of_nat n)%Z.
Proof.
  revert i; induction n as [|n IH]; intros i; cbn [common_gaps]; [lia|].
  specialize (IH (S i)). destruct (_ && _); lia.
Qed.

Section Counters.

Variable ndebug : bool.
Variable m : ascii -> ascii -> Z.
Variables q s0 : Str.t.

Lemma char_at_Ok (s : Str.t) (i : nat) (c : ascii) :
  char_at s i = Ok c -> nth_error s i = Some c.
Proof. unfold char_at. destruct (nth_error s i); congruence. Qed.

Lemma walk_step_counters (sb i n : nat) (qi : ascii) (w w' : walk) :
  char_at q i = Ok qi ->
  walk_step ndebug m sb i qi w = Ok w' ->
  gap_equiv (w_s w) s0 ->
  counters_ok (S n) w ->
  counters_ok n w'
  /\ gap_equiv (w_s w') s0
  /\ w_lali w'
     = (w_lali w - if is_gap (nth i s0 zero) && is_gap (nth i q zero) then 1 else 0)%Z.
Proof.
  intros Hq Hstep Hg (Hid & Hsm & Hl).
  apply char_at_Ok in Hq. rewrite (nth_error_nth _ _ zero Hq).
  unfold walk_step in Hstep.
  destruct (char_at (w_s w) i) as [si| | | |] eqn:Esi; cbn [bind] in Hstep;
    try discriminate Hstep.
  apply char_at_Ok in Esi. rewrite (gap_equiv_nth _ _ _ _ Hg Esi).
  unfold counters_ok.
  destruct (is_gap si) eqn:Gs; destruct (is_gap qi) eqn:Gq; cbn [andb] in Hstep |- *.
  - injection Hstep as <-. cbn [w_s w_lali w_identical w_similar].
    rewrite u32_small by lia. repeat split; auto; lia.
  - injection Hstep as <-. cbn [w_s w_lali w_identical w_similar].
    repeat split; auto; lia.
  - match type of Hstep with
    | bind ?x _ = _ => destruct x as [[s' ins']| | | |] eqn:E
    end; cbn [bind] in Hstep; try discriminate Hstep.
    injection Hstep as <-. cbn [w_s w_lali w_identical w_similar].
    assert (gap_equiv s' s0) as Hg'.
    { destruct (w_qgap w); cbn [negb] in E.
      - injection E as <- _. exact Hg.
      - destruct (assert ndebug _); cbn [bind] in E; try discriminate E.
        destruct i as [|j]; [discriminate E|].
        destruct (find_anchor (w_s w) sb j) as [g| | | |]; cbn [bind] in E;
          try discriminate E.
        destruct (char_at (w_s w) g) as [c| | | |] eqn:Ec; cbn [bind] in E;
          try discriminate E.
        injection E as <- _. apply char_at_Ok in Ec.
        eapply gap_equiv_set; eauto. apply is_gap_tolower. }
    repeat split; auto; lia.
  - injection Hstep as <-. cbn [w_s w_lali w_identical w_similar].
    assert (gap_equiv (if w_qgap w
                       then set_char i (if w_qgap w then Str.tolower si else si) (w_s w)
                       else w_s w) s0) as Hg'.
    { destruct (w_qgap w); [|exact Hg].
      eapply gap_equiv_set; eauto. apply is_gap_tolower. }
    split; [|split; [exact Hg'|lia]].
    destruct (Ascii.eqb qi _).
    + rewrite !u32_small by lia. repeat split; lia.
    + destruct (0 <? m qi _)%Z; [rewrite !u32_small by lia|]; repeat split; lia.
Qed.

Lemma walk_loop_counters (sb : nat) :
  forall (n i : nat) (w w' : walk),
  walk_loop ndebug m q sb n i w = Ok w' ->
  gap_equiv (w_s w) s0 ->
  counters_ok n w ->
  counters_ok 0 w'
  /\ gap_equiv (w_s w') s0
  /\ w_lali w' = (w_lali w - common_gaps q s0 i n)%Z.
Proof.
  induction n as [|n IH]; intros i w w' H Hg Hc.
  - injection H as <-. cbn [common_gaps].
    split; [exact Hc|]. split; [exact Hg|lia].
  - cbn [walk_loop] in H.
    destruct (char_at q i) as [qi| | | |] eqn:Eq; cbn [bind] in H; try discriminate H.
    destruct (walk_step ndebug m sb i qi w) as [w1| | | |] eqn:Es; cbn [bind] in H;
      try discriminate H.
    destruct (walk_step_counters sb i n qi w w1 Eq Es Hg Hc) as (Hc1 & Hg1 & Hl1).
    destruct (IH (S i) w1 w' H Hg1 Hc1) as (Hc' & Hg' & Hl').
    split; [exact Hc'|]. split; [exact Hg'|]. cbn [common_gaps]. lia.
Qed.

End Counters.

Lemma blank_length (k : nat) (s : Str.t) : length (blank k s) = length s.
Proof.
  revert s; induction k as [|k IH]; intros [|c s]; simpl; auto.
Qed.

Lemma blank_nth (k i : nat) (s : Str.t) (d : ascii) :
  k <= i -> nth i (blank k s) d = nth i s d.
Proof.
  revert i s; induction k as [|k IH]; intros i s H.
  - destruct s; reflexivity.
  - destruct s as [|c s]; [reflexivity|].
    destruct i as [|i]; [lia|]. simpl. apply IH. lia.
Qed.

Lemma blank_back_length (t : nat) (s : Str.t) : length (blank_back t s) = length s.
Proof. unfold blank_back. now rewrite length_rev, blank_length, length_rev. Qed.

Lemma blank_back_nth (t i : nat) (s : Str.t) (d : ascii) :
  i + t < length s -> nth i (blank_back t s) d = nth i s d.
Proof.
  intros H. unfold blank_back.
  rewrite rev_nth by (rewrite blank_length, length_rev; lia).
  rewrite blank_length, length_rev.
  rewrite blank_nth by lia.
  rewrite rev_nth by lia.
  f_equal. lia.
Qed.

Lemma common_gaps_blanked (q s : Str.t) (k t : nat) :
  forall n i, k <= i -> i + n + t <= length s ->
  common_gaps q (blank_back t (blank k s)) i n = common_gaps q s i n.
Proof.
  induction n as [|n IH]; intros i Hk Hn; cbn [common_gaps]; [reflexivity|].
  rewrite blank_back_nth by (rewrite blank_length; lia).
  rewrite blank_nth by lia.
  rewrite IH by lia. reflexivity.
Qed.

(** the part of C2 that holds, and what [lali] is: for every hit that
    [Hit::Hit] builds from rows shorter than 2^32 columns,
    [identical <= similar <= lali], and [lali] is the whole width of the
    alignment less the common gaps among the columns left by the trimming
    ([k] columns cut at the front, [t] at the back) *)
Lemma Hit_new_counters (ndebug : bool) (m : ascii -> ascii -> Z) (href : nat)
    (msa0 : mseq) (ch : ascii) (qix six : nat) (h : Hit) (msa' : mseq)
    (qs ss : seq) :
  nth_error msa0 qix = Some qs ->
  nth_error msa0 six = Some ss ->
  (Z.of_nat (length (m_seq ss)) < 2 ^ 32)%Z ->
  Hit_new ndebug m href msa0 ch qix six = Ok (h, msa') ->
  exists k t,
    trim_front (m_seq qs) (m_seq ss) = Ok k
    /\ trim_back (length (m_seq qs) - k) (rev (blank k (m_seq ss))) = Ok t
    /\ (0 <= identical h <= similar h)%Z
    /\ (similar h <= lali h)%Z
    /\ lali h = (Z.of_nat (length (m_seq ss))
                 - common_gaps (m_seq qs) (m_seq ss) k (length (m_seq ss) - t - k))%Z.
Proof.
  intros Hq Hs Hlen H. unfold Hit_new, vec_at in H. rewrite Hq, Hs in H.
  cbn [bind] in H.
  destruct (negb (nonempty (m_seq qs)) || negb (nonempty (m_seq ss)));
    [discriminate H|].
  destruct (char_at (m_seq qs) 0); cbn [bind] in H; try discriminate H.
  destruct (char_at (m_seq qs) (length (m_seq qs) - 1)); cbn [bind] in H;
    try discriminate H.
  destruct (is_gap _ || is_gap _); [discriminate H|].
  destruct (assert ndebug _); cbn [bind] in H; try discriminate H.
  destruct (parse_hit_id (m_id ss)) as [[[name d1] d2]|]; [|discriminate H].
  destruct (lexical_cast_uint32 d1) as [jf| | | |]; cbn [bind] in H; try discriminate H.
  destruct (lexical_cast_uint32 d2) as [jl| | | |]; cbn [bind] in H; try discriminate H.
  destruct (trim_front (m_seq qs) (m_seq ss)) as [k| | | |] eqn:Ek; cbn [bind] in H;
    try discriminate H.
  destruct (trim_back (length (m_seq qs) - k) (rev (blank k (m_seq ss))))
    as [t| | | |] eqn:Et; cbn [bind] in H; try discriminate H.
  match type of H with
  | bind (walk_loop ?nd ?mm ?qq ?sb ?n ?i ?w0) _ = _ =>
      destruct (walk_loop nd mm qq sb n i w0) as [w| | | |] eqn:Ew;
      cbn [bind] in H; try discriminate H;
      pose proof (walk_loop_counters nd mm qq
                    (blank_back t (blank k (m_seq ss))) sb n i w0 w Ew) as Hw
  end.
  cbn [w_s] in Hw.
  destruct Hw as ((Hid & Hsm & _) & _ & Hl).
  { apply gap_equiv_refl. }
  { unfold counters_ok. cbn [w_identical w_similar w_lali].
    rewrite u32_small by lia. lia. }
  cbn [w_lali] in Hl. rewrite u32_small in Hl by lia.
  injection H as <- _. cbn [identical similar lali].
  exists k, t. split; [reflexivity|]. split; [exact Et|].
  split; [exact Hid|]. split; [lia|].
  rewrite Hl. f_equal.
  destruct (length (m_seq ss) - t - k) as [|n] eqn:En; [reflexivity|].
  apply common_gaps_blanked; lia.
Qed.

(** ** The identity of a hit is a number *)

Section Binary32.

Local Open Scope Z_scope.

Lemma digits2_bounds (p : positive) :
  2 ^ (Z.pos (digits2_pos p) - 1) <= Z.pos p < 2 ^ Z.pos (digits2_pos p).
Proof.
  induction p as [p IH|p IH|]; cbn [digits2_pos].
  - rewrite Pos2Z.inj_succ, (Pos2Z.inj_xI p).
    replace (Z.succ (Z.pos (digits2_pos p)) - 1) with (Z.succ (Z.pos (digits2_pos p) - 1)) by lia.
    rewrite !Z.pow_succ_r by lia. lia.
  - rewrite Pos2Z.inj_succ, (Pos2Z.inj_xO p).
    replace (Z.succ (Z.pos (digits2_pos p)) - 1) with (Z.succ (Z.pos (digits2_pos p) - 1)) by lia.
    rewrite !Z.pow_succ_r by lia. lia.
  - cbv. split; [discriminate|reflexivity].
Qed.

Lemma Zdigits2_bounds (m : Z) :
  0 < m -> 0 < Zdigits2 m /\ 2 ^ (Zdigits2 m - 1) <= m < 2 ^ Zdigits2 m.
Proof.
  destruct m as [|p|p]; try lia. intros _. cbn [Zdigits2].
  split; [lia|apply digits2_bounds].
Qed.

Lemma Zdigits2_gt (m k : Z) : 0 <= k -> 2 ^ k <= m -> k < Zdigits2 m.
Proof.
  intros Hk Hm.
  assert (0 < m) as Hp by (pose proof (Z.pow_pos_nonneg 2 k); lia).
  destruct (Zdigits2_bounds m Hp) as (Hd & _ & Hu).
  apply (Z.pow_lt_mono_r_iff 2); lia.
Qed.

Lemma Zdigits2_le (m k : Z) : 0 < m < 2 ^ k -> Zdigits2 m <= k.
Proof.
  intros [Hp Hm].
  destruct (Zdigits2_bounds m Hp) as (Hd & Hl & _).
  assert (0 <= k) as Hk.
  { destruct (Z.ltb_spec k 0) as [H|H]; [|exact H].
    rewrite Z.pow_neg_r in Hm by exact H. lia. }
  assert (Zdigits2 m - 1 < k); [|lia].
  apply (Z.pow_lt_mono_r_iff 2); lia.
Qed.

Lemma shr_1_m (mrs : shr_record) :
  0 <= shr_m mrs -> shr_m (shr_1 mrs) = shr_m mrs / 2.
Proof.
  destruct mrs as [m r s]. cbn [shr_m shr_1].
  destruct m as [|[p|p|]|p]; cbn [shr_m]; intros H; try lia.
  - reflexivity.
  - rewrite (Pos2Z.inj_xI p). Z.div_mod_to_equations. lia.
  - rewrite (Pos2Z.inj_xO p). Z.div_mod_to_equations. lia.
  - reflexivity.
Qed.

Lemma iter_shr_m (n : positive) (mrs : shr_record) :
  0 <= shr_m mrs -> shr_m (iter_pos shr_1 n mrs) = shr_m mrs / 2 ^ Z.pos n.
Proof.
  revert mrs; induction n as [n IH|n IH|]; intros mrs H; cbn [iter_pos].
  - assert (0 < 2 ^ Z.pos n) as Hp by (apply Z.pow_pos_nonneg; lia).
    assert (0 <= shr_m (shr_1 mrs)) as H1.
    { rewrite shr_1_m by exact H. apply Z.div_pos; lia. }
    assert (0 <= shr_m (iter_pos shr_1 n (shr_1 mrs))) as H2.
    { rewrite IH by exact H1. apply Z.div_pos; [exact H1|exact Hp]. }
    rewrite IH by exact H2. rewrite IH by exact H1. rewrite shr_1_m by exact H.
    rewrite !Z.div_div by lia. f_equal.
    replace (Z.pos n~1) with (1 + Z.pos n + Z.pos n) by lia.
    rewrite !Z.pow_add_r by lia. change (2 ^ 1) with 2. lia.
  - assert (0 < 2 ^ Z.pos n) as Hp by (apply Z.pow_pos_nonneg; lia).
    assert (0 <= shr_m (iter_pos shr_1 n mrs)) as H2.
    { rewrite IH by exact H. apply Z.div_pos; [exact H|exact Hp]. }
    rewrite IH by exact H2. rewrite IH by exact H.
    rewrite !Z.div_div by lia. f_equal.
    replace (Z.pos n~0) with (Z.pos n + Z.pos n) by lia.
    rewrite !Z.pow_add_r by lia. reflexivity.
  - rewrite shr_1_m by exact H. reflexivity.
Qed.

Lemma shr_spec (mrs : shr_record) (e n : Z) :
  0 <= shr_m mrs ->
  shr_m (fst (shr mrs e n)) = shr_m mrs / 2 ^ Z.max n 0
  /\ snd (shr mrs e n) = e + Z.max n 0.
Proof.
  intros H. destruct n as [|n|n]; cbn [shr fst snd].
  - change (2 ^ Z.max 0 0) with 1. rewrite Z.div_1_r. split; [reflexivity|lia].
  - rewrite iter_shr_m by exact H. rewrite Z.max_l by lia. split; reflexivity.
  - rewrite Z.max_r by lia. change (2 ^ 0) with 1. rewrite Z.div_1_r.
    split; [reflexivity|lia].
Qed.

Lemma round_nearest_even_bounds (m : Z) (l : location) :
  m <= round_nearest_even m l <= m + 1.
Proof.
  unfold round_nearest_even.
  destruct l as [|[ | | ]]; try lia. destruct (Z.even m); lia.
Qed.

Lemma shr_record_of_loc_m (m : Z) (l : location) : shr_m (shr_record_of_loc m l) = m.
Proof. destruct l as [|[ | | ]]; reflexivity. Qed.

(** the two shifts of [binary_round_aux], with what they leave *)
Lemma binary_round_aux_shifts (prec emax : Z) (sx : bool) (mx ex : Z) (lx : location) :
  0 <= mx ->
  exists m1 e1 m2 m3 e3,
    m1 = mx / 2 ^ Z.max (fexp prec emax (Zdigits2 mx + ex) - ex) 0
    /\ e1 = ex + Z.max (fexp prec emax (Zdigits2 mx + ex) - ex) 0
    /\ m1 <= m2 <= m1 + 1
    /\ m3 = m2 / 2 ^ Z.max (fexp prec emax (Zdigits2 m2 + e1) - e1) 0
    /\ e3 = e1 + Z.max (fexp prec emax (Zdigits2 m2 + e1) - e1) 0
    /\ binary_round_aux prec emax sx mx ex lx
       = match m3 with
         | 0 => S754_zero sx
         | Z.pos m => if e3 <=? emax - prec then S754_finite sx m e3
                      else S754_infinity sx
         | Z.neg _ => S754_nan
         end.
Proof.
  intros H. unfold binary_round_aux, shr_fexp.
  pose proof (shr_spec (shr_record_of_loc mx lx) ex
                (fexp prec emax (Zdigits2 mx + ex) - ex)) as S1.
  rewrite shr_record_of_loc_m in S1. specialize (S1 H).
  destruct (shr (shr_record_of_loc mx lx) ex _) as [mrs1 e1]. cbn [fst snd] in S1.
  destruct S1 as [Hm1 He1].
  set (m2 := round_nearest_even (shr_m mrs1) (loc_of_shr_record mrs1)).
  pose proof (round_nearest_even_bounds (shr_m mrs1) (loc_of_shr_record mrs1)) as Hr.
  fold m2 in Hr.
  assert (0 <= shr_m mrs1) as H1.
  { rewrite Hm1. apply Z.div_pos; [exact H|]. apply Z.pow_pos_nonneg; lia. }
  pose proof (shr_spec (shr_record_of_loc m2 loc_Exact) e1
                (fexp prec emax (Zdigits2 m2 + e1) - e1)) as S2.
  rewrite shr_record_of_loc_m in S2. specialize (S2 ltac:(lia)).
  destruct (shr (shr_record_of_loc m2 loc_Exact) e1 _) as [mrs3 e3]. cbn [fst snd] in S2.
  destruct S2 as [Hm3 He3].
  exists (shr_m mrs1), e1, m2, (shr_m mrs3), e3.
  repeat split; try assumption; lia.
Qed.

Lemma binary_round_aux_not_nan (prec emax : Z) (sx : bool) (mx ex : Z) (lx : location) :
  0 <= mx -> is_nan (binary_round_aux prec emax sx mx ex lx) = false.
Proof.
  intros H.
  destruct (binary_round_aux_shifts prec emax sx mx ex lx H)
    as (m1 & e1 & m2 & m3 & e3 & H1 & _ & H2 & H3 & _ & ->).
  assert (0 <= m1) as P1.
  { rewrite H1. apply Z.div_pos; [exact H|]. apply Z.pow_pos_nonneg; lia. }
  assert (0 <= m3) as P3.
  { rewrite H3. apply Z.div_pos; [lia|]. apply Z.pow_pos_nonneg; lia. }
  destruct m3 as [|p|p]; [reflexivity| |lia].
  destruct (e3 <=? emax - prec); reflexivity.
Qed.

Lemma pow2_pos (k : Z) : 0 <= k -> 0 < 2 ^ k.
Proof. intros H. apply Z.pow_pos_nonneg; lia. Qed.

(** dividing a number of [d] digits by [2 ^ k] leaves [d - k] digits *)
Lemma div_pow2_bounds (m d k : Z) :
  0 <= k < d -> 2 ^ (d - 1) <= m < 2 ^ d ->
  2 ^ (d - 1 - k) <= m / 2 ^ k < 2 ^ (d - k).
Proof.
  intros Hk [Hl Hu]. pose proof (pow2_pos k ltac:(lia)) as Hp. split.
  - apply Z.div_le_lower_bound; [exact Hp|].
    rewrite <- Z.pow_add_r by lia. replace (k + (d - 1 - k)) with (d - 1) by lia.
    exact Hl.
  - apply Z.div_lt_upper_bound; [exact Hp|].
    rewrite <- Z.pow_add_r by lia. replace (k + (d - k)) with d by lia. exact Hu.
Qed.

Lemma binary32_round_finite (sx : bool) (mx ex : Z) (lx : location) :
  0 < mx ->
  -149 <= Zdigits2 mx + ex - 24 ->
  Z.max ex (ex + Zdigits2 mx - 24) + 1 <= 104 ->
  exists m e, binary_round_aux 24 128 sx mx ex lx = S754_finite sx m e.
Proof.
  intros Hm Hlo Hhi.
  destruct (binary_round_aux_shifts 24 128 sx mx ex lx ltac:(lia))
    as (m1 & e1 & m2 & m3 & e3 & H1 & He1 & H2 & H3 & He3 & ->).
  destruct (Zdigits2_bounds mx Hm) as (Hd & Hb).
  set (d := Zdigits2 mx) in *.
  assert (fexp 24 128 (d + ex) - ex = d - 24) as F1 by (unfold fexp, emin; lia).
  rewrite F1 in H1, He1.
  assert (0 < m1 < 2 ^ 24 /\ -149 <= Zdigits2 m1 + e1 - 24 /\ e1 + 1 <= 104)
    as (P1 & Q1 & R1).
  { destruct (Z.le_gt_cases d 24) as [C|C].
    - rewrite Z.max_r in H1, He1 by lia. change (2 ^ 0) with 1 in H1.
      rewrite Z.div_1_r in H1. subst m1.
      split; [split; [lia|]|fold d; lia].
      eapply Z.lt_le_trans; [apply Hb|]. apply Z.pow_le_mono_r; lia.
    - rewrite Z.max_l in H1, He1 by lia.
      pose proof (div_pow2_bounds mx d (d - 24) ltac:(lia) Hb) as B.
      rewrite <- H1 in B.
      replace (d - 1 - (d - 24)) with 23 in B by lia.
      replace (d - (d - 24)) with 24 in B by lia.
      pose proof (Zdigits2_gt m1 23 ltac:(lia) (proj1 B)) as G.
      pose proof (pow2_pos 23 ltac:(lia)).
      split; [lia|lia]. }
  assert (0 < m2) as P2 by lia.
  destruct (Zdigits2_bounds m2 P2) as (Hd2 & Hb2).
  destruct (Zdigits2_bounds m1 (proj1 P1)) as (Hd1 & Hb1).
  assert (Zdigits2 m1 <= Zdigits2 m2) as Mono.
  { assert (Zdigits2 m1 - 1 < Zdigits2 m2); [|lia].
    apply Zdigits2_gt; lia. }
  assert (Zdigits2 m2 <= 25) as Up.
  { apply Zdigits2_le. change (2 ^ 25) with (2 * 2 ^ 24). lia. }
  set (d2 := Zdigits2 m2) in *.
  assert (fexp 24 128 (d2 + e1) - e1 = d2 - 24) as F2 by (unfold fexp, emin; lia).
  rewrite F2 in H3, He3.
  assert (0 < m3) as P3.
  { subst m3. apply Z.div_str_pos. split; [apply pow2_pos; lia|].
    eapply Z.le_trans; [|apply Hb2]. apply Z.pow_le_mono_r; lia. }
  destruct m3 as [|p|p]; try lia.
  assert ((e3 <=? 128 - 24) = true) as -> by (apply Z.leb_le; lia).
  now exists p, e3.
Qed.

Lemma iter_xO (k p : positive) : Z.pos (Pos.iter xO p k) = Z.pos p * 2 ^ Z.pos k.
Proof.
  rewrite (Pos.iter_swap_gen _ _ Z.pos xO (Z.mul 2)) by reflexivity.
  change (Pos.iter (Z.mul 2) (Z.pos p) k) with (Z.shiftl (Z.pos p) (Z.pos k)).
  apply Z.shiftl_mul_pow2. lia.
Qed.

Lemma binary32_of_Z_finite (l : Z) :
  1 <= l < 2 ^ 32 ->
  exists m e, binary_normalize 24 128 l 0 false = S754_finite false m e.
Proof.
  intros [Hl Hu]. destruct l as [|p|p]; try lia.
  cbn [binary_normalize]. unfold binary_round.
  pose proof (Zdigits2_bounds (Z.pos p) ltac:(lia)) as (Hd & Hb).
  cbn [Zdigits2] in Hd, Hb.
  assert (Z.pos (digits2_pos p) <= 32) as Hd32.
  { apply (Zdigits2_le (Z.pos p)). lia. }
  set (d := Z.pos (digits2_pos p)) in *.
  assert (fexp 24 128 (d + 0) = d - 24) as -> by (unfold fexp, emin; lia).
  unfold shl_align.
  destruct (d - 24 - 0) as [|k|k] eqn:Ek.
  - apply binary32_round_finite; cbn [Zdigits2]; fold d; lia.
  - apply binary32_round_finite; cbn [Zdigits2]; fold d; lia.
  - assert (Z.pos (Pos.iter xO p k) = Z.pos p * 2 ^ (24 - d)) as E.
    { rewrite iter_xO. f_equal. f_equal. lia. }
    assert (2 ^ 23 <= Z.pos (Pos.iter xO p k) < 2 ^ 24) as B.
    { pose proof (pow2_pos (24 - d) ltac:(lia)) as Hp.
      assert (2 ^ 23 = 2 ^ (d - 1) * 2 ^ (24 - d)) as E23
        by (rewrite <- Z.pow_add_r by lia; f_equal; lia).
      assert (2 ^ 24 = 2 ^ d * 2 ^ (24 - d)) as E24
        by (rewrite <- Z.pow_add_r by lia; f_equal; lia).
      rewrite E, E23, E24. nia. }
    assert (Zdigits2 (Z.pos (Pos.iter xO p k)) = 24) as D.
    { pose proof (Zdigits2_gt _ 23 ltac:(lia) (proj1 B)).
      pose proof (Zdigits2_le _ 24 (conj (Pos2Z.is_pos _) (proj2 B))). lia. }
    apply binary32_round_finite; rewrite ?D; lia.
Qed.

Lemma binary32_of_Z_not_nan (i : Z) :
  0 <= i -> is_nan (binary_normalize 24 128 i 0 false) = false.
Proof.
  intros H. destruct i as [|p|p]; try lia; [reflexivity|].
  cbn [binary_normalize]. unfold binary_round.
  destruct (shl_align _ _ _) as [mz ez].
  apply binary_round_aux_not_nan. lia.
Qed.

Lemma SFdiv_not_nan (prec emax : Z) (x : spec_float) (sy : bool) (my : positive) (ey : Z) :
  is_nan x = false -> is_nan (SFdiv prec emax x (S754_finite sy my ey)) = false.
Proof.
  destruct x as [sx|sx| |sx mx ex]; intros H; try reflexivity; [discriminate H|].
  cbn [SFdiv]. unfold SFdiv_core_binary.
  set (s := (ex - ey - _)%Z).
  set (m' := match s with 0 => Z.pos mx | Z.pos _ => Z.shiftl (Z.pos mx) s | Z.neg _ => 0 end).
  assert (0 <= m') as Hm.
  { subst m'. destruct s; try lia. apply Z.shiftl_nonneg. lia. }
  pose proof (Z.div_pos m' (Z.pos my) Hm ltac:(lia)) as Hq.
  unfold Z.div in Hq.
  destruct (Z.div_eucl m' (Z.pos my)) as [q r].
  apply binary_round_aux_not_nan. exact Hq.
Qed.

Lemma F32_ratio_not_nan (i l : Z) :
  0 <= i -> 1 <= l < 2 ^ 32 -> is_nan (F32.div (F32.of_Z i) (F32.of_Z l)) = false.
Proof.
  intros Hi Hl. unfold F32.div, F32.of_Z, F32.prec, F32.emax.
  destruct (binary32_of_Z_finite l Hl) as (m & e & ->).
  apply SFdiv_not_nan, binary32_of_Z_not_nan, Hi.
Qed.

End Binary32.

Lemma common_gaps_range (q s : Str.t) (n i : nat) :
  (0 <= common_gaps q s i n <= Z.of_nat n)%Z.
Proof.
  revert i; induction n as [|n IH]; intros i; cbn [common_gaps]; [lia|].
  specialize (IH (S i)).
  destruct (is_gap (nth i s zero) && is_gap (nth i q zero)); lia.
Qed.

Lemma Hit_new_shape (ndebug : bool) (m : ascii -> ascii -> Z) (href : nat)
    (msa0 : mseq) (ch : ascii) (qix six : nat) (h : Hit) (msa' : mseq)
    (qs ss : seq) :
  nth_error msa0 qix = Some qs ->
  nth_error msa0 six = Some ss ->
  Hit_new ndebug m href msa0 ch qix six = Ok (h, msa') ->
  is_gap (nth 0 (m_seq qs) zero) = false
  /\ 1 <= length (m_seq ss)
  /\ ide h = F32.div (F32.of_Z (identical h)) (F32.of_Z (lali h)).
Proof.
  intros Hq Hs H. unfold Hit_new, vec_at in H. rewrite Hq, Hs in H.
  cbn [bind] in H.
  destruct (negb (nonempty (m_seq qs)) || negb (nonempty (m_seq ss))) eqn:En;
    [discriminate H|].
  destruct (char_at (m_seq qs) 0) as [q0| | | |] eqn:E0; cbn [bind] in H;
    try discriminate H.
  destruct (char_at (m_seq qs) (length (m_seq qs) - 1)); cbn [bind] in H;
    try discriminate H.
  destruct (is_gap q0 || is_gap _) eqn:Eg; [discriminate H|].
  destruct (assert ndebug _); cbn [bind] in H; try discriminate H.
  destruct (parse_hit_id (m_id ss)) as [[[name d1] d2]|]; [|discriminate H].
  destruct (lexical_cast_uint32 d1) as [jf| | | |]; cbn [bind] in H; try discriminate H.
  destruct (lexical_cast_uint32 d2) as [jl| | | |]; cbn [bind] in H; try discriminate H.
  destruct (trim_front (m_seq qs) (m_seq ss)) as [k| | | |]; cbn [bind] in H;
    try discriminate H.
  destruct (trim_back _ _) as [t| | | |]; cbn [bind] in H; try discriminate H.
  destruct (walk_loop _ _ _ _ _ _ _) as [w| | | |]; cbn [bind] in H;
    try discriminate H.
  injection H as <- _. cbn [ide identical lali].
  apply orb_false_elim in En. destruct En as [_ En].
  apply orb_false_elim in Eg. destruct Eg as [Eg _].
  split; [|split; [|reflexivity]].
  - unfold char_at in E0. destruct (m_seq qs) as [|c q]; [discriminate E0|].
    cbn [nth_error] in E0. cbn [nth]. congruence.
  - destruct (m_seq ss); [discriminate En|cbn [length]; lia].
Qed.

(** every hit that [Hit::Hit] builds from rows shorter than 2^32 columns
    has an identity that is a number: its [lali] is at least 1, because the
    first column of the query is not a gap *)
Lemma Hit_new_valid (ndebug : bool) (m : ascii -> ascii -> Z) (href : nat)
    (msa0 : mseq) (ch : ascii) (qix six : nat) (h : Hit) (msa' : mseq)
    (qs ss : seq) :
  nth_error msa0 qix = Some qs ->
  nth_error msa0 six = Some ss ->
  (Z.of_nat (length (m_seq ss)) < 2 ^ 32)%Z ->
  Hit_new ndebug m href msa0 ch qix six = Ok (h, msa') ->
  valid_hit h.
Proof.
  intros Hq Hs Hlen H.
  destruct (Hit_new_shape ndebug m href msa0 ch qix six h msa' qs ss Hq Hs H)
    as (Hg & Hn & Hide).
  destruct (Hit_new_counters ndebug m href msa0 ch qix six h msa' qs ss Hq Hs Hlen H)
    as (k & t & _ & _ & Hid & _ & Hl).
  unfold valid_hit. rewrite Hide. apply F32_ratio_not_nan; [lia|].
  pose proof (common_gaps_range (m_seq qs) (m_seq ss) (length (m_seq ss) - t - k) k)
    as Hc.
  split; [|lia].
  destruct (length (m_seq ss) - t - k) as [|n] eqn:En; [cbn [common_gaps] in Hl; lia|].
  destruct k as [|k]; [|lia].
  cbn [common_gaps] in Hl. rewrite Hg, andb_false_r in Hl.
  pose proof (common_gaps_range (m_seq qs) (m_seq ss) n 1). lia.
Qed.

(** ** CreateHit of hh-hssp.cpp, the older form of the same computation *)

Section CreateHitCounters.

Variable ndebug : bool.
Variable encode : Str.t -> list Z.
Variable gap : Z.
Variable m : Z -> Z -> Z.
Variable kAA : Z -> ascii.

Lemma remove_common_gaps_none (sq ss : list Z) (cols : list (Z * Z)) :
  HH.remove_common_gaps gap sq ss = Ok cols -> Forall (not_common gap) cols.
Proof.
  revert ss cols; induction sq as [|qi sq IH]; intros ss cols H; simpl in H.
  - injection H as <-. constructor.
  - destruct ss as [|si ss]; [discriminate H|].
    destruct (HH.remove_common_gaps gap sq ss) as [r| | | |] eqn:E; cbn [bind] in H;
      try discriminate H.
    specialize (IH ss r E).
    destruct ((qi =? gap)%Z && (si =? gap)%Z) eqn:Eg; injection H as <-; auto.
Qed.

Lemma trim_head_suffix (cols : list (Z * Z)) (b : HH.bounds) :
  exists pre, cols = pre ++ fst (HH.trim_head gap m cols b).
Proof.
  revert b; induction cols as [|[qb sb] cols IH]; intros b; cbn [HH.trim_head].
  - exists []. reflexivity.
  - destruct (qb =? gap)%Z.
    { destruct (IH (HH.mkbounds (HH.b_ifir b) (u32 (HH.b_jfir b + 1))
                      (u32 (HH.b_ilas b - 1)) (HH.b_jlas b) (HH.b_lseq2 b)))
        as [pre Hp].
      exists ((qb, sb) :: pre). cbn [app]. now rewrite <- Hp. }
    destruct (sb =? gap)%Z.
    { destruct (IH (HH.mkbounds (u32 (HH.b_ifir b + 1)) (HH.b_jfir b)
                      (HH.b_ilas b) (u32 (HH.b_jlas b - 1))
                      (u32 (HH.b_lseq2 b - 1)))) as [pre Hp].
      exists ((qb, sb) :: pre). cbn [app]. now rewrite <- Hp. }
    destruct (m qb sb <=? 0)%Z.
    { destruct (IH (HH.mkbounds (u32 (HH.b_ifir b + 1)) (u32 (HH.b_jfir b + 1))
                      (HH.b_ilas b) (HH.b_jlas b) (HH.b_lseq2 b))) as [pre Hp].
      exists ((qb, sb) :: pre). cbn [app]. now rewrite <- Hp. }
    exists []. reflexivity.
Qed.

Lemma trim_tail_suffix (rcols : list (Z * Z)) (b : HH.bounds) :
  exists pre, rcols = pre ++ fst (HH.trim_tail gap m rcols b).
Proof.
  revert b; induction rcols as [|[qe se] rcols IH]; intros b; cbn [HH.trim_tail].
  - exists []. reflexivity.
  - destruct ((qe =? gap)%Z || (se =? gap)%Z || (m qe se <=? 0)%Z).
    + match goal with
      | |- context [HH.trim_tail gap m rcols ?b'] => destruct (IH b') as [pre Hp]
      end.
      exists ((qe, se) :: pre). cbn [app]. now rewrite <- Hp.
    + exists []. reflexivity.
Qed.

Lemma walk_counters (L : Z) (cols : list (Z * Z)) (c : HH.counters) :
  (0 <= HH.c_identical c <= HH.c_similar c)%Z ->
  (HH.c_similar c + Z.of_nat (length cols) <= L)%Z ->
  (L < 2 ^ 32)%Z ->
  (0 <= HH.c_identical (HH.walk gap m kAA cols c)
     <= HH.c_similar (HH.walk gap m kAA cols c))%Z
  /\ (HH.c_similar (HH.walk gap m kAA cols c) <= L)%Z.
Proof.
  revert c; induction cols as [|[qi si] cols IH]; intros c Hid Hsm HL;
    cbn [HH.walk].
  - simpl in Hsm. lia.
  - cbn [length] in Hsm.
    apply IH; auto;
      destruct (si =? gap)%Z; cbn [HH.c_identical HH.c_similar]; try lia;
      destruct (qi =? gap)%Z; cbn [HH.c_identical HH.c_similar]; try lia;
      destruct (qi =? si)%Z; try (rewrite !u32_small by lia; lia);
      destruct (0 <? m qi si)%Z; try (rewrite !u32_small by lia; lia); lia.
Qed.

Lemma remove_common_gaps_spec (sq ss : list Z) (cols : list (Z * Z)) :
  HH.remove_common_gaps gap sq ss = Ok cols -> cols = without_common_gaps gap sq ss.
Proof.
  unfold without_common_gaps.
  revert ss cols; induction sq as [|qi sq IH]; intros ss cols H; simpl in H.
  - injection H as <-. reflexivity.
  - destruct ss as [|si ss]; [discriminate H|].
    destruct (HH.remove_common_gaps gap sq ss) as [r| | | |] eqn:E; cbn [bind] in H;
      try discriminate H.
    pose proof (IH ss r E) as Hr. cbn [combine filter fst snd]. rewrite <- Hr.
    destruct ((qi =? gap)%Z && (si =? gap)%Z); injection H as <-; reflexivity.
Qed.

Lemma trim_head_drop (cols : list (Z * Z)) (b : HH.bounds) :
  fst (HH.trim_head gap m cols b) = drop_weak gap m cols.
Proof.
  revert b; induction cols as [|[qb sb] cols IH]; intros b;
    cbn [HH.trim_head drop_weak]; [reflexivity|].
  unfold weak. cbn [fst snd].
  destruct (qb =? gap)%Z; cbn [orb]; [apply IH|].
  destruct (sb =? gap)%Z; cbn [orb]; [apply IH|].
  destruct (m qb sb <=? 0)%Z; [apply IH|reflexivity].
Qed.

Lemma trim_tail_drop (rcols : list (Z * Z)) (b : HH.bounds) :
  fst (HH.trim_tail gap m rcols b) = drop_weak gap m rcols.
Proof.
  revert b; induction rcols as [|[qe se] rcols IH]; intros b;
    cbn [HH.trim_tail drop_weak]; [reflexivity|].
  unfold weak. cbn [fst snd].
  destruct ((qe =? gap)%Z || (se =? gap)%Z || (m qe se <=? 0)%Z);
    [apply IH|reflexivity].
Qed.

(** X25: [CreateHit] keeps what C2 says: [lali] is the number of columns of
    the two rows that are left when the columns that are gaps in both are
    removed and, from both ends, the columns that hold a gap or a pair that
    does not score; none of them is a common gap, and
    [identical <= similar <= lali] *)
Lemma CreateHit_counters (id q s : Str.t) (h : HH.hit) (trimmed : list (Z * Z)) :
  (Z.of_nat (length (encode q)) < 2 ^ 32)%Z ->
  HH.CreateHit ndebug encode gap m kAA id q s = Ok (h, trimmed) ->
  HH.lali h = Z.of_nat (length (trimmed_columns gap m (encode q) (encode s)))
  /\ trimmed = trimmed_columns gap m (encode q) (encode s)
  /\ Forall (not_common gap) (trimmed_columns gap m (encode q) (encode s))
  /\ (0 <= HH.identical h <= HH.similar h)%Z
  /\ (HH.similar h <= HH.lali h)%Z.
Proof.
  intros Hlen H.
  assert (HH.lali h = Z.of_nat (length trimmed)
          /\ trimmed = trimmed_columns gap m (encode q) (encode s)
          /\ Forall (not_common gap) trimmed
          /\ (0 <= HH.identical h <= HH.similar h)%Z
          /\ (HH.similar h <= HH.lali h)%Z) as (H1 & H2 & H3 & H4 & H5);
    [|rewrite <- H2; auto].
  unfold HH.CreateHit in H.
  destruct (assert ndebug _); cbn [bind] in H; try discriminate H.
  destruct (HH.remove_common_gaps gap (encode q) (encode s)) as [cols| | | |] eqn:Ec;
    cbn [bind] in H; try discriminate H.
  assert (length cols <= length (encode q)) as Hcols.
  { clear -Ec. revert Ec. generalize (encode s). generalize (encode q). intros sq.
    revert cols; induction sq as [|qi sq IH]; intros cols ss Hc; simpl in Hc.
    - injection Hc as <-. simpl. lia.
    - destruct ss as [|si ss]; [discriminate Hc|].
      destruct (HH.remove_common_gaps gap sq ss) as [r| | | |] eqn:E; cbn [bind] in Hc;
        try discriminate Hc.
      specialize (IH r ss E).
      destruct (_ && _); injection Hc as <-; simpl; lia. }
  pose proof (remove_common_gaps_none _ _ _ Ec) as Hnc.
  match type of H with
  | context [HH.trim_head gap m cols ?b] =>
      destruct (trim_head_suffix cols b) as [pre1 Hp1];
      pose proof (trim_head_drop cols b) as Hd1;
      destruct (HH.trim_head gap m cols b) as [cols1 b1]
  end.
  cbn [fst] in Hp1, Hd1.
  destruct (trim_tail_suffix (rev cols1) b1) as [pre2 Hp2].
  pose proof (trim_tail_drop (rev cols1) b1) as Hd2.
  destruct (HH.trim_tail gap m (rev cols1) b1) as [rcols2 b2].
  cbn [fst] in Hp2, Hd2.
  assert (cols1 = rev rcols2 ++ rev pre2) as Hc1.
  { rewrite <- rev_app_distr, <- Hp2. now rewrite rev_involutive. }
  assert (length (rev rcols2) <= length cols) as Hl2.
  { rewrite Hp1, Hc1, !length_app. lia. }
  assert (rev rcols2 = trimmed_columns gap m (encode q) (encode s)) as Htr.
  { unfold trimmed_columns. rewrite <- (remove_common_gaps_spec _ _ _ Ec).
    match goal with
    | E1 : cols = pre1 ++ _ |- _ => idtac
    end.
    rewrite <- Hd1, <- Hd2. reflexivity. }
  injection H as <- <-. cbn [HH.lali HH.identical HH.similar].
  rewrite u32_small by lia.
  split; [reflexivity|]. split; [exact Htr|]. split.
  - rewrite Hp1, Hc1 in Hnc.
    apply Forall_app in Hnc. destruct Hnc as [_ Hnc].
    apply Forall_app in Hnc. apply Hnc.
  - apply walk_counters; cbn [HH.c_identical HH.c_similar]; lia.
Qed.

End CreateHitCounters.

(** C2 fails on this hit: one column is cut at the front and none at the
    back, the three columns left hold no common gap, and [Hit::Hit] gives
    [lali = 4], the width of the whole alignment, where [CreateHit] of
    hh-hssp.cpp gives 3 on the same two rows. *)
Theorem Hit_lali_is_untrimmed_width (ndebug : bool) (m : ascii -> ascii -> Z) :
  exists h a hh cols,
    Hit_new ndebug m 0 ex_flank "A" 0 1 = Ok (h, a)
    /\ trim_front (str "ACDE") (str "-CDE") = Ok 1
    /\ trim_back 3 (rev (blank 1 (str "-CDE"))) = Ok 0
    /\ common_gaps (str "ACDE") (str "-CDE") 1 3 = 0%Z
    /\ lali h = 4%Z
    /\ identical h = 3%Z
    /\ (lali h + common_gaps (str "ACDE") (str "-CDE") 1 3 <> 3)%Z
    /\ HH.CreateHit ndebug ex_encode 45 ex_matrix ex_kAA (str "h") (str "ACDE")
                      (str "-CDE") = Ok (hh, cols)
    /\ HH.lali hh = 3%Z
    /\ HH.identical hh = 3%Z.
Proof.
  eexists. eexists. eexists. eexists.
  split; [destruct ndebug; cbv; reflexivity|].
  split; [reflexivity|]. split; [reflexivity|]. split; [reflexivity|].
  split; [vm_compute; reflexivity|]. split; [vm_compute; reflexivity|].
  split; [vm_compute; discriminate|].
  split; [destruct ndebug; vm_compute; reflexivity|].
  split; vm_compute; reflexivity.
Qed.

(** ** The order of the hits *)

Lemma compare_cont_Eq (p q : positive) : Pos.compare_cont Eq p q = Pos.compare p q.
Proof. reflexivity. Qed.

Lemma SFltb_fkey (a b : spec_float) :
  is_nan a = false -> is_nan b = false ->
  (SFltb a b = true <-> lex_lt (fkey a) (fkey b)).
Proof.
  intros Ha Hb. unfold SFltb.
  destruct a as [sa|sa| |sa ma ea], b as [sb|sb| |sb mb eb];
    try discriminate Ha; try discriminate Hb; cbn [SFcompare fkey lex_lt];
    try (destruct sa); try (destruct sb); cbn [fkey lex_lt];
    try (split; [discriminate|lia]);
    try (split; [intros _; lia|reflexivity]).
  - rewrite compare_cont_Eq.
    destruct (Z.compare_spec ea eb); destruct (Pos.compare_spec ma mb);
      cbn [CompOpp]; split; try discriminate; try lia; try reflexivity.
  - rewrite compare_cont_Eq.
    destruct (Z.compare_spec ea eb); destruct (Pos.compare_spec ma mb);
      cbn [CompOpp]; split; try discriminate; try lia; try reflexivity.
Qed.

Lemma SFeqb_fkey (a b : spec_float) :
  is_nan a = false -> is_nan b = false ->
  (SFeqb a b = true <-> fkey a = fkey b).
Proof.
  intros Ha Hb. unfold SFeqb.
  destruct a as [sa|sa| |sa ma ea], b as [sb|sb| |sb mb eb];
    try discriminate Ha; try discriminate Hb; cbn [SFcompare fkey];
    try (destruct sa); try (destruct sb); cbn [fkey];
    try (split; [discriminate|intros E; inversion E]);
    try (split; reflexivity).
  - rewrite compare_cont_Eq.
    destruct (Z.compare_spec ea eb); destruct (Pos.compare_spec ma mb);
      cbn [CompOpp]; split; try discriminate; try reflexivity;
      try (intros E; inversion E; lia); try (intros _; subst; reflexivity).
  - rewrite compare_cont_Eq.
    destruct (Z.compare_spec ea eb); destruct (Pos.compare_spec ma mb);
      cbn [CompOpp]; split; try discriminate; try reflexivity;
      try (intros E; inversion E; lia); try (intros _; subst; reflexivity).
Qed.

Lemma Hit_lt_key (a b : Hit) :
  valid_hit a -> valid_hit b ->
  (Hit_lt a b = true <-> key_lt (hit_key b) (hit_key a)).
Proof.
  intros Ha Hb. unfold Hit_lt, hit_key.
  rewrite orb_true_iff, andb_true_iff, Z.ltb_lt.
  rewrite (SFltb_fkey (ide b) (ide a) Hb Ha), (SFeqb_fkey (ide a) (ide b) Ha Hb).
  destruct (fkey (ide a)) as [[a1 a2] a3], (fkey (ide b)) as [[b1 b2] b3].
  cbn [lex_lt key_lt]. split.
  - intros [H|[E H]]; [lia|]. injection E as -> -> ->. lia.
  - intros H.
    destruct (Z.eq_dec b1 a1) as [->|]; [|left; lia].
    destruct (Z.eq_dec b2 a2) as [->|]; [|left; lia].
    destruct (Z.eq_dec b3 a3) as [->|]; [|left; lia].
    right. split; [reflexivity|lia].
Qed.

Lemma before_key (a b : Hit) :
  valid_hit a -> valid_hit b ->
  (before a b <-> ~ key_lt (hit_key a) (hit_key b)).
Proof.
  intros Ha Hb. unfold before.
  rewrite <- (Hit_lt_key b a Hb Ha). destruct (Hit_lt b a); split; congruence.
Qed.

Lemma before_refl (a : Hit) : valid_hit a -> before a a.
Proof.
  intros Ha. apply before_key; auto. unfold hit_key.
  destruct (fkey (ide a)) as [[a1 a2] a3]. cbn [key_lt]. lia.
Qed.

Lemma before_total (a b : Hit) :
  valid_hit a -> valid_hit b -> before a b \/ before b a.
Proof.
  intros Ha Hb. rewrite (before_key a b Ha Hb), (before_key b a Hb Ha).
  unfold hit_key.
  destruct (fkey (ide a)) as [[a1 a2] a3], (fkey (ide b)) as [[b1 b2] b3].
  cbn [key_lt]. lia.
Qed.

Lemma before_trans (a b c : Hit) :
  valid_hit a -> valid_hit b -> valid_hit c ->
  before a b -> before b c -> before a c.
Proof.
  intros Ha Hb Hc.
  rewrite (before_key a b Ha Hb), (before_key b c Hb Hc), (before_key a c Ha Hc).
  unfold hit_key.
  destruct (fkey (ide a)) as [[a1 a2] a3], (fkey (ide b)) as [[b1 b2] b3],
           (fkey (ide c)) as [[c1 c2] c3].
  cbn [key_lt]. lia.
Qed.

Lemma tie_key (a b : Hit) :
  valid_hit a -> valid_hit b -> (tie a b <-> hit_key a = hit_key b).
Proof.
  intros Ha Hb. unfold tie.
  rewrite (before_key a b Ha Hb), (before_key b a Hb Ha).
  unfold hit_key.
  destruct (fkey (ide a)) as [[a1 a2] a3], (fkey (ide b)) as [[b1 b2] b3].
  cbn [key_lt]. split.
  - intros [H1 H2].
    assert (a1 = b1 /\ a2 = b2 /\ a3 = b3 /\ lali a = lali b) as (-> & -> & -> & ->)
      by lia.
    reflexivity.
  - intros E. injection E as -> -> -> ->. lia.
Qed.

Lemma StronglySorted_middle {A} (R : A -> A -> Prop) (a : list A) (x : A) (b : list A) :
  StronglySorted R (a ++ x :: b) ->
  StronglySorted R (a ++ b) /\ Forall (fun y => R y x) a.
Proof.
  induction a as [|y a IH]; cbn [app]; intros H.
  - inversion H; subst. split; [assumption|constructor].
  - inversion H as [|? ? Hs Hf]; subst.
    destruct (IH Hs) as [Hs' Hfa].
    rewrite Forall_app in Hf. destruct Hf as [Hf1 Hf2].
    inversion Hf2; subst.
    split; constructor; auto.
    rewrite Forall_app. split; assumption.
Qed.

Lemma StronglySorted_nth {A} (R : A -> A -> Prop) (l : list A) :
  StronglySorted R l ->
  forall i j a b, i < j -> nth_error l i = Some a -> nth_error l j = Some b -> R a b.
Proof.
  induction 1 as [|x l Hs IH Hf]; intros i j a b Hij Hi Hj.
  - destruct i; discriminate Hi.
  - destruct j as [|j]; [lia|]. cbn [nth_error] in Hj.
    destruct i as [|i]; cbn [nth_error] in Hi.
    + injection Hi as <-. rewrite Forall_forall in Hf. apply Hf.
      eapply nth_error_In; eassumption.
    + apply (IH i j); auto; lia.
Qed.

Lemma StronglySorted_firstn {A} (R : A -> A -> Prop) (n : nat) (l : list A) :
  StronglySorted R l -> StronglySorted R (firstn n l).
Proof.
  intros H; revert n; induction H as [|x l Hs IH Hf]; intros [|n]; cbn [firstn];
    try constructor; auto.
  rewrite Forall_forall in *. intros y Hy. apply Hf.
  rewrite <- (firstn_skipn n l). apply in_or_app. now left.
Qed.

Lemma repeat_snoc {A} (x : A) (n : nat) : repeat x n ++ [x] = x :: repeat x n.
Proof. induction n as [|n IH]; simpl; [reflexivity|]. now rewrite IH. Qed.

Lemma map_constant {A B} (f : A -> B) (k : B) (l : list A) :
  Forall (fun x => f x = k) l -> map f l = repeat k (length l).
Proof. induction 1 as [|x l Hx H IH]; simpl; [reflexivity|]. now rewrite Hx, IH. Qed.

(** two sorted arrangements of the same hits show the same keys, place by
    place *)
Lemma sorted_keys_unique (l1 : list Hit) :
  forall l2, Forall valid_hit l1 -> sorted l1 -> sorted l2 -> Permutation l1 l2 ->
  map hit_key l1 = map hit_key l2.
Proof.
  induction l1 as [|h1 t1 IH]; intros l2 Hv H1 H2 HP.
  - apply Permutation_nil in HP. now subst.
  - assert (In h1 l2) as Hin by (eapply Permutation_in; [exact HP|now left]).
    apply in_split in Hin. destruct Hin as (a & b & ->).
    apply Permutation_cons_app_inv in HP.
    inversion Hv as [|? ? Hv1 Hvt]; subst.
    inversion H1 as [|? ? Hs1 Hf1]; subst.
    destruct (StronglySorted_middle _ _ _ _ H2) as [H2' Ha].
    cbn [map]. rewrite (IH (a ++ b) Hvt Hs1 H2' HP).
    rewrite !map_app. cbn [map].
    assert (Forall (fun x => hit_key x = hit_key h1) a) as Hk.
    { rewrite Forall_forall in *. intros x Hx.
      assert (In x t1) as Hxt.
      { eapply Permutation_in; [apply Permutation_sym; exact HP|].
        apply in_or_app. now left. }
      apply tie_key; auto. split; [apply Ha; exact Hx|apply Hf1; exact Hxt]. }
    rewrite (map_constant _ _ _ Hk).
    change (hit_key h1 :: map hit_key b) with ([hit_key h1] ++ map hit_key b).
    rewrite app_assoc, repeat_snoc. reflexivity.
Qed.

Lemma same_keys_same_list {A B} (f : A -> B) (l1 : list A) :
  forall l2, Permutation l1 l2 -> map f l1 = map f l2 -> NoDup (map f l1) -> l1 = l2.
Proof.
  induction l1 as [|x t1 IH]; intros l2 HP Hm Hn.
  - apply Permutation_nil in HP. now subst.
  - destruct l2 as [|y t2]; [discriminate Hm|].
    cbn [map] in Hm. injection Hm as Hxy Hm.
    inversion Hn as [|? ? Hnx Hnt]; subst.
    assert (x = y) as ->.
    { assert (In x (y :: t2)) as Hin by (eapply Permutation_in; [exact HP|now left]).
      destruct Hin as [->|Hin]; [reflexivity|].
      exfalso. apply Hnx. rewrite Hm. now apply in_map. }
    f_equal. apply IH; auto. eapply Permutation_cons_inv; exact HP.
Qed.

Lemma number_hits_keys (n : Z) (l : list Hit) :
  map hit_key (number_hits n l) = map hit_key l.
Proof.
  revert n; induction l as [|h l IH]; intros n; cbn [number_hits map];
    [reflexivity|]. now rewrite IH.
Qed.

Lemma number_hits_length (n : Z) (l : list Hit) :
  length (number_hits n l) = length l.
Proof.
  revert n; induction l as [|h l IH]; intros n; cbn [number_hits length];
    [reflexivity|]. now rewrite IH.
Qed.

Lemma number_hits_nth (l : list Hit) :
  forall n i h, (0 <= n)%Z -> (n + Z.of_nat (length l) <= 2 ^ 32)%Z ->
  nth_error (number_hits n l) i = Some h ->
  nr h = (n + Z.of_nat i)%Z
  /\ exists h0, nth_error l i = Some h0 /\ h = set_nr (n + Z.of_nat i) h0.
Proof.
  induction l as [|h0 l IH]; intros n i h Hn Hl Hi; cbn [number_hits] in Hi.
  - destruct i; discriminate Hi.
  - cbn [length] in Hl. destruct i as [|i]; cbn [nth_error] in Hi.
    + injection Hi as <-. cbn [set_nr nr]. rewrite Z.add_0_r.
      split; [reflexivity|]. exists h0. split; reflexivity.
    + destruct l as [|h' l']; [destruct i; discriminate Hi|].
      cbn [length] in *.
      rewrite u32_small in Hi by lia.
      destruct (IH (n + 1)%Z i h) as (Hnr & h1 & Hh1 & Hset); auto;
        try (cbn [length]; lia).
      replace (n + Z.of_nat (S i))%Z with (n + 1 + Z.of_nat i)%Z by lia.
      split; [exact Hnr|]. exists h1. split; [exact Hh1|exact Hset].
Qed.

Lemma proteins_nr_spec (l : list Hit) :
  forall n, (0 <= n)%Z -> (n + Z.of_nat (length l) <= 2 ^ 32)%Z ->
  proteins_nr n l = map (fun i => (n + Z.of_nat i)%Z) (List.seq 0 (length l)).
Proof.
  induction l as [|h l IH]; intros n Hn Hl; cbn [proteins_nr length List.seq map];
    [reflexivity|].
  cbn [length] in Hl. rewrite Z.add_0_r. f_equal.
  destruct l as [|h' l']; [reflexivity|]. cbn [length] in *.
  rewrite u32_small by lia. rewrite IH by (cbn [length]; lia).
  cbn [length]. rewrite <- seq_shift, map_map. apply map_ext. intros i. lia.
Qed.

Section RankingProperties.

Variable std_sort : (Hit -> Hit -> bool) -> list Hit -> list Hit.
Hypothesis std_sort_sorts : sorts std_sort.

Lemma CreateHSSP_rank_kept (hits : list Hit) :
  CreateHSSP_rank std_sort hits = number_hits 1 (kept std_sort hits).
Proof.
  unfold CreateHSSP_rank, kept.
  destruct (9999 <? Z.of_nat (length (std_sort Hit_lt hits)))%Z eqn:E; [reflexivity|].
  apply Z.ltb_ge in E. rewrite firstn_all2 by lia. reflexivity.
Qed.

Lemma kept_length (hits : list Hit) : length (kept std_sort hits) <= Z.to_nat 9999.
Proof. unfold kept. apply firstn_le_length. Qed.

Lemma kept_sorted (hits : list Hit) :
  Forall valid_hit hits -> sorted (kept std_sort hits).
Proof.
  intros Hv. unfold kept. apply StronglySorted_firstn.
  apply std_sort_sorts, Hv.
Qed.

Lemma rank_nth (hits : list Hit) (i : nat) (h : Hit) :
  nth_error (CreateHSSP_rank std_sort hits) i = Some h ->
  nr h = (1 + Z.of_nat i)%Z
  /\ exists h0, nth_error (kept std_sort hits) i = Some h0
                /\ h = set_nr (1 + Z.of_nat i) h0.
Proof.
  rewrite CreateHSSP_rank_kept. apply number_hits_nth; [lia|].
  pose proof (kept_length hits). lia.
Qed.

Lemma before_descending (a b : Hit) :
  valid_hit a -> valid_hit b -> before a b ->
  SFltb (ide a) (ide b) = false
  /\ (SFeqb (ide a) (ide b) = true -> (lali b <= lali a)%Z).
Proof.
  intros Ha Hb H. unfold before, Hit_lt in H.
  apply orb_false_iff in H. destruct H as [H1 H2]. split; [exact H1|].
  intros E.
  assert (SFeqb (ide b) (ide a) = true) as E'.
  { apply SFeqb_fkey; auto. symmetry. apply SFeqb_fkey; auto. }
  rewrite E' in H2. cbn [andb] in H2. apply Z.ltb_ge in H2. exact H2.
Qed.

Lemma sorts_valid (hits : list Hit) :
  Forall valid_hit hits -> Forall valid_hit (std_sort Hit_lt hits).
Proof.
  intros Hv. destruct (std_sort_sorts hits Hv) as [HP _].
  rewrite Forall_forall in *. intros x Hx. apply Hv.
  eapply Permutation_in; [apply Permutation_sym; exact HP|exact Hx].
Qed.

Lemma number_hits_forget (n : Z) (l : list Hit) :
  map (set_nr 0) (number_hits n l) = map (set_nr 0) l.
Proof.
  revert n; induction l as [|h l IH]; intros n; cbn [number_hits map];
    [reflexivity|]. now rewrite IH.
Qed.

(** C3, amended: the hits of the jackhmmer pipeline, whose identity is a
    number, come out in descending order of [ide], those of equal [ide] in
    descending order of [lali], and are numbered from 1 on in that order;
    the list that comes out holds the hits given, but for their numbers and
    for those cut after the first 9999.  Sorting the same hits again,
    whatever order they are given in, yields the same sequence of keys
    (ide, lali), and the same list when no two hits share both keys. *)
Theorem CreateHSSP_rank_order (hits : list Hit) :
  Forall valid_hit hits ->
  (forall i j a b,
      i < j ->
      nth_error (CreateHSSP_rank std_sort hits) i = Some a ->
      nth_error (CreateHSSP_rank std_sort hits) j = Some b ->
      SFltb (ide a) (ide b) = false
      /\ (SFeqb (ide a) (ide b) = true -> (lali b <= lali a)%Z))
  /\ (forall i h,
        nth_error (CreateHSSP_rank std_sort hits) i = Some h ->
        nr h = (Z.of_nat i + 1)%Z
        /\ exists h0, In h0 hits /\ h = set_nr (Z.of_nat i + 1) h0)
  /\ length (CreateHSSP_rank std_sort hits) = Nat.min (Z.to_nat 9999) (length hits)
  /\ Permutation (map (set_nr 0) hits)
                 (map (set_nr 0) (CreateHSSP_rank std_sort hits)
                  ++ map (set_nr 0) (dropped std_sort hits))
  /\ (forall hits',
        Permutation hits hits' ->
        map hit_key (CreateHSSP_rank std_sort hits')
        = map hit_key (CreateHSSP_rank std_sort hits))
  /\ (forall hits',
        Permutation hits hits' -> NoDup (map hit_key hits) ->
        CreateHSSP_rank std_sort hits' = CreateHSSP_rank std_sort hits).
Proof.
  intros Hv.
  assert (forall hits', Permutation hits hits' ->
            map hit_key (std_sort Hit_lt hits') = map hit_key (std_sort Hit_lt hits))
    as Hkeys.
  { intros hits' HP.
    assert (Forall valid_hit hits') as Hv'.
    { rewrite Forall_forall in *. intros x Hx. apply Hv.
      eapply Permutation_in; [apply Permutation_sym; exact HP|exact Hx]. }
    destruct (std_sort_sorts hits Hv) as [P1 S1].
    destruct (std_sort_sorts hits' Hv') as [P2 S2].
    apply sorted_keys_unique; auto.
    - now apply sorts_valid.
    - eapply Permutation_trans; [apply Permutation_sym; exact P2|].
      eapply Permutation_trans; [apply Permutation_sym; exact HP|exact P1]. }
  destruct (std_sort_sorts hits Hv) as [P0 S0].
  split; [|split; [|split; [|split; [|split]]]].
  - intros i j a b Hij Hi Hj.
    destruct (rank_nth hits i a Hi) as (_ & a0 & Ha0 & ->).
    destruct (rank_nth hits j b Hj) as (_ & b0 & Hb0 & ->).
    cbn [set_nr ide lali].
    pose proof (sorts_valid hits Hv) as Hvs.
    assert (forall k x, nth_error (kept std_sort hits) k = Some x -> valid_hit x) as Hk.
    { intros k x Hx. rewrite Forall_forall in Hvs. apply Hvs.
      unfold kept in Hx. apply nth_error_In in Hx.
      rewrite <- (firstn_skipn (Z.to_nat 9999) (std_sort Hit_lt hits)).
      apply in_or_app. now left. }
    apply before_descending; [eapply Hk; eassumption|eapply Hk; eassumption|].
    exact (StronglySorted_nth _ _ (kept_sorted hits Hv) i j a0 b0 Hij Ha0 Hb0).
  - intros i h Hi. destruct (rank_nth hits i h Hi) as (Hnr & h0 & Hh0 & Hh).
    split; [lia|]. exists h0. split.
    + apply nth_error_In in Hh0. unfold kept in Hh0.
      eapply Permutation_in; [apply Permutation_sym; exact P0|].
      rewrite <- (firstn_skipn (Z.to_nat 9999) (std_sort Hit_lt hits)).
      apply in_or_app. now left.
    + rewrite Hh. f_equal. lia.
  - rewrite CreateHSSP_rank_kept, number_hits_length. unfold kept.
    rewrite length_firstn. now rewrite (Permutation_length P0).
  - rewrite CreateHSSP_rank_kept, number_hits_forget, <- map_app.
    apply Permutation_map. unfold kept, dropped. now rewrite firstn_skipn.
  - intros hits' HP. rewrite !CreateHSSP_rank_kept, !number_hits_keys.
    unfold kept. rewrite <- !firstn_map. now rewrite (Hkeys hits' HP).
  - intros hits' HP Hn. rewrite !CreateHSSP_rank_kept. unfold kept.
    assert (Forall valid_hit hits') as Hv'.
    { rewrite Forall_forall in *. intros x Hx. apply Hv.
      eapply Permutation_in; [apply Permutation_sym; exact HP|exact Hx]. }
    destruct (std_sort_sorts hits' Hv') as [P2 S2].
    assert (std_sort Hit_lt hits' = std_sort Hit_lt hits) as ->; [|reflexivity].
    apply (same_keys_same_list hit_key).
    + eapply Permutation_trans; [apply Permutation_sym; exact P2|].
      eapply Permutation_trans; [apply Permutation_sym; exact HP|exact P0].
    + apply Hkeys, HP.
    + eapply Permutation_NoDup; [|exact Hn].
      apply Permutation_map.
      eapply Permutation_trans; [exact HP|exact P2].
Qed.

(** C8 for the three overloads of the jackhmmer pipeline: at most 9999 hits
    are numbered and written, so [NALIGN] is at most 9999 and the numbers in
    the hits and in the PROTEINS table run from 1 to at most 9999; the hits
    kept are the first 9999 of the sorted list, none of them worse than a hit
    that is dropped. *)
Theorem CreateHSSP_rank_truncates (hits : list Hit) :
  Forall valid_hit hits ->
  let out := CreateHSSP_rank std_sort hits in
  (NALIGN out <= 9999)%Z
  /\ (forall h, In h out -> (1 <= nr h <= 9999)%Z)
  /\ (forall n, In n (proteins_nr 1 out) -> (1 <= n <= 9999)%Z)
  /\ map hit_key out = map hit_key (firstn (Z.to_nat 9999) (std_sort Hit_lt hits))
  /\ Permutation hits (kept std_sort hits ++ dropped std_sort hits)
  /\ (forall a b, In a (kept std_sort hits) -> In b (dropped std_sort hits) ->
                  before a b).
Proof.
  intros Hv out.
  assert (length out <= Z.to_nat 9999) as Hlen.
  { subst out. rewrite CreateHSSP_rank_kept, number_hits_length. apply kept_length. }
  split; [unfold NALIGN; lia|].
  split; [|split; [|split; [|split]]].
  - intros h Hin. apply In_nth_error in Hin. destruct Hin as [i Hi].
    assert (i < length out) as Hlt by (apply nth_error_Some; congruence).
    destruct (rank_nth hits i h Hi) as (Hnr & _). lia.
  - intros n Hin. rewrite proteins_nr_spec in Hin by lia.
    apply in_map_iff in Hin. destruct Hin as (i & <- & Hi).
    apply in_seq in Hi. lia.
  - subst out. rewrite CreateHSSP_rank_kept, number_hits_keys. reflexivity.
  - unfold kept, dropped. rewrite firstn_skipn. apply std_sort_sorts, Hv.
  - intros a b Ha Hb.
    destruct (std_sort_sorts hits Hv) as [_ Hs].
    unfold kept, dropped in *.
    rewrite <- (firstn_skipn (Z.to_nat 9999) (std_sort Hit_lt hits)) in Hs.
    clear -Hs Ha Hb.
    induction (firstn (Z.to_nat 9999) (std_sort Hit_lt hits)) as [|x l IH];
      [contradiction|].
    cbn [app] in Hs. inversion Hs as [|? ? Hs' Hf]; subst.
    destruct Ha as [->|Ha]; [|now apply IH].
    rewrite Forall_forall in Hf. apply Hf. apply in_or_app. now right.
Qed.

End RankingProperties.

(** ** A sort to run the ranking with *)

Lemma insert_perm {A} (lt : A -> A -> bool) (x : A) (l : list A) :
  Permutation (x :: l) (insert lt x l).
Proof.
  induction l as [|y l IH]; cbn [insert]; [reflexivity|].
  destruct (lt x y); [reflexivity|].
  eapply Permutation_trans; [apply perm_swap|]. now apply perm_skip.
Qed.

Lemma insertion_sort_perm {A} (lt : A -> A -> bool) (l : list A) :
  Permutation l (insertion_sort lt l).
Proof.
  induction l as [|x l IH]; cbn [insertion_sort fold_right]; [reflexivity|].
  eapply Permutation_trans; [apply perm_skip, IH|]. apply insert_perm.
Qed.

Lemma insert_sorted (x : Hit) (l : list Hit) :
  valid_hit x -> Forall valid_hit l -> sorted l -> sorted (insert Hit_lt x l).
Proof.
  intros Hx Hv Hs. induction Hs as [|y l Hs IH Hf]; cbn [insert].
  - repeat constructor.
  - inversion Hv as [|? ? Hy Hvl]; subst.
    destruct (Hit_lt x y) eqn:E.
    + assert (before x y) as Hxy.
      { destruct (before_total x y Hx Hy) as [H|H]; [exact H|].
        unfold before in H. congruence. }
      constructor; [constructor; assumption|].
      constructor; [exact Hxy|].
      rewrite Forall_forall in *. intros z Hz.
      apply (before_trans x y z); auto.
    + constructor; [apply IH; assumption|].
      rewrite Forall_forall in *. intros z Hz.
      apply (Permutation_in _ (Permutation_sym (insert_perm Hit_lt x l))) in Hz.
      destruct Hz as [<-|Hz]; [exact E|auto].
Qed.

Lemma insertion_sort_sorts : sorts (@insertion_sort Hit).
Proof.
  intros l Hv. split; [apply insertion_sort_perm|].
  induction Hv as [|x l Hx Hv IH]; cbn [insertion_sort fold_right]; [constructor|].
  apply insert_sorted; auto.
  rewrite Forall_forall in *. intros z Hz. apply Hv.
  eapply Permutation_in; [apply Permutation_sym, insertion_sort_perm|exact Hz].
Qed.

Lemma ex_hits_valid : Forall valid_hit ex_hits.
Proof. repeat constructor. Qed.

Lemma reversing_sort_sorts : sorts (@reversing_sort Hit).
Proof.
  intros l Hv. unfold reversing_sort.
  assert (Forall valid_hit (rev l)) as Hr.
  { rewrite Forall_forall in *. intros x Hx. apply Hv. now apply in_rev. }
  destruct (insertion_sort_sorts (rev l) Hr) as [HP Hs].
  split; [|exact Hs].
  eapply Permutation_trans; [apply Permutation_rev|exact HP].
Qed.

(** C3 as stated fails on two hits with the same [ide] and the same [lali]:
    a sort that keeps the promise of [std::sort] ranks them in one order
    when they are given as x, y and in the other when they are given as
    y, x; and two sorts that both keep the promise rank the same list in
    different orders. *)
Lemma CreateHSSP_rank_ties_in_any_order :
  Forall valid_hit ex_tied
  /\ map hit_key ex_tied = [ hit_key (ex_ranked "x" 5 10); hit_key (ex_ranked "x" 5 10) ]
  /\ Permutation ex_tied (rev ex_tied)
  /\ sorts (@insertion_sort Hit) /\ sorts (@reversing_sort Hit)
  /\ map (fun h => (id h, nr h)) (CreateHSSP_rank (@insertion_sort Hit) ex_tied)
     = [ (str "y", 1%Z); (str "x", 2%Z) ]
  /\ map (fun h => (id h, nr h)) (CreateHSSP_rank (@insertion_sort Hit) (rev ex_tied))
     = [ (str "x", 1%Z); (str "y", 2%Z) ]
  /\ map (fun h => (id h, nr h)) (CreateHSSP_rank (@reversing_sort Hit) ex_tied)
     = [ (str "x", 1%Z); (str "y", 2%Z) ].
Proof.
  split; [repeat constructor|]. split; [reflexivity|].
  split; [apply Permutation_rev|].
  split; [exact insertion_sort_sorts|]. split; [exact reversing_sort_sorts|].
  repeat split; vm_compute; reflexivity.
Qed.

Lemma CreateHSSP_rank_order_witness :
  map (fun h => (id h, nr h)) (CreateHSSP_rank (@insertion_sort Hit) ex_hits)
  = [ (str "b", 1%Z); (str "c", 2%Z); (str "a", 3%Z) ]
  /\ (forall i h,
        nth_error (CreateHSSP_rank (@insertion_sort Hit) ex_hits) i = Some h ->
        nr h = (Z.of_nat i + 1)%Z
        /\ exists h0, In h0 ex_hits /\ h = set_nr (Z.of_nat i + 1) h0)
  /\ length (CreateHSSP_rank (@insertion_sort Hit) ex_hits) = 3.
Proof.
  split; [vm_compute; reflexivity|].
  pose proof (CreateHSSP_rank_order (@insertion_sort Hit) insertion_sort_sorts
                ex_hits ex_hits_valid) as (_ & H2 & H3 & _).
  split; [exact H2|exact H3].
Defined.

Lemma CreateHSSP_rank_truncates_witness :
  (NALIGN (CreateHSSP_rank (@insertion_sort Hit) ex_hits) <= 9999)%Z.
Proof.
  exact (proj1 (CreateHSSP_rank_truncates (@insertion_sort Hit) insertion_sort_sorts
                  ex_hits ex_hits_valid)).
Defined.

(** ** The other [CreateHSSP] *)

Lemma HH_number_hits_length (n : Z) (l : list HH.hit) :
  length (HH.number_hits n l) = length l.
Proof.
  revert n; induction l as [|h l IH]; intros n; cbn [HH.number_hits length];
    [reflexivity|]. now rewrite IH.
Qed.

(** C8 as stated fails on the [CreateHSSP] of hh-hssp.cpp, which sorts and
    numbers the hits and cuts nothing: with 10000 hits [NALIGN] is 10000. *)
Lemma HH_CreateHSSP_keeps_every_hit :
  HH.NALIGN (HH.CreateHSSP_rank (@insertion_sort HH.hit)
               (repeat ex_hh_hit (Z.to_nat 10000))) = 10000%Z.
Proof.
  unfold HH.NALIGN, HH.CreateHSSP_rank.
  rewrite HH_number_hits_length.
  rewrite <- (Permutation_length (insertion_sort_perm HH.hit_lt _)).
  rewrite repeat_length. apply Z2Nat.id. discriminate.
Qed.

Lemma SFltb_irrefl (x : spec_float) : SFltb x x = false.
Proof.
  unfold SFltb. destruct x as [s|s| |s m e]; cbn [SFcompare];
    try (destruct s; reflexivity); try reflexivity.
  destruct s; rewrite Z.compare_refl;
    (rewrite Pos.compare_cont_refl || rewrite Pos.compare_refl); reflexivity.
Qed.

(** [hit::operator<] of hh-hssp.cpp compares [ide] alone: two of its hits
    with the same identity are not told apart by [lali]. *)
Lemma HH_hit_lt_ignores_lali (a b : HH.hit) :
  HH.ide a = HH.ide b -> HH.hit_lt a b = false /\ HH.hit_lt b a = false.
Proof.
  unfold HH.hit_lt. intros ->. split; apply SFltb_irrefl.
Qed.

(** ** ClusterSequences *)

Lemma contains_substring (a b : Str.t) : contains a b = true <-> substring b a.
Proof.
  unfold contains. destruct (Str.find a b) as [n|] eqn:E.
  - split; [intros _|reflexivity].
    destruct (find_Some a b n E) as (x & y & H & _). now exists x, y.
  - split; [discriminate|]. intros H. apply find_substring in E. contradiction.
Qed.

Lemma nonempty_false {A} (l : list A) : nonempty l = false <-> l = [].
Proof. destruct l; split; intros H; try reflexivity; discriminate. Qed.

Lemma nonempty_true {A} (l : list A) : nonempty l = true <-> l <> [].
Proof. destruct l; split; intros H; try reflexivity; try discriminate; congruence. Qed.

(** what the loop over [j] finds *)
Lemma scan_inner_Some (a : Str.t) (i j : nat) (rest : list Str.t) (c k : nat) :
  i < j ->
  scan_inner a i j rest = Some (c, k) ->
  a <> []
  /\ exists b n, nth_error rest n = Some b /\ b <> []
      /\ ((c = j + n /\ k = i /\ substring b a)
          \/ (c = i /\ k = j + n /\ substring a b)).
Proof.
  revert j; induction rest as [|b rest IH]; intros j Hij H; cbn [scan_inner] in H;
    [discriminate H|].
  destruct (negb (nonempty a) || negb (nonempty b)) eqn:En.
  - destruct (IH (S j) ltac:(lia) H) as (Ha & b' & n & Hn & Hb & Hc).
    split; [exact Ha|]. exists b', (S n). split; [exact Hn|]. split; [exact Hb|].
    destruct Hc as [(-> & -> & Hs)|(-> & -> & Hs)]; [left|right]; repeat split; auto; lia.
  - apply orb_false_elim in En. destruct En as [Ea Eb].
    apply negb_false_iff, nonempty_true in Ea, Eb.
    destruct (contains a b) eqn:Eab.
    + injection H as <- <-. split; [exact Ea|]. exists b, 0.
      split; [reflexivity|]. split; [exact Eb|]. left.
      repeat split; [lia|]. now apply contains_substring.
    + destruct (contains b a) eqn:Eba.
      * injection H as <- <-. split; [exact Ea|]. exists b, 0.
        split; [reflexivity|]. split; [exact Eb|]. right.
        repeat split; [lia|]. now apply contains_substring.
      * destruct (IH (S j) ltac:(lia) H) as (Ha & b' & n & Hn & Hb & Hc).
        split; [exact Ha|]. exists b', (S n). split; [exact Hn|]. split; [exact Hb|].
        destruct Hc as [(-> & -> & Hs)|(-> & -> & Hs)]; [left|right];
          repeat split; auto; lia.
Qed.

Lemma scan_inner_None (a : Str.t) (i j : nat) (rest : list Str.t) :
  scan_inner a i j rest = None ->
  forall n b, nth_error rest n = Some b -> a <> [] -> b <> [] ->
              ~ substring b a /\ ~ substring a b.
Proof.
  revert j; induction rest as [|b rest IH]; intros j H n b' Hn Ha Hb.
  - destruct n; discriminate Hn.
  - cbn [scan_inner] in H.
    destruct (negb (nonempty a) || negb (nonempty b)) eqn:En.
    + destruct n as [|n]; cbn [nth_error] in Hn.
      * injection Hn as ->. apply orb_true_iff in En.
        destruct En as [E|E]; apply negb_true_iff, nonempty_false in E; contradiction.
      * exact (IH (S j) H n b' Hn Ha Hb).
    + destruct (contains a b) eqn:Eab; [discriminate H|].
      destruct (contains b a) eqn:Eba; [discriminate H|].
      destruct n as [|n]; cbn [nth_error] in Hn.
      * injection Hn as ->. split; intros Hs; apply contains_substring in Hs; congruence.
      * exact (IH (S j) H n b' Hn Ha Hb).
Qed.

(** what a round finds: an entry [c] to clear and another entry [k], both
    not empty, the second containing the first *)
Lemma scan_outer_Some (i : nat) (s : list Str.t) (c k : nat) :
  scan_outer i s = Some (c, k) ->
  exists a b, nth_error s (c - i) = Some a /\ nth_error s (k - i) = Some b
              /\ i <= c /\ i <= k /\ c <> k /\ a <> [] /\ b <> [] /\ substring a b.
Proof.
  revert i; induction s as [|a s IH]; intros i H; cbn [scan_outer] in H;
    [discriminate H|].
  destruct (scan_inner a i (S i) s) as [[c' k']|] eqn:E.
  - injection H as -> ->.
    destruct (scan_inner_Some a i (S i) s c k ltac:(lia) E)
      as (Ha & b & n & Hn & Hb & [(-> & -> & Hs)|(-> & -> & Hs)]).
    + exists b, a. replace (S i + n - i) with (S n) by lia. rewrite Nat.sub_diag.
      cbn [nth_error]. repeat split; auto; lia.
    + exists a, b. replace (S i + n - i) with (S n) by lia. rewrite Nat.sub_diag.
      cbn [nth_error]. repeat split; auto; lia.
  - destruct (IH (S i) H) as (x & y & Hx & Hy & Hc & Hk & Hne & Hxe & Hye & Hs).
    exists x, y.
    replace (c - i) with (S (c - S i)) by lia.
    replace (k - i) with (S (k - S i)) by lia.
    cbn [nth_error]. repeat split; auto; lia.
Qed.

Lemma scan_outer_None (i : nat) (s : list Str.t) :
  scan_outer i s = None -> antichain s.
Proof.
  revert i; induction s as [|a s IH]; intros i H; cbn [scan_outer] in H.
  - intros p q x y _ Hp. destruct p; discriminate Hp.
  - destruct (scan_inner a i (S i) s) as [m|] eqn:E; [discriminate H|].
    pose proof (scan_inner_None a i (S i) s E) as Hi.
    specialize (IH (S i) H).
    intros p q x y Hpq Hp Hq Hx Hy.
    destruct p as [|p], q as [|q]; cbn [nth_error] in Hp, Hq.
    + congruence.
    + injection Hp as <-. exact (proj1 (Hi q y Hq Hx Hy)).
    + injection Hq as <-. exact (proj2 (Hi p x Hp Hy Hx)).
    + apply (IH p q x y); auto.
Qed.

Lemma live_update_clear (c : nat) (s : list Str.t) (a : Str.t) :
  nth_error s c = Some a -> a <> [] ->
  S (live (update c (fun _ => []) s)) = live s.
Proof.
  unfold live. revert c; induction s as [|x s IH]; intros c Hc Ha.
  - destruct c; discriminate Hc.
  - destruct c as [|c]; cbn [nth_error] in Hc; cbn [update filter].
    + injection Hc as ->. destruct a; [congruence|]. reflexivity.
    + cbn [nonempty]. destruct (nonempty x); cbn [length]; now rewrite <- (IH c Hc Ha).
Qed.

Lemma substring_refl (a : Str.t) : substring a a.
Proof. exists [], []. now rewrite app_nil_r. Qed.

Lemma substring_trans (a b c : Str.t) : substring a b -> substring b c -> substring a c.
Proof.
  intros (x & y & ->) (u & v & ->). exists (u ++ x), (y ++ v).
  now rewrite <- !app_assoc.
Qed.

Lemma cluster_inv_start (s0 : list Str.t) (ix0 : list nat) : cluster_inv s0 ix0 s0 ix0.
Proof.
  repeat split; auto.
  intros j a Hj Ha. exists j, a. repeat split; auto. apply substring_refl.
Qed.

Lemma cluster_inv_step (s0 : list Str.t) (ix0 : list nat) (s : list Str.t)
    (ix : list nat) (c k : nat) :
  length s0 <= length ix0 ->
  cluster_inv s0 ix0 s ix ->
  scan_outer 0 s = Some (c, k) ->
  cluster_inv s0 ix0 (update c (fun _ => []) s) (update c (fun _ => k) ix).
Proof.
  intros Hlen (Hl & Hli & Hch & Hcov) H.
  destruct (scan_outer_Some 0 s c k H) as (a & b & Hc & Hk & _ & _ & Hne & Ha & Hb & Hs).
  rewrite Nat.sub_0_r in Hc, Hk.
  assert (c < length s) as Hcl by (apply nth_error_Some; congruence).
  assert (k < length s) as Hkl by (apply nth_error_Some; congruence).
  (* the two entries are as on entry *)
  assert (nth_error s0 c = Some a) as Hc0.
  { destruct (Hch c ltac:(lia)) as [[E _]|[E _]]; congruence. }
  assert (nth_error s0 k = Some b) as Hk0.
  { destruct (Hch k ltac:(lia)) as [[E _]|[E _]]; congruence. }
  split; [now rewrite update_length|]. split; [now rewrite update_length|]. split.
  - intros j Hj. destruct (Nat.eq_dec j c) as [->|Hjc].
    + right. split; [now rewrite nth_error_update_eq, Hc|].
      rewrite (nth_error_nth _ _ _ Hc0). split; [exact Ha|].
      assert (exists i0, nth_error ix c = Some i0) as [i0 Hi0].
      { destruct (nth_error ix c) eqn:E; [eauto|].
        apply nth_error_None in E. lia. }
      exists k. split; [now rewrite nth_error_update_eq, Hi0|].
      split; [congruence|]. split; [lia|].
      now rewrite (nth_error_nth _ _ _ Hk0).
    + rewrite !nth_error_update_ne by congruence. apply Hch, Hj.
  - intros j x Hj Hx. destruct (Hcov j x Hj Hx) as (q & y & Hq & Hq0 & Hy & Hxy).
    destruct (Nat.eq_dec q c) as [->|Hqc].
    + assert (y = a) as -> by congruence.
      exists k, b. rewrite nth_error_update_ne by congruence.
      repeat split; auto. eapply substring_trans; eauto.
    + exists q, y. rewrite nth_error_update_ne by congruence. repeat split; auto.
Qed.

Lemma cluster_rounds_spec (s0 : list Str.t) (ix0 : list nat) :
  length s0 <= length ix0 ->
  forall fuel s ix,
    cluster_inv s0 ix0 s ix -> live s <= fuel ->
    exists s' ix', cluster_rounds fuel s ix = Ok (s', ix')
                   /\ cluster_inv s0 ix0 s' ix' /\ antichain s'.
Proof.
  intros Hlen. induction fuel as [|fuel IH]; intros s ix Hinv Hf.
  - cbn [cluster_rounds]. destruct (scan_outer 0 s) as [[c k]|] eqn:E.
    + destruct (scan_outer_Some 0 s c k E) as (a & b & Hc & _ & _ & _ & _ & Ha & _).
      rewrite Nat.sub_0_r in Hc. pose proof (live_update_clear c s a Hc Ha). lia.
    + exists s, ix. split; [reflexivity|]. split; [exact Hinv|].
      exact (scan_outer_None 0 s E).
  - cbn [cluster_rounds]. destruct (scan_outer 0 s) as [[c k]|] eqn:E.
    + destruct (scan_outer_Some 0 s c k E) as (a & b & Hc & _ & _ & _ & _ & Ha & _).
      rewrite Nat.sub_0_r in Hc.
      assert (c < length s) as Hcl by (apply nth_error_Some; congruence).
      destruct Hinv as (Hl & Hli & Hrest).
      replace (c <? length ix) with true by (symmetry; apply Nat.ltb_lt; lia).
      apply IH.
      * apply cluster_inv_step; auto. repeat split; auto; apply Hrest.
      * pose proof (live_update_clear c s a Hc Ha). lia.
    + exists s, ix. split; [reflexivity|]. split; [exact Hinv|].
      exact (scan_outer_None 0 s E).
Qed.

Lemma live_le_length (s : list Str.t) : live s <= length s.
Proof. unfold live. apply filter_length_le. Qed.

(** X1: on a vector of sequences that is not empty, with an index vector at
    least as long, [ClusterSequences] returns, the vectors keep their
    lengths, and no sequence left is contained in another one left. *)
Theorem ClusterSequences_antichain (s : list Str.t) (ix : list nat) :
  s <> [] -> length s <= length ix ->
  exists s' ix',
    ClusterSequences s ix = Ok (s', ix')
    /\ length s' = length s /\ length ix' = length ix
    /\ antichain s'.
Proof.
  intros Hs Hlen. unfold ClusterSequences. destruct s as [|a s]; [congruence|].
  destruct (cluster_rounds_spec (a :: s) ix Hlen (length (a :: s)) (a :: s) ix
              (cluster_inv_start _ _) (live_le_length _))
    as (s' & ix' & H & (Hl & Hli & _) & Hanti).
  exists s', ix'. repeat split; auto.
Qed.

(** X2: every entry is either left as it was, with its index, or emptied,
    and then its index is set to another entry, one that contained it on
    entry. *)
Theorem ClusterSequences_entries (s : list Str.t) (ix : list nat)
    (s' : list Str.t) (ix' : list nat) :
  length s <= length ix ->
  ClusterSequences s ix = Ok (s', ix') ->
  forall j, j < length s ->
    (nth_error s' j = nth_error s j /\ nth_error ix' j = nth_error ix j)
    \/ (nth_error s' j = Some [] /\ nth j s [] <> []
        /\ exists i, nth_error ix' j = Some i /\ i <> j /\ i < length s
                     /\ substring (nth j s []) (nth i s [])).
Proof.
  intros Hlen H. unfold ClusterSequences in H. destruct s as [|a s]; [discriminate H|].
  destruct (cluster_rounds_spec (a :: s) ix Hlen (length (a :: s)) (a :: s) ix
              (cluster_inv_start _ _) (live_le_length _))
    as (s1 & ix1 & H1 & (_ & _ & Hch & _) & _).
  rewrite H1 in H. injection H as <- <-. exact Hch.
Qed.

(** X3: every sequence that is not empty on entry occurs in a sequence that
    is left as it was. *)
Theorem ClusterSequences_covers (s : list Str.t) (ix : list nat)
    (s' : list Str.t) (ix' : list nat) :
  length s <= length ix ->
  ClusterSequences s ix = Ok (s', ix') ->
  forall j a, nth_error s j = Some a -> a <> [] ->
    exists k b, nth_error s' k = Some b /\ nth_error s k = Some b
                /\ b <> [] /\ substring a b.
Proof.
  intros Hlen H. unfold ClusterSequences in H. destruct s as [|x s]; [discriminate H|].
  destruct (cluster_rounds_spec (x :: s) ix Hlen (length (x :: s)) (x :: s) ix
              (cluster_inv_start _ _) (live_le_length _))
    as (s1 & ix1 & H1 & (_ & _ & _ & Hcov) & _).
  rewrite H1 in H. injection H as <- <-. exact Hcov.
Qed.

(** ** The weight of a pair of rows *)

Lemma weight_columns_sym (sq si sj : Str.t) (k : nat) (L d : Z) :
  weight_columns sq si sj k L d = weight_columns sq sj si k L d.
Proof.
  revert k L d; induction sq as [|c sq IH]; intros k L d; cbn [weight_columns];
    [reflexivity|].
  destruct (negb (is_gap c)); [|apply IH].
  assert (forall s, (exists c, cstr_at s k = Ok c) \/ cstr_at s k = Undef) as Hc.
  { intros s. unfold cstr_at. destruct (nth_error s k); [eauto|].
    destruct (k =? length s); eauto. }
  destruct (Hc si) as [[ci ->]| ->], (Hc sj) as [[cj ->]| ->]; cbn [bind];
    try reflexivity.
  rewrite IH. destruct (Ascii.eqb_spec ci cj) as [->|Hn].
  - rewrite Ascii.eqb_refl. reflexivity.
  - destruct (Ascii.eqb_spec cj ci) as [->|_]; [congruence|reflexivity].
Qed.

Lemma skipn_nth_cons {A} (k : nat) (l : list A) (d : A) :
  k < length l -> skipn k l = nth k l d :: skipn (S k) l.
Proof.
  revert k; induction l as [|x l IH]; intros [|k] H; cbn in *; try lia; auto.
  apply IH. lia.
Qed.

Lemma count_cons {A} (f : A -> bool) (x : A) (l : list A) :
  count f (x :: l) = ((if f x then 1 else 0) + count f l)%Z.
Proof. unfold count. cbn [filter]. destruct (f x); cbn [length]; lia. Qed.

Lemma count_bounds {A} (f : A -> bool) (l : list A) :
  (0 <= count f l <= Z.of_nat (length l))%Z.
Proof. unfold count. pose proof (filter_length_le f l). lia. Qed.

Lemma weight_columns_spec (sq si sj : Str.t) :
  forall (k : nat) (L d : Z),
  k + length sq <= length si -> k + length sq <= length sj ->
  weight_columns sq si sj k (u32 L) (u32 d)
  = Ok (u32 (L + weight_L sq), u32 (d + weight_d sq (skipn k si) (skipn k sj))).
Proof.
  induction sq as [|c sq IH]; intros k L d Hi Hj.
  - cbn [weight_columns]. unfold weight_L, weight_d, count. cbn.
    now rewrite !Z.add_0_r.
  - cbn [length] in Hi, Hj. cbn [weight_columns].
    rewrite (skipn_nth_cons k si zero), (skipn_nth_cons k sj zero) by lia.
    unfold weight_L, weight_d. cbn [combine]. rewrite !count_cons. cbn [fst snd].
    fold (weight_L sq). fold (weight_d sq (skipn (S k) si) (skipn (S k) sj)).
    rewrite !cstr_at_nth by lia. cbn [bind].
    destruct (negb (is_gap c)); cbn [andb].
    + rewrite u32_succ.
      destruct (Ascii.eqb (nth k si zero) (nth k sj zero) && negb (is_gap (nth k si zero))).
      * rewrite u32_succ. rewrite IH by lia. f_equal. f_equal; f_equal; lia.
      * rewrite IH by lia. f_equal. f_equal; f_equal; lia.
    + rewrite IH by lia. reflexivity.
Qed.

Lemma weight_d_le (q si sj : Str.t) : (0 <= weight_d q si sj <= weight_L q)%Z.
Proof.
  unfold weight_d, weight_L.
  revert si sj; induction q as [|c q IH]; intros si sj.
  - unfold count; cbn. lia.
  - destruct si as [|a si]; [unfold count at 1 2; cbn [combine filter length];
      pose proof (count_bounds (fun c => negb (is_gap c)) (c :: q)); lia|].
    destruct sj as [|b sj]; [unfold count at 1 2; cbn [combine filter length];
      pose proof (count_bounds (fun c => negb (is_gap c)) (c :: q)); lia|].
    cbn [combine]. rewrite !count_cons. cbn [fst snd]. specialize (IH si sj).
    destruct (negb (is_gap c)); cbn [andb]; [|lia].
    destruct (Ascii.eqb a b && negb (is_gap a)); lia.
Qed.

(** X4: the weight of a pair of rows does not depend on their order. *)
Theorem CalculateWeight_symmetric (ndebug : bool) (a : mseq) (i j : nat) :
  i < length a -> j < length a ->
  CalculateWeight ndebug a i j = CalculateWeight ndebug a j i.
Proof.
  intros Hi Hj. unfold CalculateWeight.
  destruct (vec_at a 0) as [q| | | |]; cbn [bind]; try reflexivity.
  unfold vec_at.
  destruct (nth_error a i) as [si|] eqn:Ei; [|apply nth_error_None in Ei; lia].
  destruct (nth_error a j) as [sj|] eqn:Ej; [|apply nth_error_None in Ej; lia].
  cbn [bind]. unfold assert.
  rewrite (weight_columns_sym (m_seq q) (m_seq si) (m_seq sj)).
  destruct ndebug; cbn [orb bind]; [reflexivity|].
  destruct (length (m_seq si) =? length (m_seq q)),
           (length (m_seq sj) =? length (m_seq q)); reflexivity.
Qed.

(** X5: for two rows as long as the query row, [CalculateWeight] returns
    [1 - d / L], where [L] is the number of columns in which the query has a
    residue and [d] the number of those in which the two rows hold the same
    residue; [d] is at most [L]. *)
Theorem CalculateWeight_formula (ndebug : bool) (a : mseq) (i j : nat)
    (q si sj : seq) :
  nth_error a 0 = Some q -> nth_error a i = Some si -> nth_error a j = Some sj ->
  length (m_seq si) = length (m_seq q) ->
  length (m_seq sj) = length (m_seq q) ->
  (Z.of_nat (length (m_seq q)) < 2 ^ 32)%Z ->
  CalculateWeight ndebug a i j
  = Ok (F32.sub F32.one
          (F32.div (F32.of_Z (weight_d (m_seq q) (m_seq si) (m_seq sj)))
                   (F32.of_Z (weight_L (m_seq q)))))
  /\ (0 <= weight_d (m_seq q) (m_seq si) (m_seq sj) <= weight_L (m_seq q))%Z.
Proof.
  intros Hq Hi Hj Hli Hlj Hlen. split; [|apply weight_d_le].
  unfold CalculateWeight, vec_at. rewrite Hq, Hi, Hj. cbn [bind].
  rewrite Hli, Hlj, Nat.eqb_refl. unfold assert. rewrite orb_true_r. cbn [bind].
  pose proof (weight_columns_spec (m_seq q) (m_seq si) (m_seq sj) 0 0 0
                ltac:(lia) ltac:(lia)) as E.
  change (u32 0) with 0%Z in E. rewrite E. cbn [bind skipn].
  pose proof (weight_d_le (m_seq q) (m_seq si) (m_seq sj)) as Hd.
  pose proof (count_bounds (fun c => negb (is_gap c)) (m_seq q)) as HL.
  fold (weight_L (m_seq q)) in HL.
  rewrite !Z.add_0_l, !u32_small by lia. reflexivity.
Qed.

(** ** The id of the query *)

Lemma span_digits_spec (s : Str.t) :
  s = fst (span_digits s) ++ snd (span_digits s)
  /\ forallb Str.isdigit (fst (span_digits s)) = true
  /\ match snd (span_digits s) with
     | [] => True
     | c :: _ => Str.isdigit c = false
     end.
Proof.
  induction s as [|c s IH]; cbn [span_digits]; [repeat split|].
  destruct (Str.isdigit c) eqn:E.
  - destruct (span_digits s) as [d r]. cbn [fst snd] in *.
    destruct IH as (H1 & H2 & H3). repeat split.
    + cbn [app]. now f_equal.
    + cbn [forallb]. now rewrite E, H2.
    + exact H3.
  - cbn [fst snd]. repeat split. exact E.
Qed.

Lemma span_digits_app (d r : Str.t) :
  forallb Str.isdigit d = true ->
  match r with [] => True | c :: _ => Str.isdigit c = false end ->
  span_digits (d ++ r) = (d, r).
Proof.
  intros Hd Hr. induction d as [|c d IH]; cbn [app].
  - destruct r as [|c r]; [reflexivity|]. cbn [span_digits]. now rewrite Hr.
  - cbn [forallb] in Hd. apply andb_prop in Hd. destruct Hd as [Hc Hd].
    cbn [span_digits]. rewrite Hc, (IH Hd). reflexivity.
Qed.

Lemma forallb_rev {A} (f : A -> bool) (l : list A) : forallb f (rev l) = forallb f l.
Proof.
  induction l as [|x l IH]; [reflexivity|]. cbn [rev forallb].
  rewrite forallb_app, IH. cbn [forallb]. rewrite andb_true_r. apply andb_comm.
Qed.

(** X6: the id of the query is the id of the header without its iteration
    suffix: a non-empty name followed by [-i] and digits loses the suffix,
    and any other id is kept whole. *)
Theorem strip_iteration_spec :
  (forall p d, p <> [] -> digits d -> strip_iteration (p ++ str "-i" ++ d) = p)
  /\ (forall id,
        strip_iteration id = id
        \/ exists d, digits d /\ strip_iteration id <> []
                     /\ id = strip_iteration id ++ str "-i" ++ d).
Proof.
  split.
  - intros p d Hp [Hd Hdig]. unfold strip_iteration.
    rewrite !rev_app_distr. cbn [str list_ascii_of_string rev app].
    rewrite <- !app_assoc. cbn [app].
    rewrite span_digits_app.
    + destruct (rev d) as [|x rd] eqn:Ed.
      { apply (f_equal (@rev ascii)) in Ed. rewrite rev_involutive in Ed. contradiction. }
      destruct (rev p) as [|y rp] eqn:Ep.
      { apply (f_equal (@rev ascii)) in Ep. rewrite rev_involutive in Ep. contradiction. }
      cbn [Ascii.eqb Bool.eqb andb]. rewrite <- Ep. apply rev_involutive.
    + now rewrite forallb_rev.
    + reflexivity.
  - intros id. unfold strip_iteration.
    destruct (span_digits_spec (rev id)) as (H1 & H2 & _).
    destruct (span_digits (rev id)) as [d r]. cbn [fst snd] in H1, H2.
    destruct d as [|d0 d]; [now left|].
    destruct r as [|c1 [|c2 [|x0 x]]]; try (now left).
    destruct (Ascii.eqb_spec c1 "i") as [->|]; [|now left].
    destruct (Ascii.eqb_spec c2 "-") as [->|]; [|now left].
    cbn [andb]. right. exists (rev (d0 :: d)). split; [split|split].
    + intros E. apply (f_equal (@rev ascii)) in E. rewrite rev_involutive in E.
      discriminate E.
    + now rewrite forallb_rev.
    + intros E. apply (f_equal (@rev ascii)) in E. rewrite rev_involutive in E.
      discriminate E.
    + apply (f_equal (@rev ascii)) in H1. rewrite rev_involutive in H1.
      rewrite H1. rewrite rev_app_distr.
      change ("i"%char :: "-"%char :: x0 :: x) with (["i"; "-"]%char ++ x0 :: x).
      rewrite rev_app_distr. rewrite <- app_assoc. reflexivity.
Qed.

(** ** What [Hit::Hit] reads, counts and writes *)

Lemma tolower_idem (c : ascii) : Str.tolower (Str.tolower c) = Str.tolower c.
Proof. all_chars c. Qed.

Lemma row_rel_refl (s : Str.t) : Forall2 row_rel s s.
Proof. induction s; constructor; auto. now left. Qed.

Lemma row_rel_lower (s s' : Str.t) (g : nat) (c : ascii) :
  Forall2 row_rel s s' -> nth_error s' g = Some c ->
  Forall2 row_rel s (set_char g (Str.tolower c) s').
Proof.
  intros H; revert g; induction H as [|a b s s' Hab H IH]; intros [|g] Hg;
    cbn in *; try discriminate.
  - injection Hg as ->. constructor; [|exact H].
    destruct Hab as [->|[->|[Ha ->]]].
    + right. now left.
    + right. left. apply tolower_idem.
    + right. right. split; [exact Ha|reflexivity].
  - constructor; [exact Hab|]. now apply IH.
Qed.

Section Walk.

Variable ndebug : bool.
Variable m : ascii -> ascii -> Z.
Variables q s0 : Str.t.

Lemma walk_step_gaps (sb i n : nat) (qi : ascii) (w w' : walk) :
  walk_step ndebug m sb i qi w = Ok w' ->
  gaps_ok s0 (S n) w -> gaps_ok s0 n w'.
Proof.
  intros Hstep (Hr & Hins & Hq & Hn & Hs & Hl & Hb).
  unfold walk_step in Hstep.
  destruct (char_at (w_s w) i) as [si| | | |] eqn:Esi; cbn [bind] in Hstep;
    try discriminate Hstep.
  apply char_at_Ok in Esi. unfold gaps_ok.
  assert (0 <= w_ngap w)%Z as Hn0 by (destruct (w_sgap w || w_qgap w); lia).
  destruct (is_gap si) eqn:Gs; destruct (is_gap qi) eqn:Gq; cbn [andb] in Hstep.
  - injection Hstep as <-.
    cbn [w_s w_insertions w_qgap w_ins w_sgap w_ngap w_lgap w_similar w_lali].
    rewrite u32_small by lia. repeat split; auto; lia.
  - injection Hstep as <-.
    cbn [w_s w_insertions w_qgap w_ins w_sgap w_ngap w_lgap w_similar w_lali].
    cbn [orb]. destruct (w_sgap w || w_qgap w); cbn [negb];
      rewrite ?u32_small by lia; repeat split; auto; lia.
  - match type of Hstep with
    | bind ?x _ = _ => destruct x as [[s' ins']| | | |] eqn:E
    end; cbn [bind] in Hstep; try discriminate Hstep.
    injection Hstep as <-.
    cbn [w_s w_insertions w_qgap w_ins w_sgap w_ngap w_lgap w_similar w_lali].
    assert (Forall2 row_rel s0 s' /\ 2 <= length (iseq ins')) as [Hr' Hi'].
    { destruct (w_qgap w) eqn:Eq; cbn [negb] in E.
      - injection E as <- <-. split; [exact Hr|]. cbn [iseq].
        rewrite length_app. cbn [length]. specialize (Hq eq_refl). lia.
      - destruct (assert ndebug _); cbn [bind] in E; try discriminate E.
        destruct i as [|j]; [discriminate E|].
        destruct (find_anchor (w_s w) sb j) as [g| | | |]; cbn [bind] in E;
          try discriminate E.
        destruct (char_at (w_s w) g) as [c| | | |] eqn:Ec; cbn [bind] in E;
          try discriminate E.
        injection E as <- <-. apply char_at_Ok in Ec.
        split; [now apply row_rel_lower|]. cbn [iseq length]. lia. }
    rewrite orb_true_r.
    destruct (w_sgap w || w_qgap w); cbn [negb];
      rewrite ?u32_small by lia; repeat split; auto; lia.
  - injection Hstep as <-.
    cbn [w_s w_insertions w_qgap w_ins w_sgap w_ngap w_lgap w_similar w_lali orb].
    split.
    { destruct (w_qgap w); [|exact Hr]. now apply row_rel_lower. }
    split.
    { destruct (w_qgap w) eqn:Eq; [|exact Hins].
      apply Forall_app. split; [exact Hins|]. constructor; [|constructor].
      cbn [iseq]. rewrite length_app. cbn [length]. specialize (Hq eq_refl). lia. }
    split; [discriminate|].
    split.
    { destruct (w_qgap w) eqn:Eq.
      - rewrite length_app. cbn [length]. rewrite orb_true_r in Hn. lia.
      - destruct (w_sgap w); cbn [orb] in Hn; lia. }
    destruct (Ascii.eqb qi _).
    + rewrite !u32_small by lia. repeat split; lia.
    + destruct (0 <? m qi _)%Z; [rewrite !u32_small by lia|]; repeat split; lia.
Qed.

Lemma walk_loop_gaps (sb : nat) :
  forall (n i : nat) (w w' : walk),
  walk_loop ndebug m q sb n i w = Ok w' ->
  gaps_ok s0 n w -> gaps_ok s0 0 w'.
Proof.
  induction n as [|n IH]; intros i w w' H Hg.
  - now injection H as <-.
  - cbn [walk_loop] in H.
    destruct (char_at q i) as [qi| | | |] eqn:Eq; cbn [bind] in H; try discriminate H.
    destruct (walk_step ndebug m sb i qi w) as [w1| | | |] eqn:Es; cbn [bind] in H;
      try discriminate H.
    exact (IH (S i) w1 w' H (walk_step_gaps sb i n qi w w1 Es Hg)).
Qed.

End Walk.

Lemma trim_front_blank (q s : Str.t) (k : nat) :
  trim_front q s = Ok k -> Forall2 blank_rel s (blank k s) /\ k <= length s.
Proof.
  revert s k; induction q as [|c q IH]; intros s k H; cbn [trim_front] in H.
  - injection H as <-. destruct s; cbn [blank].
    + split; [constructor|cbn; lia].
    + split; [|cbn; lia]. clear. induction (a :: s); constructor; auto. now left.
  - destruct s as [|x s]; [discriminate H|].
    destruct (is_gap x) eqn:Gx.
    + destruct (trim_front q s) as [k'| | | |] eqn:E; cbn [bind] in H; try discriminate H.
      injection H as <-. destruct (IH s k' E) as [Hr Hl]. cbn [blank]. split.
      * constructor; [|exact Hr]. right. now split.
      * cbn [length]. lia.
    + injection H as <-. cbn [blank]. split; [|cbn; lia].
      clear. induction (x :: s); constructor; auto. now left.
Qed.

Lemma trim_back_blank (n : nat) (rs : Str.t) (t : nat) :
  trim_back n rs = Ok t -> Forall2 blank_rel rs (blank t rs) /\ t <= length rs /\ t <= n.
Proof.
  revert rs t; induction n as [|n IH]; intros rs t H; cbn [trim_back] in H.
  - injection H as <-. split; [|lia].
    destruct rs; cbn [blank]; [constructor|].
    clear. induction (a :: rs); constructor; auto. now left.
  - destruct rs as [|x rs]; [discriminate H|].
    destruct (is_gap x) eqn:Gx.
    + destruct (trim_back n rs) as [t'| | | |] eqn:E; cbn [bind] in H; try discriminate H.
      injection H as <-. destruct (IH rs t' E) as (Hr & Hl & Hn). cbn [blank]. split.
      * constructor; [|exact Hr]. right. now split.
      * cbn [length]. lia.
    + injection H as <-. cbn [blank]. split; [|cbn; lia].
      clear. induction (x :: rs); constructor; auto. now left.
Qed.

Lemma Forall2_rev_both {A B} (R : A -> B -> Prop) (l : list A) (l' : list B) :
  Forall2 R l l' -> Forall2 R (rev l) (rev l').
Proof.
  induction 1 as [|a b l l' Hab H IH]; [constructor|]. cbn [rev].
  apply Forall2_app; [exact IH|]. now constructor.
Qed.

Lemma blank_rel_row (s s1 s2 : Str.t) :
  Forall2 blank_rel s s1 -> Forall2 blank_rel s1 s2 -> Forall2 row_rel s s2.
Proof.
  intros H; revert s2; induction H as [|a b s s1 Hab H IH]; intros s2 H2;
    inversion H2 as [|b' c s1' s2' Hbc H2']; subst; constructor; [|now apply IH].
  destruct Hab as [->|[Ga ->]], Hbc as [->|[Gb ->]].
  - now left.
  - right. right. now split.
  - right. right. now split.
  - discriminate Gb.
Qed.

Lemma blanked_row (q s : Str.t) (n k t : nat) :
  trim_front q s = Ok k ->
  trim_back n (rev (blank k s)) = Ok t ->
  Forall2 row_rel s (blank_back t (blank k s)).
Proof.
  intros Hk Ht. destruct (trim_front_blank q s k Hk) as [H1 _].
  destruct (trim_back_blank n _ t Ht) as [H2 _].
  apply Forall2_rev_both in H2. rewrite rev_involutive in H2.
  exact (blank_rel_row _ _ _ H1 H2).
Qed.

Lemma Hit_new_inv (ndebug : bool) (m : ascii -> ascii -> Z) (href : nat)
    (msa0 : mseq) (ch : ascii) (qix six : nat) (h : Hit) (msa' : mseq)
    (qs ss : seq) :
  nth_error msa0 qix = Some qs ->
  nth_error msa0 six = Some ss ->
  Hit_new ndebug m href msa0 ch qix six = Ok (h, msa') ->
  exists name d1 d2 k t w,
    parse_hit_id (m_id ss) = Some (name, d1, d2)
    /\ (decimal d1 < 2 ^ 32)%Z /\ (decimal d2 < 2 ^ 32)%Z
    /\ trim_front (m_seq qs) (m_seq ss) = Ok k
    /\ trim_back (length (m_seq qs) - k) (rev (blank k (m_seq ss))) = Ok t
    /\ walk_loop ndebug m (m_seq qs) k (length (m_seq ss) - t - k) k
         (mkwalk (blank_back t (blank k (m_seq ss)))
                 (u32 (Z.of_nat (length (m_seq ss)))) (u32 (Z.of_nat k))
                 0 0 0 0 false false (u32 (1 + Z.of_nat k)) (decimal d1)
                 (mkins 0 0 []) []) = Ok w
    /\ h = mkHit href ch 0 six name [] [] []
                 (u32 (1 + Z.of_nat k)) (w_ilas w) (decimal d1) (decimal d2)
                 (w_lali w) (w_ngap w) (w_lgap w) 0
                 (F32.div (F32.of_Z (w_identical w)) (F32.of_Z (w_lali w)))
                 (F32.div (F32.of_Z (w_similar w)) (F32.of_Z (w_lali w)))
                 (w_identical w) (w_similar w) (w_insertions w)
    /\ msa' = update six (fun r => mkseq (m_id r) (w_s w) (m_identical r) (m_length r))
                     msa0.
Proof.
  intros Hq Hs H. unfold Hit_new, vec_at in H. rewrite Hq, Hs in H.
  cbn [bind] in H.
  destruct (negb (nonempty (m_seq qs)) || negb (nonempty (m_seq ss)));
    [discriminate H|].
  destruct (char_at (m_seq qs) 0); cbn [bind] in H; try discriminate H.
  destruct (char_at (m_seq qs) (length (m_seq qs) - 1)); cbn [bind] in H;
    try discriminate H.
  destruct (is_gap _ || is_gap _); [discriminate H|].
  destruct (assert ndebug _); cbn [bind] in H; try discriminate H.
  destruct (parse_hit_id (m_id ss)) as [[[name d1] d2]|]; [|discriminate H].
  unfold lexical_cast_uint32 in H.
  destruct (decimal d1 <? 2 ^ 32)%Z eqn:E1; cbn [bind] in H; try discriminate H.
  destruct (decimal d2 <? 2 ^ 32)%Z eqn:E2; cbn [bind] in H; try discriminate H.
  destruct (trim_front (m_seq qs) (m_seq ss)) as [k| | | |] eqn:Ek; cbn [bind] in H;
    try discriminate H.
  destruct (trim_back (length (m_seq qs) - k) (rev (blank k (m_seq ss))))
    as [t| | | |] eqn:Et; cbn [bind] in H; try discriminate H.
  destruct (walk_loop _ _ _ _ _ _ _) as [w| | | |] eqn:Ew; cbn [bind] in H;
    try discriminate H.
  injection H as <- <-.
  exists name, d1, d2, k, t, w. apply Z.ltb_lt in E1, E2.
  repeat split; auto.
Qed.

Lemma Hit_new_gaps_ok (ndebug : bool) (m : ascii -> ascii -> Z) (href : nat)
    (msa0 : mseq) (ch : ascii) (qix six : nat) (h : Hit) (msa' : mseq)
    (qs ss : seq) :
  nth_error msa0 qix = Some qs ->
  nth_error msa0 six = Some ss ->
  (Z.of_nat (length (m_seq ss)) < 2 ^ 32)%Z ->
  Hit_new ndebug m href msa0 ch qix six = Ok (h, msa') ->
  exists w,
    gaps_ok (m_seq ss) 0 w
    /\ insertions h = w_insertions w /\ ngap h = w_ngap w /\ lgap h = w_lgap w
    /\ similar h = w_similar w /\ lali h = w_lali w
    /\ msa' = update six (fun r => mkseq (m_id r) (w_s w) (m_identical r) (m_length r))
                     msa0.
Proof.
  intros Hq Hs Hlen H.
  destruct (Hit_new_inv ndebug m href msa0 ch qix six h msa' qs ss Hq Hs H)
    as (name & d1 & d2 & k & t & w & _ & _ & _ & Hk & Ht & Hw & -> & ->).
  exists w. split; [|repeat split].
  apply (walk_loop_gaps ndebug m (m_seq qs) (m_seq ss) k _ k _ w Hw).
  unfold gaps_ok.
  cbn [w_s w_insertions w_qgap w_ins w_sgap w_ngap w_lgap w_similar w_lali orb length].
  rewrite u32_small by lia.
  split; [exact (blanked_row _ _ _ _ _ Hk Ht)|].
  repeat split; try constructor; try discriminate; lia.
Qed.

Lemma find_char_split (c : ascii) (s : Str.t) (p : nat) :
  Str.find_char c s = Some p ->
  s = firstn p s ++ c :: skipn (S p) s /\ Str.find_char c (firstn p s) = None.
Proof.
  revert p; induction s as [|x s IH]; intros p H; cbn [Str.find_char] in H;
    [discriminate H|].
  destruct (Ascii.eqb_spec x c) as [->|Hn].
  - injection H as <-. split; reflexivity.
  - destruct (Str.find_char c s) as [p'|] eqn:E; [|discriminate H].
    injection H as <-. destruct (IH p' eq_refl) as [H1 H2].
    cbn [firstn skipn app Str.find_char]. split; [now f_equal|].
    destruct (Ascii.eqb_spec x c); [contradiction|]. now rewrite H2.
Qed.

Lemma id_name_no_slash (n : Str.t) :
  forallb id_char n = true -> Str.find_char "/" n = None.
Proof.
  induction n as [|c n IH]; [reflexivity|]. cbn [forallb Str.find_char].
  intros H. apply andb_prop in H. destruct H as [Hc Hn]. rewrite (IH Hn).
  destruct (Ascii.eqb_spec c "/") as [->|]; [discriminate Hc|reflexivity].
Qed.

(** the ids [Hit::Hit] accepts are those of the form name/digits-digits *)
Lemma parse_hit_id_form (s n d1 d2 : Str.t) :
  parse_hit_id s = Some (n, d1, d2)
  <-> id_name n /\ digits d1 /\ digits d2 /\ s = n ++ str "/" ++ d1 ++ str "-" ++ d2.
Proof.
  unfold parse_hit_id, id_name, digits. split.
  - destruct (Str.find_char "/" s) as [p|] eqn:Ep; [|discriminate].
    destruct (find_char_split _ _ _ Ep) as [Hs _].
    destruct (span_digits_spec (skipn (S p) s)) as (H1 & H2 & _).
    destruct (span_digits (skipn (S p) s)) as [x1 r1]. cbn [fst snd] in H1, H2.
    destruct r1 as [|c r2]; [discriminate|].
    destruct (span_digits_spec r2) as (H3 & H4 & _).
    destruct (span_digits r2) as [x2 r3]. cbn [fst snd] in H3, H4.
    destruct (Ascii.eqb_spec c "-") as [->|]; [|discriminate]. cbn [andb].
    destruct (nonempty (firstn p s)) eqn:N0; [|discriminate].
    destruct (forallb id_char (firstn p s)) eqn:F0; [|discriminate].
    destruct (nonempty x1) eqn:N1; [|discriminate].
    destruct (nonempty x2) eqn:N2; [|discriminate].
    destruct (nonempty r3) eqn:N3; [discriminate|]. cbn [andb negb].
    intros [= <- <- <-]. apply nonempty_true in N0, N1, N2.
    destruct r3; [|discriminate N3]. rewrite app_nil_r in H3. subst r2.
    repeat split; auto.
    rewrite Hs at 1. rewrite H1. reflexivity.
  - intros ((Hn & Hnc) & (Hd1 & Hd1c) & (Hd2 & Hd2c) & ->).
    cbn [str list_ascii_of_string app].
    rewrite (find_char_app "/" n _ (id_name_no_slash n Hnc)).
    rewrite firstn_app, firstn_all, Nat.sub_diag, app_nil_r.
    replace (skipn (S (length n)) (n ++ "/"%char :: d1 ++ "-"%char :: d2))
      with (d1 ++ "-"%char :: d2).
    2:{ change (n ++ "/"%char :: d1 ++ "-"%char :: d2)
          with (n ++ ["/"%char] ++ d1 ++ "-"%char :: d2).
        rewrite app_assoc.
        replace (S (length n)) with (length (n ++ ["/"%char]))
          by (rewrite length_app; cbn; lia).
        now rewrite skipn_app, skipn_all, Nat.sub_diag. }
    rewrite (span_digits_app d1 ("-"%char :: d2) Hd1c eq_refl).
    replace d2 with (d2 ++ []) at 1 by apply app_nil_r.
    rewrite (span_digits_app d2 [] Hd2c I).
    apply nonempty_true in Hn, Hd1, Hd2. rewrite Hn, Hnc, Hd1, Hd2. reflexivity.
Qed.

(** X7: a hit built by [Hit::Hit] has its id, [jfir] and [jlas] from the id
    of its row, which has the form name/digits-digits with both numbers
    below 2^32; it refers to its alignment, its row and its chain. *)
Theorem Hit_new_reads_id (ndebug : bool) (m : ascii -> ascii -> Z) (href : nat)
    (msa0 : mseq) (ch : ascii) (qix six : nat) (h : Hit) (msa' : mseq)
    (qs ss : seq) :
  nth_error msa0 qix = Some qs ->
  nth_error msa0 six = Some ss ->
  Hit_new ndebug m href msa0 ch qix six = Ok (h, msa') ->
  (exists d1 d2,
     id_name (id h) /\ digits d1 /\ digits d2
     /\ m_id ss = id h ++ str "/" ++ d1 ++ str "-" ++ d2
     /\ jfir h = decimal d1 /\ jlas h = decimal d2
     /\ (jfir h < 2 ^ 32)%Z /\ (jlas h < 2 ^ 32)%Z)
  /\ msa h = href /\ ix h = six /\ chain h = ch.
Proof.
  intros Hq Hs H.
  destruct (Hit_new_inv ndebug m href msa0 ch qix six h msa' qs ss Hq Hs H)
    as (name & d1 & d2 & k & t & w & Hp & H1 & H2 & _ & _ & _ & -> & _).
  apply parse_hit_id_form in Hp. destruct Hp as (Hn & Hd1 & Hd2 & Hid).
  cbn [id jfir jlas msa ix chain]. split; [|repeat split].
  exists d1, d2. repeat split; auto; apply Hn || apply Hd1 || apply Hd2.
Qed.

(** X8: in a hit built from rows shorter than 2^32 columns, the gaps are at
    most as many as the columns they span, and these columns and the similar
    ones together are at most [lali]. *)
Theorem Hit_new_gap_counters (ndebug : bool) (m : ascii -> ascii -> Z) (href : nat)
    (msa0 : mseq) (ch : ascii) (qix six : nat) (h : Hit) (msa' : mseq)
    (qs ss : seq) :
  nth_error msa0 qix = Some qs ->
  nth_error msa0 six = Some ss ->
  (Z.of_nat (length (m_seq ss)) < 2 ^ 32)%Z ->
  Hit_new ndebug m href msa0 ch qix six = Ok (h, msa') ->
  (0 <= ngap h <= lgap h)%Z /\ (lgap h + similar h <= lali h)%Z.
Proof.
  intros Hq Hs Hlen H.
  destruct (Hit_new_gaps_ok ndebug m href msa0 ch qix six h msa' qs ss Hq Hs Hlen H)
    as (w & (_ & _ & _ & Hn & _ & Hl & _) & _ & -> & -> & -> & -> & _).
  destruct (w_sgap w || w_qgap w); lia.
Qed.

(** X9: the insertions of a hit built from rows shorter than 2^32 columns
    are at most [ngap], and each holds at least three residues: the one
    before the insertion, the inserted ones, and the one after. *)
Theorem Hit_new_insertions (ndebug : bool) (m : ascii -> ascii -> Z) (href : nat)
    (msa0 : mseq) (ch : ascii) (qix six : nat) (h : Hit) (msa' : mseq)
    (qs ss : seq) :
  nth_error msa0 qix = Some qs ->
  nth_error msa0 six = Some ss ->
  (Z.of_nat (length (m_seq ss)) < 2 ^ 32)%Z ->
  Hit_new ndebug m href msa0 ch qix six = Ok (h, msa') ->
  (Z.of_nat (length (insertions h)) <= ngap h)%Z
  /\ Forall (fun x => 3 <= length (iseq x)) (insertions h).
Proof.
  intros Hq Hs Hlen H.
  destruct (Hit_new_gaps_ok ndebug m href msa0 ch qix six h msa' qs ss Hq Hs Hlen H)
    as (w & (_ & Hi & _ & Hn & _) & -> & -> & _).
  split; [|exact Hi]. destruct (w_sgap w || w_qgap w); lia.
Qed.

(** X10: [Hit::Hit] writes to the row of the hit only, and there it keeps
    the id, the counters and the number of columns: a character is left as
    it was, or its case is lowered, or it is a gap of the flanks that is
    blanked. *)
Theorem Hit_new_row (ndebug : bool) (m : ascii -> ascii -> Z) (href : nat)
    (msa0 : mseq) (ch : ascii) (qix six : nat) (h : Hit) (msa' : mseq)
    (qs ss : seq) :
  nth_error msa0 qix = Some qs ->
  nth_error msa0 six = Some ss ->
  (Z.of_nat (length (m_seq ss)) < 2 ^ 32)%Z ->
  Hit_new ndebug m href msa0 ch qix six = Ok (h, msa') ->
  length msa' = length msa0
  /\ (forall j, j <> six -> nth_error msa' j = nth_error msa0 j)
  /\ exists row,
       nth_error msa' six = Some row
       /\ m_id row = m_id ss /\ m_identical row = m_identical ss
       /\ m_length row = m_length ss
       /\ Forall2 row_rel (m_seq ss) (m_seq row).
Proof.
  intros Hq Hs Hlen H.
  destruct (Hit_new_gaps_ok ndebug m href msa0 ch qix six h msa' qs ss Hq Hs Hlen H)
    as (w & (Hr & _) & _ & _ & _ & _ & _ & ->).
  split; [apply update_length|]. split.
  - intros j Hj. apply nth_error_update_ne. congruence.
  - eexists. split; [rewrite nth_error_update_eq, Hs; reflexivity|].
    cbn [m_id m_identical m_length m_seq]. repeat split. exact Hr.
Qed.

(** ** When [Hit::Hit] throws and when it returns *)

Lemma trim_front_total (q s : Str.t) :
  length q <= length s ->
  exists k, trim_front q s = Ok k /\ k <= length q
            /\ (forall i, i < k -> is_gap (nth i s zero) = true)
            /\ (k < length q -> is_gap (nth k s zero) = false).
Proof.
  revert s; induction q as [|c q IH]; intros s H; cbn [trim_front].
  - exists 0. split; [reflexivity|]. split; [lia|]. split; [intros i Hi; lia|].
    cbn [length]. lia.
  - destruct s as [|x s]; [cbn in H; lia|]. cbn [length] in H.
    destruct (is_gap x) eqn:Gx.
    + destruct (IH s ltac:(lia)) as (k & -> & Hk & Hg & Hn). cbn [bind].
      exists (S k). split; [reflexivity|]. split; [cbn [length]; lia|]. split.
      * intros [|i] Hi; cbn [nth]; [exact Gx|apply Hg; lia].
      * cbn [length nth]. intros Hlt. apply Hn. lia.
    + exists 0. split; [reflexivity|]. split; [lia|]. split; [intros i Hi; lia|].
      intros _. exact Gx.
Qed.

Lemma trim_back_total (n : nat) (rs : Str.t) :
  n <= length rs -> exists t, trim_back n rs = Ok t /\ t <= n.
Proof.
  revert rs; induction n as [|n IH]; intros rs H; cbn [trim_back].
  - exists 0. split; [reflexivity|lia].
  - destruct rs as [|x rs]; [cbn in H; lia|]. cbn [length] in H.
    destruct (is_gap x).
    + destruct (IH rs ltac:(lia)) as (t & -> & Ht). cbn [bind].
      exists (S t). split; [reflexivity|lia].
    + exists 0. split; [reflexivity|lia].
Qed.

Lemma char_at_total (s : Str.t) (i : nat) :
  i < length s -> char_at s i = Ok (nth i s zero).
Proof.
  intros H. unfold char_at. destruct (nth_error s i) as [c|] eqn:E.
  - now rewrite (nth_error_nth _ _ _ E).
  - apply nth_error_None in E. lia.
Qed.

Lemma find_anchor_total (s : Str.t) (sb j : nat) :
  sb <= j -> j < length s ->
  exists g, find_anchor s sb j = Ok g /\ g < length s.
Proof.
  induction j as [|j IH]; intros Hsb Hj; cbn [find_anchor].
  - assert (sb = 0) as -> by lia. cbn [Nat.eqb]. exists 0. now split.
  - destruct (S j =? sb) eqn:E; [exists (S j); now split|].
    apply Nat.eqb_neq in E. rewrite char_at_total by exact Hj. cbn [bind].
    destruct (is_gap _); [|exists (S j); now split].
    apply IH; lia.
Qed.

Section WalkReturns.

Variable ndebug : bool.
Variable m : ascii -> ascii -> Z.
Variable q : Str.t.

Lemma walk_step_returns (sb i : nat) (w : walk) :
  sb <= i -> i < length (w_s w) ->
  (i = sb -> is_gap (nth i q zero) = false) ->
  exists w', walk_step ndebug m sb i (nth i q zero) w = Ok w'
             /\ length (w_s w') = length (w_s w).
Proof.
  intros Hsb Hi Ha. unfold walk_step. rewrite char_at_total by exact Hi.
  cbn [bind].
  destruct (is_gap (nth i (w_s w) zero)) eqn:Gs;
    destruct (is_gap (nth i q zero)) eqn:Gq; cbn [andb].
  - eexists. split; [reflexivity|reflexivity].
  - eexists. split; [reflexivity|reflexivity].
  - destruct (w_qgap w); cbn [negb].
    + cbn [bind]. eexists. split; [reflexivity|reflexivity].
    + assert (i <> sb) as Hne by (intros E; specialize (Ha E); discriminate Ha).
      unfold assert. replace (negb (i =? sb)) with true
        by (symmetry; apply negb_true_iff, Nat.eqb_neq; exact Hne).
      rewrite orb_true_r. cbn [bind].
      destruct i as [|j]; [lia|].
      destruct (find_anchor_total (w_s w) sb j ltac:(lia) ltac:(lia)) as (g & -> & Hg).
      cbn [bind]. rewrite char_at_total by exact Hg. cbn [bind].
      eexists. split; [reflexivity|]. cbn [w_s]. apply update_length.
  - eexists. split; [reflexivity|]. cbn [w_s].
    destruct (w_qgap w); [apply update_length|reflexivity].
Qed.

Lemma walk_loop_returns (sb : nat) :
  forall (n i : nat) (w : walk),
  sb <= i -> i + n <= length q -> length (w_s w) = length q ->
  (i = sb -> 0 < n -> is_gap (nth i q zero) = false) ->
  exists w', walk_loop ndebug m q sb n i w = Ok w'.
Proof.
  induction n as [|n IH]; intros i w Hsb Hn Hl Ha; cbn [walk_loop].
  - now exists w.
  - rewrite char_at_total by lia. cbn [bind].
    destruct (walk_step_returns sb i w Hsb ltac:(lia) (fun E => Ha E ltac:(lia)))
      as (w1 & -> & Hl1).
    cbn [bind]. apply IH; try lia. 
Qed.

End WalkReturns.

(** X11: on two rows of the same length, [Hit::Hit] throws when they are
    empty, when the query has a gap in its first or last column, and when the
    id of the hit has not the form name/digits-digits; it returns when the
    query has no such gap, the id has the form with numbers below 2^32, and
    the first residue of the hit faces a residue of the query. *)
Theorem Hit_new_outcome (ndebug : bool) (m : ascii -> ascii -> Z) (href : nat)
    (msa0 : mseq) (ch : ascii) (qix six : nat) (qs ss : seq) :
  nth_error msa0 qix = Some qs ->
  nth_error msa0 six = Some ss ->
  length (m_seq ss) = length (m_seq qs) ->
  (m_seq qs = [] ->
   Hit_new ndebug m href msa0 ch qix six = Throw "Invalid (empty) sequence")
  /\ (m_seq qs <> [] -> ~ edge_free (m_seq qs) ->
      Hit_new ndebug m href msa0 ch qix six
      = Throw "Leading (or trailing) gaps found in query sequence")
  /\ (m_seq qs <> [] -> edge_free (m_seq qs) ->
      (forall n d1 d2, m_id ss <> n ++ str "/" ++ d1 ++ str "-" ++ d2
                       \/ ~ id_name n \/ ~ digits d1 \/ ~ digits d2) ->
      Hit_new ndebug m href msa0 ch qix six
      = Throw "Alignment ID should contain position")
  /\ (m_seq qs <> [] -> edge_free (m_seq qs) -> ranged_id (m_id ss) ->
      anchored (m_seq qs) (m_seq ss) ->
      returns (Hit_new ndebug m href msa0 ch qix six)).
Proof.
  intros Hq Hs Hlen. unfold Hit_new, vec_at. rewrite Hq, Hs. cbn [bind].
  destruct (m_seq qs) as [|q0 q] eqn:Eq.
  { split; [reflexivity|]. repeat split; intros H; congruence. }
  destruct (m_seq ss) as [|s0 s] eqn:Es; [discriminate Hlen|].
  cbn [nonempty negb orb].
  split; [discriminate|].
  rewrite !char_at_total by (cbn [length]; lia). cbn [bind].
  unfold edge_free.
  destruct (is_gap (nth 0 (q0 :: q) zero)
            || is_gap (nth (length (q0 :: q) - 1) (q0 :: q) zero)) eqn:Eg.
  { split; [reflexivity|]. apply orb_true_iff in Eg.
    repeat split; intros _ [H1 H2]; destruct Eg; congruence. }
  apply orb_false_elim in Eg. split; [intros _ H; exfalso; apply H; exact Eg|].
  unfold assert. rewrite Hlen, Nat.eqb_refl, orb_true_r. cbn [bind].
  split.
  - intros _ _ Hno.
    destruct (parse_hit_id (m_id ss)) as [[[n d1] d2]|] eqn:Ep; [|reflexivity].
    apply parse_hit_id_form in Ep. destruct Ep as (Hn & H1 & H2 & Hid).
    destruct (Hno n d1 d2) as [H|[H|[H|H]]]; contradiction.
  - intros _ _ (n & d1 & d2 & Hn & H1 & H2 & Hid & R1 & R2) Ha.
    rewrite (proj2 (parse_hit_id_form (m_id ss) n d1 d2)) by (split; [exact Hn|split; [exact H1|split; [exact H2|exact Hid]]]).
    unfold lexical_cast_uint32.
    rewrite (proj2 (Z.ltb_lt _ _) R1), (proj2 (Z.ltb_lt _ _) R2). cbn [bind].
    destruct (trim_front_total (q0 :: q) (s0 :: s) ltac:(lia))
      as (k & -> & Hk & Hg & Hn0). cbn [bind].
    destruct (trim_back_total (length (q0 :: q) - k) (rev (blank k (s0 :: s))))
      as (t & -> & Ht).
    { rewrite length_rev, blank_length. lia. }
    cbn [bind].
    match goal with
    | |- returns (bind (walk_loop ?nd ?mm ?qq ?sb ?n ?i ?w0) _) =>
        destruct (walk_loop_returns nd mm qq sb n i w0) as (w & ->)
    end.
    + lia.
    + lia.
    + cbn [w_s]. rewrite blank_back_length, blank_length. exact Hlen.
    + intros _ Hpos. apply Ha; [lia|exact Hg|]. apply Hn0. lia.
    + cbn [bind]. eexists. reflexivity.
Qed.

(** ** The threshold table, and the profile of hh-hssp.cpp *)

Lemma threshold_index_range (s : seq) : threshold_index s < 71.
Proof. unfold threshold_index. lia. Qed.

Lemma threshold_table_decreasing :
  forallb (fun i => forallb (fun j => (j <? i)
                                      || SFleb (nth j kHomologyThreshold S754_nan)
                                               (nth i kHomologyThreshold S754_nan))
                            (List.seq 0 71))
          (List.seq 0 71) = true.
Proof. vm_compute. reflexivity. Qed.

(** X12: the threshold table is read inside its 71 entries, and the
    threshold never rises with the number of compared columns. *)
Theorem threshold_never_rises (s s' : seq) :
  (m_length s <= m_length s')%Z ->
  threshold_index s < length kHomologyThreshold
  /\ threshold_index s <= threshold_index s'
  /\ SFleb (nth (threshold_index s') kHomologyThreshold S754_nan)
           (nth (threshold_index s) kHomologyThreshold S754_nan) = true.
Proof.
  intros H. pose proof (threshold_index_range s) as R.
  pose proof (threshold_index_range s') as R'.
  assert (threshold_index s <= threshold_index s') as Hle
    by (unfold threshold_index; lia).
  split; [exact R|]. split; [exact Hle|].
  pose proof threshold_table_decreasing as T.
  rewrite forallb_forall in T.
  assert (In (threshold_index s) (List.seq 0 71)) as I1 by (apply in_seq; lia).
  assert (In (threshold_index s') (List.seq 0 71)) as I2 by (apply in_seq; lia).
  specialize (T _ I1). rewrite forallb_forall in T. specialize (T _ I2).
  apply orb_true_iff in T. destruct T as [T|T]; [|exact T].
  apply Nat.ltb_lt in T. lia.
Qed.

(** X13: with its table of 71 entries, [hit::IdentityAboveThreshold] reads
    the table at [max(10, min(lali, 80)) - 10], the entry [ReadStockholm]
    reads for as many compared columns: its assertion holds and the hit is
    kept when its identity is above that entry. *)
Theorem IdentityAboveThreshold_slot (ndebug : bool) (table : list spec_float)
    (h : HH.hit) :
  length table = 71 ->
  (0 <= HH.lali h < 2 ^ 32)%Z ->
  HH.threshold_slot (HH.lali h)
  = Z.of_nat (threshold_index (mkseq [] [] 0 (HH.lali h)))
  /\ HH.IdentityAboveThreshold ndebug table h
     = Ok (SFltb (nth (threshold_index (mkseq [] [] 0 (HH.lali h))) table S754_nan)
                 (F64.of_f32 (HH.ide h))).
Proof.
  intros Ht Hl.
  assert (HH.threshold_slot (HH.lali h)
          = Z.of_nat (threshold_index (mkseq [] [] 0 (HH.lali h)))) as E.
  { unfold HH.threshold_slot, threshold_index. cbn [m_length].
    destruct (Z.ltb_spec (HH.lali h) 10); [lia|].
    destruct (Z.ltb_spec 80 (HH.lali h)); [lia|].
    rewrite u32_small by lia. lia. }
  split; [exact E|].
  unfold HH.IdentityAboveThreshold. rewrite E, Ht, Nat2Z.id.
  pose proof (threshold_index_range (mkseq [] [] 0 (HH.lali h))) as R.
  unfold assert.
  replace (Z.of_nat (threshold_index (mkseq [] [] 0 (HH.lali h))) <? Z.of_nat 71)%Z
    with true by (symmetry; apply Z.ltb_lt; lia).
  rewrite orb_true_r. cbn [bind]. unfold vec_at.
  destruct (nth_error table _) as [t|] eqn:En.
  - cbn [bind]. now rewrite (nth_error_nth _ _ _ En).
  - apply nth_error_None in En. lia.
Qed.

(** X14: the [switch] of [CreateResidueHInfo] places the twenty letters in
    the columns [kIX] gives them; it has no case for a lower-case letter,
    which [kIX] places with its upper-case form. *)
Theorem letter_slot_kIX (c : ascii) :
  match HH.letter_slot c with
  | Some a => kIX_at c = Z.of_nat a /\ is_upper c = true
  | None => is_upper c = true -> kIX_at c = (-1)%Z
  end.
Proof.
  destruct c as [[|] [|] [|] [|] [|] [|] [|] [|]]; vm_compute;
    first [split; reflexivity | intros; first [reflexivity | discriminate]].
Qed.

Lemma letter_slot_range (c : ascii) (a : nat) : HH.letter_slot c = Some a -> a < 20.
Proof.
  unfold HH.letter_slot.
  repeat match goal with
         | |- context [if ?b then _ else _] => destruct b
         end; intros [= <-] || discriminate; lia.
Qed.

Lemma zsum_update (a : nat) (d : list Z) :
  Forall (fun x => 0 <= x)%Z d -> a < length d ->
  (nth a d 0 <= zsum d)%Z
  /\ zsum (update a (fun x => x + 1)%Z d) = (zsum d + 1)%Z
  /\ Forall (fun x => 0 <= x)%Z (update a (fun x => x + 1)%Z d).
Proof.
  intros H; revert a; induction H as [|x d Hx H IH]; intros [|a] Ha;
    cbn [length] in Ha; try lia; cbn [nth update zsum fold_right].
  - assert (0 <= zsum d)%Z.
    { clear -H. induction H; cbn [zsum fold_right]; [lia|]. unfold zsum in *. lia. }
    unfold zsum in *. repeat split; try lia. constructor; [lia|exact H].
  - destruct (IH a ltac:(lia)) as (H1 & H2 & H3). unfold zsum in *.
    repeat split; try lia. constructor; [exact Hx|exact H3].
Qed.

Lemma update_ext {A} (a : nat) (f g : A -> A) (d : list A) :
  (forall x, nth_error d a = Some x -> f x = g x) -> update a f d = update a g d.
Proof.
  revert a; induction d as [|x d IH]; intros [|a] H; cbn [update]; auto.
  - f_equal. apply H. reflexivity.
  - f_equal. apply IH. intros y Hy. apply H. exact Hy.
Qed.

Lemma tally_spec (seqNo : Z) (pos : nat) (hits : list HH.hit) :
  Forall (fun h => pos <= length (HH.seq h)) hits ->
  forall (n : Z) (d : list Z),
  length d = 20 -> Forall (fun x => 0 <= x)%Z d ->
  (zsum d + 1 <= n)%Z -> (n + Z.of_nat (length hits) < 2 ^ 32)%Z ->
  exists d',
    HH.tally seqNo hits pos n d = Ok ((n + count (counted seqNo pos) hits)%Z, d')
    /\ length d' = 20 /\ Forall (fun x => 0 <= x)%Z d'
    /\ zsum d' = (zsum d + count (counted seqNo pos) hits)%Z.
Proof.
  induction 1 as [|h hits Hh H IH]; intros n d Hl Hd Hs Hn.
  - exists d. unfold count. cbn. rewrite !Z.add_0_r. repeat split; auto.
  - cbn [length] in Hn. cbn [HH.tally]. unfold count, counted. cbn [filter].
    fold (counted seqNo pos).
    destruct ((seqNo <? HH.ifir h)%Z || (HH.ilas h <? seqNo)%Z); cbn [negb andb].
    + fold (count (counted seqNo pos) hits). apply IH; auto. lia.
    + rewrite (cstr_at_nth (HH.seq h) Hh). cbn [bind].
      assert (0 <= zsum d)%Z as Hz.
      { clear -Hd. induction Hd; cbn [zsum fold_right]; [lia|]. unfold zsum in *. lia. }
      destruct (HH.letter_slot (nth pos (HH.seq h) zero)) as [a|] eqn:Ea.
      * pose proof (letter_slot_range _ _ Ea) as Ra.
        destruct (zsum_update a d Hd ltac:(lia)) as (H1 & H2 & H3).
        assert (update a (fun x => u32 (x + 1)) d = update a (fun x => x + 1)%Z d) as ->.
        { apply update_ext. intros x Hx. apply u32_small.
          rewrite (nth_error_nth _ _ 0%Z Hx) in H1.
          assert (0 <= x)%Z.
          { rewrite Forall_forall in Hd. apply Hd. eapply nth_error_In; eauto. }
          lia. }
        rewrite u32_small by lia.
        destruct (IH (n + 1)%Z (update a (fun x => x + 1)%Z d)) as (d' & E & L & F & S);
          try lia; auto.
        { now rewrite update_length. }
        exists d'. cbn [length]. fold (count (counted seqNo pos) hits).
        rewrite E. repeat split; auto; [f_equal; f_equal|]; unfold count in *; lia.
      * rewrite (@u32_small (n + 1)) by lia.
        replace (n + 1 - 1)%Z with n by lia. rewrite u32_small by lia.
        fold (count (counted seqNo pos) hits). apply IH; auto. lia.
Qed.

(** X15: for hits that reach column [pos], fewer than 2^32 - 1 of them, the
    loop of [CreateResidueHInfo] leaves [nocc] at 1 plus the number of hits
    that cover the residue and hold one of the twenty letters, in upper case,
    in that column, and twenty counts that add up to that number; so [nocc]
    is at least 1 and is what the returned record holds. *)
Theorem CreateResidueHInfo_nocc (seqNo : Z) (hits : list HH.hit) (pos : nat) :
  Forall (fun h => pos <= length (HH.seq h)) hits ->
  (Z.of_nat (length hits) < 2 ^ 32 - 1)%Z ->
  exists d,
    HH.tally seqNo hits pos 1 (repeat 0%Z 20)
    = Ok ((1 + count (counted seqNo pos) hits)%Z, d)
    /\ length d = 20
    /\ zsum d = count (counted seqNo pos) hits
    /\ forall r, HH.CreateResidueHInfo seqNo hits pos = Ok r ->
                 HH.r_nocc r = (1 + count (counted seqNo pos) hits)%Z
                 /\ (1 <= HH.r_nocc r)%Z.
Proof.
  intros Hr Hn.
  assert (Forall (fun x => 0 <= x)%Z (repeat 0%Z 20)) as F0.
  { apply Forall_forall. intros x Hx. apply repeat_spec in Hx. lia. }
  destruct (tally_spec seqNo pos hits Hr 1 (repeat 0%Z 20) eq_refl F0
              ltac:(cbn; lia) ltac:(lia)) as (d & E & L & F & S).
  exists d. split; [exact E|]. split; [exact L|]. split; [exact S|].
    intros r Hret. unfold HH.CreateResidueHInfo in Hret. rewrite E in Hret.
    cbn [bind] in Hret.
    destruct (HH.percent _ d) as [d'| | | |]; cbn [bind] in Hret; try discriminate Hret.
    assert (HH.r_nocc r = (1 + count (counted seqNo pos) hits)%Z) as ->
      by (injection Hret as <-; reflexivity).
    split; [reflexivity|]. unfold count. lia.
Qed.

(** ** The lines of the report *)

Lemma div_100_step (n : nat) : 100 < n -> S ((n - 100 + 99) / 100) = (n + 99) / 100.
Proof.
  intros H. replace (n + 99) with (n - 100 + 99 + 1 * 100) by lia.
  rewrite Nat.div_add by lia. lia.
Qed.

Lemma div_100_last (n : nat) : 1 <= n <= 100 -> (n + 99) / 100 = 1.
Proof.
  intros H. symmetry. apply Nat.div_unique with (r := n - 1); lia.
Qed.

Lemma more_pieces_spec (fuel : nat) (s : Str.t) :
  length s <= fuel -> (Z.of_nat (length s) < 2 ^ 32)%Z ->
  concat (more_pieces fuel s) = s
  /\ Forall (fun p => 1 <= length p <= 100) (more_pieces fuel s)
  /\ length (more_pieces fuel s) = (length s + 99) / 100.
Proof.
  revert s; induction fuel as [|fuel IH]; intros s H Hs.
  - destruct s; [|cbn in H; lia]. cbn. repeat split; constructor.
  - destruct s as [|c s]; [cbn; repeat split; constructor|].
    cbn [more_pieces]. rewrite u32_small, Nat2Z.id by lia.
    set (n := if 100 <? length (c :: s) then 100 else length (c :: s)).
    assert (1 <= n <= 100 /\ n <= length (c :: s)) as [Hn Hn'].
    { subst n. destruct (Nat.ltb_spec 100 (length (c :: s))); cbn [length] in *; lia. }
    destruct (IH (skipn n (c :: s))) as (H1 & H2 & H3).
    { rewrite length_skipn. lia. }
    { rewrite length_skipn. lia. }
    cbn [concat]. rewrite H1, firstn_skipn. split; [reflexivity|]. split.
    + constructor; [|exact H2]. rewrite length_firstn. lia.
    + change (length (firstn n (c :: s) :: more_pieces fuel (skipn n (c :: s))))
        with (S (length (more_pieces fuel (skipn n (c :: s))))).
      rewrite H3, length_skipn.
      subst n. destruct (Nat.ltb_spec 100 (length (c :: s))) as [Hlt|Hge].
      * apply div_100_step. exact Hlt.
      * rewrite Nat.sub_diag. change ((0 + 99) / 100) with 0.
        symmetry. apply div_100_last. cbn [length] in *. lia.
Qed.

(** X16: an insertion is written in pieces of at most 100 residues that
    together are its sequence; none is empty unless the sequence is, and
    there are as few as 100 residues a line allow. *)
Theorem insertion_pieces_spec (s : Str.t) :
  (Z.of_nat (length s) < 2 ^ 32)%Z ->
  concat (insertion_pieces s) = s
  /\ Forall (fun p => length p <= 100) (insertion_pieces s)
  /\ (s <> [] -> Forall (fun p => p <> []) (insertion_pieces s))
  /\ length (insertion_pieces s) = Nat.max 1 ((length s + 99) / 100).
Proof.
  intros Hlen.
  unfold insertion_pieces. destruct (Nat.leb_spec (length s) 100) as [Hle|Hgt].
  - cbn [concat]. rewrite app_nil_r. split; [reflexivity|].
    split; [constructor; [exact Hle|constructor]|].
    split; [intros Hs; constructor; [exact Hs|constructor]|].
    change (length [s]) with 1.
    destruct s as [|c s]; [reflexivity|].
    rewrite div_100_last by (cbn [length] in *; lia). reflexivity.
  - destruct (more_pieces_spec (length s) (skipn 100 s)) as (H1 & H2 & H3).
    { rewrite length_skipn. lia. }
    { rewrite length_skipn. lia. }
    cbn [concat]. rewrite H1, firstn_skipn. split; [reflexivity|]. split; [|split].
    + constructor; [rewrite length_firstn; lia|].
      eapply Forall_impl; [|exact H2]. cbn. intros p Hp. lia.
    + intros _. constructor.
      * intros E. apply (f_equal (@length ascii)) in E. rewrite length_firstn in E.
        cbn [length] in E. lia.
      * eapply Forall_impl; [|exact H2]. cbn. intros p Hp E. subst p. cbn in Hp. lia.
    + change (length (firstn 100 s :: more_pieces (length s) (skipn 100 s)))
        with (S (length (more_pieces (length s) (skipn 100 s)))).
      rewrite H3, length_skipn, (div_100_step (length s) Hgt).
      assert (1 <= (length s + 99) / 100); [|lia].
      rewrite <- (div_100_step (length s) Hgt). lia.
Qed.

Lemma alignment_blocks_chain (size : Z) :
  (size + 70 < 2 ^ 32)%Z ->
  forall (fuel : nat) (i : Z),
  (0 <= i < size)%Z -> (size - i <= 70 * Z.of_nat fuel)%Z ->
  chained i (alignment_blocks fuel i size) size.
Proof.
  intros Hs. induction fuel as [|fuel IH]; intros i Hi Hf; [lia|].
  cbn [alignment_blocks].
  replace (i <? size)%Z with true by (symmetry; apply Z.ltb_lt; lia).
  rewrite u32_small by lia. cbn [chained].
  destruct (Z.ltb_spec size (i + 70)) as [Hlt|Hge].
  - split; [reflexivity|]. split; [lia|]. split; [lia|].
    destruct fuel; cbn [alignment_blocks chained]; [reflexivity|].
    replace (i + 70 <? size)%Z with false by (symmetry; apply Z.ltb_ge; lia).
    reflexivity.
  - split; [reflexivity|]. split; [lia|]. split; [lia|].
    destruct (Z.eq_dec (i + 70) size) as [E|E].
    + destruct fuel; cbn [alignment_blocks chained]; [exact E|].
      replace (i + 70 <? size)%Z with false by (symmetry; apply Z.ltb_ge; lia).
      exact E.
    + apply IH; lia.
Qed.

(** X17: for fewer than 2^32 - 70 hits, the blocks of the ALIGNMENTS section
    follow one another from the first hit to the last, each of 70 hits but
    for the last one, which holds the rest. *)
Theorem alignment_blocks_cover (size : Z) :
  (0 <= size)%Z -> (size + 70 < 2 ^ 32)%Z ->
  chained 0 (alignment_blocks (Z.to_nat size) 0 size) size.
Proof.
  intros H0 Hs. destruct (Z.eq_dec size 0) as [->|Hn]; [reflexivity|].
  apply alignment_blocks_chain; lia.
Qed.

(** ** ChainToHits *)

Lemma ResidueHInfo_new_fields (ndebug : bool) (log : spec_float -> spec_float)
    (st : list mseq) (a : ascii) (hits : list Hit) (p : nat) (ch : ascii)
    (sn pn : Z) (ds : Str.t) (cw : spec_float) (r : ResidueHInfo) :
  ResidueHInfo_new ndebug log st a hits p ch sn pn ds cw = Ok r ->
  letter r = a /\ r_chain r = ch /\ dssp r = ds /\ seqNr r = sn /\ pdbNr r = pn
  /\ pos r = p /\ consweight r = cw.
Proof.
  unfold ResidueHInfo_new. intros H.
  destruct (assert ndebug _); cbn [bind] in H; try discriminate H.
  destruct (count_hits _ _ _ _ _) as [[no d2]| | | |]; cbn [bind] in H; try discriminate H.
  destruct (percentages _ _ _ _) as [[d3 e]| | | |]; cbn [bind] in H; try discriminate H.
  destruct hits as [|front hits']; [discriminate H|].
  destruct (vec_at st (msa front)) as [al| | | |]; cbn [bind] in H; try discriminate H.
  destruct (vec_at al 0) as [q| | | |]; cbn [bind] in H; try discriminate H.
  match type of H with
  | bind ?x _ = _ => destruct x as [gap| | | |]
  end; cbn [bind] in H; try discriminate H.
  destruct (count_indels _ _ _ _ _ _) as [[nd ni]| | | |]; cbn [bind] in H;
    try discriminate H.
  injection H as <-. repeat split.
Qed.

Lemma numbered_entries_snoc (res : list res_entry) (e : res_entry) :
  numbered_entries res -> entry_seqNr e = (Z.of_nat (length res) + 1)%Z ->
  numbered_entries (res ++ [e]).
Proof.
  intros H He k x Hk. destruct (Nat.lt_ge_cases k (length res)) as [Hlt|Hge].
  - rewrite nth_error_app1 in Hk by exact Hlt. now apply H.
  - rewrite nth_error_app2 in Hk by exact Hge.
    destruct (k - length res) as [|n] eqn:E; cbn in Hk.
    + injection Hk as <-. rewrite He. f_equal. lia.
    + destruct n; discriminate Hk.
Qed.

Section ResidueLoop.

Variable ndebug : bool.
Variable log : spec_float -> spec_float.
Variable alignments : list mseq.
Variable ch : ascii.
Variable hits : list Hit.
Variable a : mseq.
Variable w : nat -> nat -> spec_float.

Lemma residue_loop_spec (cols : list (nat * ascii)) :
  forall (prev : option MResidue) (ri : list MResidue) (res : list res_entry)
         (ri' : list MResidue) (res' : list res_entry),
  residue_loop ndebug log alignments ch hits a w cols prev ri res = Ok (ri', res') ->
  exists used added,
    ri = used ++ ri' /\ res' = res ++ added
    /\ map letter (residues_of added)
       = filter (fun c => negb (is_gap c)) (map snd cols)
    /\ map pos (residues_of added)
       = map fst (filter (fun x => negb (is_gap (snd x))) cols)
    /\ map pdbNr (residues_of added) = map (fun r => u32 (GetNumber r)) used
    /\ Forall (fun r => r_chain r = ch) (residues_of added)
    /\ ((Z.of_nat (length res') < 2 ^ 32)%Z -> numbered_entries res ->
        numbered_entries res').
Proof.
  induction cols as [|[i c] cols IH]; intros prev ri res ri' res' H;
    cbn [residue_loop] in H.
  - injection H as <- <-. exists [], []. rewrite app_nil_r.
    repeat split; auto.
  - cbn [map snd filter fst]. destruct (is_gap c) eqn:Gc; cbn [negb].
    + exact (IH prev ri res ri' res' H).
    + destruct (assert ndebug (nonempty ri)); cbn [bind] in H; try discriminate H.
      destruct ri as [|r ri0]; [discriminate H|].
      set (res1 := match prev with
                   | Some p => if (GetNumber p + 1 <? GetNumber r)%Z
                               then res ++ [ChainBreak (u32 (Z.of_nat (length res) + 1))]
                               else res
                   | None => res
                   end) in H.
      destruct (substr 5 34 (ResidueToDSSPLine r)) as [ds| | | |]; cbn [bind] in H;
        try discriminate H.
      destruct (CalculateConservation w i a) as [cw| | | |]; cbn [bind] in H;
        try discriminate H.
      destruct (ResidueHInfo_new _ _ _ _ _ _ _ _ _ _ _) as [info| | | |] eqn:Ei;
        cbn [bind] in H; try discriminate H.
      apply ResidueHInfo_new_fields in Ei.
      destruct Ei as (El & Ec & _ & Es & Ep & Epos & _).
      destruct (IH (Some r) ri0 (res1 ++ [Residue info]) ri' res' H)
        as (used & added & Hu & Ha & HL & HP & HN & HC & HNum).
      assert (exists brk, res1 = res ++ brk /\ residues_of brk = []
                          /\ ((Z.of_nat (length res1) < 2 ^ 32)%Z ->
                              numbered_entries res -> numbered_entries res1))
        as (brk & Hb & Hbr & Hbn).
      { subst res1. destruct prev as [p|].
        - destruct (GetNumber p + 1 <? GetNumber r)%Z.
          + eexists. split; [reflexivity|]. split; [reflexivity|].
            intros Hlen Hn. apply numbered_entries_snoc; [exact Hn|].
            cbn [entry_seqNr]. apply u32_small.
            rewrite length_app in Hlen. cbn [length] in Hlen. lia.
          + exists []. rewrite app_nil_r. repeat split; auto.
        - exists []. rewrite app_nil_r. repeat split; auto. }
      exists (r :: used), (brk ++ [Residue info] ++ added).
      assert (residues_of (brk ++ [Residue info] ++ added) = info :: residues_of added)
        as Hres.
      { unfold residues_of. rewrite !flat_map_app. fold (residues_of brk).
        rewrite Hbr. reflexivity. }
      rewrite Hres. cbn [map].
      split; [cbn [app]; now rewrite Hu|].
      split; [rewrite Ha, Hb, <- !app_assoc; reflexivity|].
      split; [now rewrite El, HL|].
      split; [now rewrite Epos, HP|].
      split; [now rewrite Ep, HN|].
      split; [constructor; [exact Ec|exact HC]|].
      intros Hlen Hn. apply HNum; [exact Hlen|].
      assert (Z.of_nat (length res1) + 1 < 2 ^ 32)%Z as Hl1.
      { rewrite Ha, !length_app in Hlen. cbn [length] in Hlen. lia. }
      apply numbered_entries_snoc; [apply Hbn; [lia|exact Hn]|].
      cbn [entry_seqNr]. rewrite Es. apply u32_small. lia.
Qed.

End ResidueLoop.

Lemma Hit_new_rows (ndebug : bool) (m : ascii -> ascii -> Z) (href : nat)
    (msa0 : mseq) (ch : ascii) (qix six : nat) (h : Hit) (msa' : mseq) :
  Hit_new ndebug m href msa0 ch qix six = Ok (h, msa') ->
  msa h = href /\ ix h = six /\ chain h = ch
  /\ length msa' = length msa0
  /\ forall j, j <> six -> nth_error msa' j = nth_error msa0 j.
Proof.
  intros H.
  assert (exists qs ss, nth_error msa0 qix = Some qs /\ nth_error msa0 six = Some ss)
    as (qs & ss & Hq & Hs).
  { unfold Hit_new, vec_at in H.
    destruct (nth_error msa0 qix) as [qs|]; [|discriminate H].
    destruct (nth_error msa0 six) as [ss|]; [|discriminate H]. eauto. }
  destruct (Hit_new_inv ndebug m href msa0 ch qix six h msa' qs ss Hq Hs H)
    as (name & d1 & d2 & k & t & w & _ & _ & _ & _ & _ & _ & -> & ->).
  cbn [msa ix chain]. repeat split.
  - apply update_length.
  - intros j Hj. apply nth_error_update_ne. congruence.
Qed.

Section MakeHits.

Variable ndebug : bool.
Variable m : ascii -> ascii -> Z.
Variable db : Databank.

Lemma make_hits_spec (href : nat) (ch : ascii) (rows : list nat) :
  forall (a : mseq) (hits : list Hit) (a' : mseq) (hits' : list Hit),
  make_hits ndebug m db href ch rows a hits = Ok (a', hits') ->
  exists new,
    hits' = hits ++ new
    /\ Forall2 (fun i h => ix h = i /\ msa h = href /\ chain h = ch) rows new
    /\ length a' = length a
    /\ forall j, ~ In j rows -> nth_error a' j = nth_error a j.
Proof.
  induction rows as [|i rows IH]; intros a hits a' hits' H; cbn [make_hits] in H.
  - injection H as <- <-. exists []. rewrite app_nil_r. repeat split; auto.
  - destruct (Hit_new ndebug m href a ch 0 i) as [[h a1]| | | |] eqn:Eh; cbn [bind] in H;
      try discriminate H.
    destruct (Hit_new_rows _ _ _ _ _ _ _ _ _ Eh) as (Hm & Hi & Hc & Hl & Hr).
    destruct (GetDocumentNr db (id h)) as [docNr| | | |]; cbn [bind] in H;
      try discriminate H.
    destruct (GetMetaData db docNr (str "title")) as [title| | | |]; cbn [bind] in H;
      try discriminate H.
    destruct (catch_all _ _) as [[id1 acc1]| | | |]; cbn [bind] in H; try discriminate H.
    destruct (GetSequence db docNr 0) as [sq| | | |]; cbn [bind] in H; try discriminate H.
    destruct (IH _ _ _ _ H) as (new & Hn & HF & Hl' & Hr').
    eexists (_ :: new). split; [rewrite Hn, <- app_assoc; reflexivity|].
    split; [constructor; [cbn [ix msa chain]; auto|exact HF]|].
    split; [congruence|].
    intros j Hj. rewrite Hr' by (intros Hin; apply Hj; now right).
    apply Hr. intros ->. apply Hj. now left.
Qed.

End MakeHits.

Lemma numbered_snd {A} (l : list A) : map snd (numbered l) = l.
Proof.
  unfold numbered. generalize 0 as n.
  induction l as [|x l IH]; intros n; cbn [length List.seq combine map snd];
    [reflexivity|]. now rewrite IH.
Qed.

(** X18: [ChainToHits] adds one hit for every row of the alignment after the
    query, in the order of the rows; each refers to its row, to this
    alignment and to the chain; no other alignment is touched, and in this
    one the query row is left as it was. *)
Theorem ChainToHits_hits (ndebug : bool) (m : ascii -> ascii -> Z)
    (log : spec_float -> spec_float) (db : Databank) (alignments : list mseq)
    (href : nat) (chn : MChain) (hits : list Hit) (res : list res_entry)
    (alignments' : list mseq) (hits' : list Hit) (res' : list res_entry) (a : mseq) :
  nth_error alignments href = Some a ->
  ChainToHits ndebug m log db alignments href chn hits res
  = Ok (alignments', hits', res') ->
  exists new a',
    hits' = hits ++ new
    /\ length new = length a - 1
    /\ (forall k h, nth_error new k = Some h ->
          ix h = S k /\ msa h = href /\ chain h = GetChainID chn)
    /\ nth_error alignments' href = Some a'
    /\ length a' = length a
    /\ nth_error a' 0 = nth_error a 0
    /\ forall j, j <> href -> nth_error alignments' j = nth_error alignments j.
Proof.
  intros Ha H. unfold ChainToHits, vec_at in H. rewrite Ha in H. cbn [bind] in H.
  destruct (make_hits _ _ _ _ _ _ _ _) as [[a1 hits1]| | | |] eqn:Em; cbn [bind] in H;
    try discriminate H.
  destruct (make_hits_spec _ _ _ _ _ _ _ _ _ _ Em) as (new & Hn & HF & Hl & Hr).
  destruct (weight_table ndebug a1) as [table| | | |]; cbn [bind] in H;
    try discriminate H.
  destruct a1 as [|front a1]; [discriminate H|].
  destruct (residue_loop _ _ _ _ _ _ _ _ _ _ _) as [[ri res1]| | | |]; cbn [bind] in H;
    try discriminate H.
  destruct (assert ndebug _); cbn [bind] in H; try discriminate H.
  injection H as <- <- <-.
  exists new, (front :: a1). split; [exact Hn|].
  split; [rewrite <- (Forall2_length HF); apply length_seq|].
  split.
  { intros k h Hk.
    assert (exists i, nth_error (List.seq 1 (length a - 1)) k = Some i
                      /\ ix h = i /\ msa h = href /\ chain h = GetChainID chn)
      as (i & Hi & Hp).
    { clear -HF Hk. revert k Hk. induction HF as [|i x rows new Hx HF IH];
        intros [|k] Hk; cbn in Hk; try discriminate Hk.
      - injection Hk as <-. exists i. split; [reflexivity|exact Hx].
      - destruct (IH k Hk) as (j & Hj & Hp). exists j. split; [exact Hj|exact Hp]. }
    assert (k < length (List.seq 1 (length a - 1))) as Hlt
      by (apply nth_error_Some; congruence).
    rewrite length_seq in Hlt.
    rewrite (nth_error_nth' _ 0) in Hi by (rewrite length_seq; exact Hlt).
    rewrite seq_nth in Hi by exact Hlt. injection Hi as <-.
    destruct Hp as (-> & -> & ->). repeat split. }
  split.
  { rewrite nth_error_update_eq, Ha. reflexivity. }
  split; [exact Hl|].
  split.
  { apply Hr. rewrite in_seq. lia. }
  intros j Hj. apply nth_error_update_ne. congruence.
Qed.

(** X19: [ChainToHits] keeps the entries numbered from 1 on: when those it is
    given are, and fewer than 2^32 are left in the end, those it returns are,
    the chain breaks among them; what it is given is left in front. *)
Theorem ChainToHits_numbering (ndebug : bool) (m : ascii -> ascii -> Z)
    (log : spec_float -> spec_float) (db : Databank) (alignments : list mseq)
    (href : nat) (chn : MChain) (hits : list Hit) (res : list res_entry)
    (alignments' : list mseq) (hits' : list Hit) (res' : list res_entry) :
  ChainToHits ndebug m log db alignments href chn hits res
  = Ok (alignments', hits', res') ->
  numbered_entries res ->
  (Z.of_nat (length res') < 2 ^ 32)%Z ->
  numbered_entries res' /\ exists added, res' = res ++ added.
Proof.
  intros H Hn Hlen. unfold ChainToHits in H.
  destruct (vec_at alignments href) as [a| | | |]; cbn [bind] in H; try discriminate H.
  destruct (make_hits _ _ _ _ _ _ _ _) as [[a1 hits1]| | | |]; cbn [bind] in H;
    try discriminate H.
  destruct (weight_table ndebug a1) as [table| | | |]; cbn [bind] in H;
    try discriminate H.
  destruct a1 as [|front a1]; [discriminate H|].
  destruct (residue_loop _ _ _ _ _ _ _ _ _ _ _) as [[ri res1]| | | |] eqn:Er;
    cbn [bind] in H; try discriminate H.
  destruct (assert ndebug _); cbn [bind] in H; try discriminate H.
  injection H as <- <- <-.
  destruct (residue_loop_spec _ _ _ _ _ _ _ _ _ _ _ _ _ Er)
    as (used & added & _ & Ha & _ & _ & _ & _ & HNum).
  split; [apply HNum; auto|]. now exists added.
Qed.

(** X20: the entries [ChainToHits] adds that are not chain breaks are one for
    every residue of the query row, in order: each holds the letter and the
    column of its residue, the id of the chain, and the number of the residue
    of the chain it stands for; in a build with assertions the chain has
    exactly as many residues as the query row. *)
Theorem ChainToHits_residues (ndebug : bool) (m : ascii -> ascii -> Z)
    (log : spec_float -> spec_float) (db : Databank) (alignments : list mseq)
    (href : nat) (chn : MChain) (hits : list Hit) (res : list res_entry)
    (alignments' : list mseq) (hits' : list Hit) (res' : list res_entry)
    (a : mseq) (q : seq) :
  nth_error alignments href = Some a ->
  nth_error a 0 = Some q ->
  ChainToHits ndebug m log db alignments href chn hits res
  = Ok (alignments', hits', res') ->
  exists added,
    res' = res ++ added
    /\ map letter (residues_of added) = strip_gaps (m_seq q)
    /\ map pos (residues_of added)
       = map fst (filter (fun x => negb (is_gap (snd x))) (numbered (m_seq q)))
    /\ Forall (fun r => r_chain r = GetChainID chn) (residues_of added)
    /\ map pdbNr (residues_of added)
       = map (fun r => u32 (GetNumber r))
             (firstn (length (strip_gaps (m_seq q))) (GetResidues chn))
    /\ (ndebug = false -> length (GetResidues chn) = length (strip_gaps (m_seq q))).
Proof.
  intros Ha Hq H. unfold ChainToHits, vec_at in H. rewrite Ha in H. cbn [bind] in H.
  destruct (make_hits _ _ _ _ _ _ _ _) as [[a1 hits1]| | | |] eqn:Em; cbn [bind] in H;
    try discriminate H.
  destruct (make_hits_spec _ _ _ _ _ _ _ _ _ _ Em) as (new & _ & _ & _ & Hr).
  destruct (weight_table ndebug a1) as [table| | | |]; cbn [bind] in H;
    try discriminate H.
  destruct a1 as [|front a1]; [discriminate H|].
  assert (front = q) as ->.
  { assert (~ In 0 (List.seq 1 (length a - 1))) as H0 by (rewrite in_seq; lia).
    pose proof (Hr 0 H0) as E. rewrite Hq in E. now injection E. }
  destruct (residue_loop _ _ _ _ _ _ _ _ _ _ _) as [[ri res1]| | | |] eqn:Er;
    cbn [bind] in H; try discriminate H.
  destruct (assert ndebug (negb (nonempty ri))) eqn:Eas; cbn [bind] in H;
    try discriminate H.
  injection H as <- <- <-.
  destruct (residue_loop_spec _ _ _ _ _ _ _ _ _ _ _ _ _ Er)
    as (used & added & Hu & Hadd & HL & HP & HN & HC & _).
  rewrite (numbered_snd (m_seq q)) in HL. fold (strip_gaps (m_seq q)) in HL.
  assert (length used = length (strip_gaps (m_seq q))) as Hlu.
  { rewrite <- HL, length_map. rewrite <- (length_map pdbNr), HN.
    symmetry. apply length_map. }
  exists added. split; [exact Hadd|]. split; [exact HL|]. split; [exact HP|].
  split; [exact HC|]. split.
  - rewrite HN, Hu, <- Hlu, firstn_app, firstn_all, Nat.sub_diag. cbn [firstn].
    now rewrite app_nil_r.
  - intros ->. unfold assert in Eas. cbn [orb] in Eas.
    destruct ri as [|r ri]; [|discriminate Eas].
    rewrite Hu, app_nil_r. exact Hlu.
Qed.

(** ** Rows cut alike, and the occupancy of a column *)

Lemma map_outcome_Ok {A B} (f : A -> outcome B) (l : list A) (r : list B) :
  map_outcome f l = Ok r -> Forall2 (fun x y => f x = Ok y) l r.
Proof.
  revert r; induction l as [|x l IH]; intros r H; cbn [map_outcome] in H.
  - injection H as <-. constructor.
  - destruct (f x) as [y| | | |] eqn:E; cbn [bind] in H; try discriminate H.
    destruct (map_outcome f l) as [r'| | | |]; cbn [bind] in H; try discriminate H.
    injection H as <-. constructor; [exact E|]. now apply IH.
Qed.

Lemma Forall2_map_l {A B C} (R : B -> C -> Prop) (f : A -> B) (l : list A) (r : list C) :
  Forall2 (fun x y => R (f x) y) l r -> Forall2 R (map f l) r.
Proof. induction 1; cbn; constructor; auto. Qed.

Lemma Forall2_same {A} (R : A -> A -> Prop) (l : list A) :
  (forall x, R x x) -> Forall2 R l l.
Proof. intros H. induction l; constructor; auto. Qed.

(** X21: when [CheckAlignmentForChain] returns, every row has lost the same
    columns: as many at the front as the query has residues before the
    sequence of the chain, as many at the back as it has after it; ids and
    counters are kept. *)
Theorem CheckAlignmentForChain_same_cut (front : seq) (rest : mseq) (sc : Str.t)
    (a : mseq) :
  (Z.of_nat (length (m_seq front)) < 2 ^ 32)%Z ->
  CheckAlignmentForChain (front :: rest) sc = Ok a ->
  exists x y,
    strip_gaps (m_seq front) = x ++ sc ++ y
    /\ Forall2 (cut_row (length x) (length y)) (front :: rest) a.
Proof.
  intros Hlen H. unfold CheckAlignmentForChain in H.
  set (sa := strip_gaps (m_seq front)) in *.
  assert (length sa <= length (m_seq front)) as Hsa by apply filter_length_le.
  destruct (Str.eqb sa sc) eqn:E.
  { apply Str_eqb_eq in E. injection H as <-. exists [], [].
    split; [now rewrite app_nil_r|].
    apply Forall2_same. intros row. unfold cut_row. cbn [length skipn].
    rewrite !Nat.sub_0_r, firstn_all. repeat split. }
  destruct (length sa <? length sc); [discriminate H|].
  destruct (Str.find sa sc) as [offset|] eqn:Ef; [|discriminate H].
  destruct (find_Some _ _ _ Ef) as (x & y & Hs & Hx).
  assert (length sa = offset + length sc + length y) as Hl.
  { rewrite Hs, !length_app. lia. }
  exists x, y. split; [exact Hs|]. rewrite Hx.
  set (msa1 := if 0 <? offset then map (erase_front offset) (front :: rest)
               else front :: rest) in H.
  assert (Forall2 (cut_row offset 0) (front :: rest) msa1) as H1.
  { subst msa1. destruct (0 <? offset) eqn:Eo.
    - apply Forall2_flip, Forall2_map_l, Forall2_same.
      intros row. unfold cut_row. cbn [erase_front m_id m_identical m_length m_seq].
      repeat split. rewrite Nat.sub_0_r, <- length_skipn. symmetry. apply firstn_all.
    - apply Nat.ltb_ge in Eo. assert (offset = 0) as -> by lia.
      apply Forall2_same. intros row. unfold cut_row. cbn [skipn].
      rewrite !Nat.sub_0_r, firstn_all. repeat split. }
  destruct (length sc + offset <? length sa) eqn:Ec.
  - replace (Z.to_nat (u32 (Z.of_nat (length sa - (length sc + offset)))))
      with (length y) in H by (rewrite u32_small by lia; lia).
    apply map_outcome_Ok in H.
    clear -H H1. revert a H. induction H1 as [|row r1 l l1 Hr H1 IH]; intros a H;
      inversion H as [|? r2 ? a' Hr2 H2]; subst; constructor; [|now apply IH].
    unfold erase_back in Hr2.
    destruct (length y <=? length (m_seq r1)); [|discriminate Hr2].
    injection Hr2 as <-. destruct Hr as (H3 & H4 & H5 & H6).
    unfold cut_row. cbn [m_id m_identical m_length m_seq]. repeat split; auto.
    rewrite H6, Nat.sub_0_r, length_firstn, length_skipn.
    rewrite Nat.min_id. rewrite firstn_firstn. f_equal. lia.
  - apply Nat.ltb_ge in Ec. injection H as <-.
    assert (length y = 0) as -> by lia. exact H1.
Qed.

Section OwnRows.

Variable st : list mseq.

Lemma count_hits_spec (p : nat) (hits : list Hit) :
  forall (no : Z) (d : list Z) (no' : Z) (d' : list Z),
  count_hits st hits p no d = Ok (no', d') ->
  (0 <= no)%Z -> (no + Z.of_nat (length hits) < 2 ^ 32)%Z ->
  no' = (no + count (fun h => canonical (own_char st p h)) hits)%Z.
Proof.
  induction hits as [|h hits IH]; intros no d no' d' H H0 Hn.
  - injection H as <- _. unfold count. cbn. lia.
  - cbn [count_hits] in H. cbn [length] in Hn.
    unfold vec_at in H.
    destruct (nth_error st (msa h)) as [al|] eqn:Ea; cbn [bind] in H;
      [|discriminate H].
    destruct (nth_error al (ix h)) as [row|] eqn:Er; cbn [bind] in H;
      [|discriminate H].
    assert (own_char st p h = nth p (m_seq row) zero) as Eo.
    { unfold own_char. now rewrite (nth_error_nth _ _ _ Ea), (nth_error_nth _ _ _ Er). }
    unfold cstr_at in H.
    assert (forall c, (match nth_error (m_seq row) p with
                       | Some c => Ok c
                       | None => if p =? length (m_seq row) then Ok zero else Undef
                       end) = Ok c -> c = own_char st p h) as Hc.
    { intros c Hc. rewrite Eo. destruct (nth_error (m_seq row) p) as [c0|] eqn:En.
      - injection Hc as <-. symmetry. now apply nth_error_nth.
      - apply nth_error_None in En. rewrite nth_overflow by exact En.
        destruct (p =? length (m_seq row)); congruence. }
    destruct (match nth_error (m_seq row) p with
              | Some c => Ok c
              | None => if p =? length (m_seq row) then Ok zero else Undef
              end) as [c| | | |]; cbn [bind] in H; try discriminate H.
    rewrite (Hc c eq_refl) in H.
    unfold count. cbn [filter]. unfold canonical at 1.
    destruct (negb (kIX_at (own_char st p h) =? -1)%Z).
    + apply IH in H; [|apply u32_range|rewrite u32_small by lia; lia].
      rewrite u32_small in H by lia. unfold count in H. cbn [length]. lia.
    + apply IH in H; [|lia|lia]. unfold count in H. lia.
Qed.

End OwnRows.

(** X22: in a profile built from fewer than 2^32 - 1 hits, [nocc] is 1 plus
    the number of hits that hold one of the twenty letters, in either case,
    in column [pos] of their own alignment. *)
Theorem ResidueHInfo_nocc (ndebug : bool) (log : spec_float -> spec_float)
    (st : list mseq) (a : ascii) (hits : list Hit) (p : nat) (ch : ascii)
    (sn pn : Z) (ds : Str.t) (cw : spec_float) (r : ResidueHInfo) :
  (Z.of_nat (length hits) < 2 ^ 32 - 1)%Z ->
  ResidueHInfo_new ndebug log st a hits p ch sn pn ds cw = Ok r ->
  nocc r = (1 + count (fun h => canonical (own_char st p h)) hits)%Z.
Proof.
  intros Hn H. unfold ResidueHInfo_new in H.
  destruct (assert ndebug _); cbn [bind] in H; try discriminate H.
  destruct (count_hits _ _ _ _ _) as [[no d2]| | | |] eqn:Ec; cbn [bind] in H;
    try discriminate H.
  apply count_hits_spec in Ec; [|lia|lia].
  destruct (percentages _ _ _ _) as [[d3 e]| | | |]; cbn [bind] in H; try discriminate H.
  destruct hits as [|front hits']; [discriminate H|].
  destruct (vec_at st (msa front)) as [al| | | |]; cbn [bind] in H; try discriminate H.
  destruct (vec_at al 0) as [q| | | |]; cbn [bind] in H; try discriminate H.
  match type of H with
  | bind ?x _ = _ => destruct x as [gap| | | |]
  end; cbn [bind] in H; try discriminate H.
  destruct (count_indels _ _ _ _ _ _) as [[nd ni]| | | |]; cbn [bind] in H;
    try discriminate H.
  injection H as <-. cbn [nocc]. exact Ec.
Qed.

(** ** Lowered residues in the profile and in the conservation score *)

Lemma kIX_toupper (c : ascii) : kIX_at (toupper c) = kIX_at c.
Proof. all_chars c. Qed.

Lemma kIX_range (c : ascii) :
  ((kIX_at c =? -1) || ((0 <=? kIX_at c) && (kIX_at c <? 20)))%Z = true.
Proof. all_chars c. Qed.

Lemma nth_update_eq {A} (i : nat) (f : A -> A) (v : list A) (d : A) :
  i < length v -> nth i (update i f v) d = f (nth i v d).
Proof.
  revert i; induction v as [|x v IH]; intros [|i] H; cbn [length] in H; try lia;
    cbn [update nth]; [reflexivity|]. apply IH. lia.
Qed.

Lemma nth_bump (i : Z) (d : list Z) (k : nat) :
  (0 <= i)%Z -> k < length d ->
  nth k (bump i d) 0%Z
  = if (i =? Z.of_nat k)%Z then u32 (nth k d 0%Z + 1) else nth k d 0%Z.
Proof.
  intros Hi Hk. unfold bump. destruct (i =? Z.of_nat k)%Z eqn:E.
  - apply Z.eqb_eq in E. subst i. rewrite Nat2Z.id.
    rewrite nth_update_eq by exact Hk. reflexivity.
  - apply Z.eqb_neq in E. apply nth_update_ne. lia.
Qed.

Section OwnColumn.

Variable st : list mseq.
Variable p : nat.

Lemma own_char_read (h : Hit) [c : ascii] :
  (a <- vec_at st (msa h) ;; row <- vec_at a (ix h) ;; cstr_at (m_seq row) p) = Ok c ->
  c = own_char st p h.
Proof.
  unfold vec_at, own_char. intros H.
  destruct (nth_error st (msa h)) as [al|] eqn:Ea; cbn [bind] in H; [|discriminate H].
  destruct (nth_error al (ix h)) as [row|] eqn:Er; cbn [bind] in H; [|discriminate H].
  rewrite (nth_error_nth _ _ _ Ea), (nth_error_nth _ _ _ Er).
  unfold cstr_at in H. destruct (nth_error (m_seq row) p) as [c0|] eqn:En.
  - injection H as <-. symmetry. now apply nth_error_nth.
  - apply nth_error_None in En. rewrite nth_overflow by exact En.
    destruct (p =? length (m_seq row)); congruence.
Qed.

Lemma count_hits_dist (hits : list Hit) :
  forall (no : Z) (d : list Z) (no' : Z) (d' : list Z),
  count_hits st hits p no d = Ok (no', d') ->
  (forall k, k < length d ->
             (0 <= nth k d 0 /\ nth k d 0 + Z.of_nat (length hits) < 2 ^ 32)%Z) ->
  length d' = length d
  /\ forall k, k < length d ->
       nth k d' 0%Z
       = (nth k d 0
          + count (fun h => (kIX_at (own_char st p h) =? Z.of_nat k)%Z) hits)%Z.
Proof.
  induction hits as [|h hits IH]; intros no d no' d' H Hd.
  - injection H as _ <-. split; [reflexivity|]. intros k _. unfold count. cbn. lia.
  - cbn [count_hits] in H. cbn [length] in Hd.
    destruct (a <- vec_at st (msa h) ;; row <- vec_at a (ix h) ;; cstr_at (m_seq row) p)
      as [c| | | |] eqn:Ec.
    2-5: (unfold vec_at in *;
          destruct (nth_error st (msa h)); cbn [bind] in *; try discriminate;
          destruct (nth_error _ (ix h)); cbn [bind] in *; try discriminate;
          rewrite Ec in H; discriminate H).
    pose proof (own_char_read h Ec) as Eo.
    assert (count_hits st (h :: hits) p no d
            = if negb (kIX_at c =? -1)%Z
              then count_hits st hits p (u32 (no + 1)) (bump (kIX_at c) d)
              else count_hits st hits p no d) as E.
    { cbn [count_hits]. unfold vec_at in *.
      destruct (nth_error st (msa h)); cbn [bind] in *; try discriminate.
      destruct (nth_error _ (ix h)); cbn [bind] in *; try discriminate.
      rewrite Ec. reflexivity. }
    cbn [count_hits] in E. rewrite E in H. clear E.
    pose proof (kIX_range c) as Hr.
    assert (forall k, count (fun h0 => (kIX_at (own_char st p h0) =? Z.of_nat k)%Z)
                            (h :: hits)
                      = ((if (kIX_at c =? Z.of_nat k)%Z then 1 else 0)
                         + count (fun h0 => (kIX_at (own_char st p h0) =? Z.of_nat k)%Z)
                                 hits)%Z) as Hc.
    { intros k. unfold count. cbn [filter]. rewrite <- Eo.
      destruct (kIX_at c =? Z.of_nat k)%Z; cbn [length]; lia. }
    destruct (kIX_at c =? -1)%Z eqn:E1; cbn [negb orb] in *.
    + apply Z.eqb_eq in E1.
      destruct (IH _ _ _ _ H) as [Hl Hn].
      { intros k Hk. specialize (Hd k Hk). lia. }
      split; [exact Hl|]. intros k Hk. rewrite (Hn k Hk), Hc.
      destruct (kIX_at c =? Z.of_nat k)%Z eqn:E2; [apply Z.eqb_eq in E2; lia|lia].
    + apply andb_prop in Hr. destruct Hr as [H0 H20].
      apply Z.leb_le in H0.
      assert (length (bump (kIX_at c) d) = length d) as Hlb
        by (unfold bump; apply update_length).
      destruct (IH _ _ _ _ H) as [Hl Hn].
      { intros k Hk. rewrite Hlb in Hk. rewrite (nth_bump _ _ _ H0 Hk).
        specialize (Hd k Hk).
        destruct (kIX_at c =? Z.of_nat k)%Z; [rewrite u32_small by lia|]; lia. }
      split; [congruence|]. intros k Hk.
      rewrite (Hn k) by congruence. rewrite (nth_bump _ _ _ H0 Hk), Hc.
      specialize (Hd k Hk).
      destruct (kIX_at c =? Z.of_nat k)%Z; [rewrite u32_small by lia|]; lia.
Qed.

End OwnColumn.

Lemma ResidueHInfo_counts (ndebug : bool) (log : spec_float -> spec_float)
    (st : list mseq) (a : ascii) (hits : list Hit) (p : nat) (ch : ascii)
    (sn pn : Z) (ds : Str.t) (cw : spec_float) (r : ResidueHInfo) :
  (Z.of_nat (length hits) < 2 ^ 32 - 1)%Z ->
  ResidueHInfo_new ndebug log st a hits p ch sn pn ds cw = Ok r ->
  nocc r = (1 + count (fun h => canonical (toupper (own_char st p h))) hits)%Z
  /\ percentages log (nocc r) (map (letter_count st p a hits) (List.seq 0 20))
                 (S754_zero false)
     = Ok (dist r, entropy r).
Proof.
  intros Hn H. unfold ResidueHInfo_new in H.
  destruct (assert ndebug _); cbn [bind] in H; try discriminate H.
  set (d1 := if negb (kIX_at a =? -1)%Z
             then update (Z.to_nat (kIX_at a)) (fun _ => 1%Z) (repeat 0%Z 20)
             else repeat 0%Z 20) in H.
  assert (length d1 = 20) as Hl1.
  { subst d1. destruct (negb _); [rewrite update_length|]; apply repeat_length. }
  assert (forall k, k < 20 ->
            nth k d1 0%Z = if (kIX_at a =? Z.of_nat k)%Z then 1%Z else 0%Z) as Hd1.
  { intros k Hk. subst d1. pose proof (kIX_range a) as Hr.
    assert (nth k (repeat 0%Z 20) 0%Z = 0%Z) as H0 by apply nth_repeat.
    destruct (kIX_at a =? -1)%Z eqn:E1; cbn [negb orb] in *.
    - apply Z.eqb_eq in E1. rewrite H0.
      destruct (kIX_at a =? Z.of_nat k)%Z eqn:E2; [apply Z.eqb_eq in E2; lia|reflexivity].
    - apply andb_prop in Hr. destruct Hr as [Hr _]. apply Z.leb_le in Hr.
      destruct (kIX_at a =? Z.of_nat k)%Z eqn:E2.
      + apply Z.eqb_eq in E2. rewrite E2, Nat2Z.id.
        rewrite nth_update_eq by (rewrite repeat_length; exact Hk). reflexivity.
      + apply Z.eqb_neq in E2. rewrite nth_update_ne by lia. exact H0. }
  destruct (count_hits st hits p 1 d1) as [[no d2]| | | |] eqn:Ec; cbn [bind] in H;
    try discriminate H.
  pose proof (count_hits_spec st p hits 1 d1 no d2 Ec) as Hno.
  destruct (count_hits_dist st p hits 1 d1 no d2 Ec) as [Hl2 Hd2].
  { intros k Hk. rewrite Hl1 in Hk. rewrite (Hd1 k Hk).
    destruct (kIX_at a =? Z.of_nat k)%Z; lia. }
  assert (d2 = map (letter_count st p a hits) (List.seq 0 20)) as ->.
  { apply (nth_ext _ _ 0%Z (letter_count st p a hits 0)).
    - now rewrite length_map, length_seq, Hl2.
    - intros k Hk. rewrite Hl2, Hl1 in Hk.
      rewrite map_nth, seq_nth by exact Hk. cbn [Nat.add].
      rewrite Hd2 by (rewrite Hl1; exact Hk). rewrite (Hd1 k Hk).
      unfold letter_count. rewrite kIX_toupper. f_equal.
      unfold count. f_equal. f_equal. apply filter_ext. intros h.
      now rewrite kIX_toupper. }
  destruct (percentages log no _ _) as [[d3 e]| | | |] eqn:Ep; cbn [bind] in H;
    try discriminate H.
  destruct hits as [|front hits']; [discriminate H|].
  destruct (vec_at st (msa front)) as [al| | | |]; cbn [bind] in H; try discriminate H.
  destruct (vec_at al 0) as [q| | | |]; cbn [bind] in H; try discriminate H.
  match type of H with
  | bind ?x _ = _ => destruct x as [gap| | | |]
  end; cbn [bind] in H; try discriminate H.
  destruct (count_indels _ _ _ _ _ _) as [[nd ni]| | | |]; cbn [bind] in H;
    try discriminate H.
  injection H as <-. cbn [nocc dist entropy]. split; [|exact Ep].
  rewrite Hno by lia. f_equal. unfold count. f_equal. f_equal.
  apply filter_ext. intros h. unfold canonical. now rewrite kIX_toupper.
Qed.

Lemma residues_at_upper (r : nat) (a : mseq) :
  residues_at r (numbered (map upper_row a)) = residues_at r (numbered a).
Proof.
  unfold residues_at, numbered. rewrite length_map. generalize 0 as n.
  induction a as [|s a IH]; intros n; cbn [map length List.seq combine]; [reflexivity|].
  cbn [fst snd upper_row m_seq].
  assert (kIX_at (nth r (map toupper (m_seq s)) zero) = kIX_at (nth r (m_seq s) zero))
    as E.
  { change zero with (toupper zero) at 1. rewrite map_nth. apply kIX_toupper. }
  cbn [filter]. cbn [snd]. rewrite E.
  destruct (negb _); [f_equal|]; apply IH.
Qed.

(** C10, amended: the index table [kIX] gives a lower-case letter the index
    of its upper-case form and gives -1 to every byte that is not a letter,
    the gap symbols among them.  Hence a residue [Hit::Hit] has lowered is
    counted as its upper-case form: [nocc] is 1 plus the number of hits that
    hold one of the twenty letters in the column, the distribution and the
    entropy are those of the counts of the letters, each taken in upper
    case, and [CalculateConservation] adds, for the weights it is given, the
    terms of the rows in upper case.  Two alignments that differ in the case
    of letters only agree in all of these for the same weights. *)
Theorem kIX_ignores_case :
  (forall c, is_upper c = true -> kIX_at (Str.tolower c) = kIX_at c) /\
  (forall c, is_upper c = false -> is_lower c = false -> kIX_at c = (-1)%Z) /\
  (forall c, is_gap c = true -> kIX_at c = (-1)%Z) /\
  (forall c, kIX_at (toupper c) = kIX_at c) /\
  (forall ndebug log st a hits p ch sn pn ds cw r,
      (Z.of_nat (length hits) < 2 ^ 32 - 1)%Z ->
      ResidueHInfo_new ndebug log st a hits p ch sn pn ds cw = Ok r ->
      nocc r = (1 + count (fun h => canonical (toupper (own_char st p h))) hits)%Z
      /\ percentages log (nocc r) (map (letter_count st p a hits) (List.seq 0 20))
                     (S754_zero false)
         = Ok (dist r, entropy r)) /\
  (forall w r a,
      Forall (fun s => r <= length (m_seq s)) a ->
      let ps := pairs_of (residues_at r (numbered (map upper_row a))) in
      let conservation := fsum (map (term_conservation w) ps) in
      let weight := fsum (map (term_weight w) ps) in
      CalculateConservation w r a
      = Ok (if SFeqb weight (S754_zero false) then F32.one
            else F32.div conservation weight)) /\
  (forall ndebug log st st' a hits p ch sn pn ds cw,
      same_store st st' ->
      orel (fun x y => nocc x = nocc y /\ dist x = dist y /\ entropy x = entropy y)
           (ResidueHInfo_new ndebug log st a hits p ch sn pn ds cw)
           (ResidueHInfo_new ndebug log st' a hits p ch sn pn ds cw)) /\
  (forall w r a a',
      same_rows a a' ->
      CalculateConservation w r a = CalculateConservation w r a').
Proof.
  split; [intros c _; apply kIX_tolower|].
  split; [exact kIX_non_letter|].
  split; [exact kIX_gap|].
  split; [exact kIX_toupper|].
  split; [intros; now apply (ResidueHInfo_counts ndebug log st a hits p ch sn pn ds cw)|].
  split; [|split].
  - intros w r a H ps conservation weight. subst ps.
    unfold CalculateConservation.
    rewrite (conservation_outer_sum w r (S754_zero false, S754_zero false)
               (numbered_long_enough r H)).
    cbn [bind accumulate fst snd]. subst conservation weight.
    rewrite residues_at_upper. unfold fsum.
    destruct (SFeqb _ (S754_zero false)); reflexivity.
  - intros ndebug log st st' a hits p ch sn pn ds cw H.
    pose proof (ResidueHInfo_case ndebug log st st' H a hits p ch sn pn ds cw) as R.
    destruct (ResidueHInfo_new ndebug log st a hits p ch sn pn ds cw),
             (ResidueHInfo_new ndebug log st' a hits p ch sn pn ds cw);
      simpl in *; intuition.
  - intros w r a a' H. now apply CalculateConservation_case.
Qed.

(** C10 as stated fails for the conservation score: the weights of the
    pairs of rows come from [CalculateWeight], which compares the residues
    with their case.  In the alignment below both hits hold K in column 1;
    [ChainToHits] lowers the K of the first hit, the two rows no longer count
    as equal there, and the score of the column is 0.36, where the rows in
    upper case give -0.0667. *)
Lemma conservation_follows_case :
  same_rows ex_three ex_three_marked
  /\ (exists hits res r t,
        ChainToHits false ex_zero_matrix (fun x => x) ex_db [ex_three] 0 ex_chain [] []
        = Ok ([ex_three_marked], hits, res)
        /\ nth_error res 1 = Some (Residue r)
        /\ letter r = "G"%char /\ pos r = 1
        /\ weight_table false ex_three_marked = Ok t
        /\ CalculateConservation (w_at t) 1 ex_three_marked = Ok (consweight r)
        /\ consweight r = S754_finite false 12079596 (-25))
  /\ (exists t,
        weight_table false ex_three = Ok t
        /\ CalculateConservation (w_at t) 1 ex_three
           = Ok (S754_finite true 8947849 (-27)))
  /\ CalculateWeight false ex_three 1 2 = Ok (S754_zero false)
  /\ CalculateWeight false ex_three_marked 1 2 = Ok (S754_finite false 11184810 (-24)).
Proof.
  split.
  { repeat constructor. }
  split.
  { eexists. eexists. eexists. eexists.
    split; [vm_compute; reflexivity|].
    split; [reflexivity|].
    split; [reflexivity|]. split; [reflexivity|].
    split; [vm_compute; reflexivity|].
    split; [vm_compute; reflexivity|vm_compute; reflexivity]. }
  split.
  { eexists. split; [vm_compute; reflexivity|vm_compute; reflexivity]. }
  split; [vm_compute; reflexivity|vm_compute; reflexivity].
Qed.

(** ** Worked examples *)

Lemma CalculateConservation_formula_witness :
  CalculateConservation ex_weights 0 ex_column
  = Ok (F32.div (fsum [F32.lit 15 10; F32.lit 7 10; F32.lit 7 10])
                (fsum [F32.lit 15 10; F32.lit 15 10; F32.lit 15 10]))
  /\ CalculateConservation ex_weights 0 [mkseq (str "Q") (str "AC") 0 0] = Ok F32.one.
Proof.
  split.
  - refine (proj1 (@CalculateConservation_formula ex_weights 0 ex_column _)).
    repeat constructor.
  - refine (proj1 (proj2 (@CalculateConservation_formula ex_weights 0
                            [mkseq (str "Q") (str "AC") 0 0] _)) _).
    + repeat constructor.
    + cbv. lia.
Defined.

Lemma ex_marked_same : same_store ex_upper [ex_marked "K"].
Proof.
  repeat constructor.
Qed.

Lemma kIX_ignores_case_witness :
  kIX_at "k" = kIX_at "K"
  /\ (exists r,
        ResidueHInfo_new false (fun x => x) [ex_marked "K"] "G" [ex_hit "K"] 1 "A" 2 2 []
                         F32.one = Ok r
        /\ nocc r = 2%Z
        /\ nocc r = (1 + count (fun h => canonical (toupper (own_char [ex_marked "K"] 1 h)))
                               [ex_hit "K"])%Z)
  /\ orel (fun x y => nocc x = nocc y /\ dist x = dist y /\ entropy x = entropy y)
          (ResidueHInfo_new false (fun x => x) ex_upper "G" [ex_hit "K"] 1 "A" 2 2 []
                            F32.one)
          (ResidueHInfo_new false (fun x => x) [ex_marked "K"] "G" [ex_hit "K"] 1 "A"
                            2 2 [] F32.one)
  /\ CalculateConservation ex_weights 1 (ex_rows "K")
     = CalculateConservation ex_weights 1 (ex_marked "K").
Proof.
  destruct kIX_ignores_case as (H1 & _ & _ & _ & H5 & _ & H7 & H8).
  split; [exact (H1 "K"%char eq_refl)|]. split; [|split].
  - eexists. split; [vm_compute; reflexivity|]. split; [reflexivity|].
    refine (proj1 (H5 false (fun x => x) [ex_marked "K"] "G"%char [ex_hit "K"] 1
                      "A"%char 2%Z 2%Z [] F32.one _ _ _)).
    + cbn. lia.
    + vm_compute. reflexivity.
  - apply H7. repeat constructor.
  - apply H8. repeat constructor.
Defined.

Lemma ClusterSequences_antichain_witness :
  exists s' ix',
    ClusterSequences ex_chains [0; 1; 2] = Ok (s', ix')
    /\ length s' = length ex_chains /\ length ix' = length [0; 1; 2]
    /\ antichain s'.
Proof.
  apply (ClusterSequences_antichain ex_chains [0; 1; 2]); [discriminate|].
  cbn. lia.
Defined.

Lemma ClusterSequences_entries_witness :
  (nth_error [[]; []; str "ABC"] 1 = nth_error ex_chains 1
   /\ nth_error [2; 0; 2] 1 = nth_error [0; 1; 2] 1)
  \/ (nth_error [[]; []; str "ABC"] 1 = Some [] /\ nth 1 ex_chains [] <> []
      /\ exists i, nth_error [2; 0; 2] 1 = Some i /\ i <> 1 /\ i < length ex_chains
                   /\ substring (nth 1 ex_chains []) (nth i ex_chains [])).
Proof.
  apply (ClusterSequences_entries ex_chains [0; 1; 2] [[]; []; str "ABC"] [2; 0; 2]).
  - cbn. lia.
  - reflexivity.
  - cbn. lia.
Defined.

Lemma ClusterSequences_covers_witness :
  exists k b, nth_error [[]; []; str "ABC"] k = Some b /\ nth_error ex_chains k = Some b
              /\ b <> [] /\ substring (str "A") b.
Proof.
  apply (ClusterSequences_covers ex_chains [0; 1; 2] [[]; []; str "ABC"] [2; 0; 2])
    with (j := 1).
  - cbn. lia.
  - reflexivity.
  - reflexivity.
  - discriminate.
Defined.

Lemma CalculateWeight_symmetric_witness :
  CalculateWeight false ex_three_rows 1 2 = CalculateWeight false ex_three_rows 2 1.
Proof.
  apply (CalculateWeight_symmetric false ex_three_rows 1 2); cbn; lia.
Defined.

Lemma CalculateWeight_formula_witness :
  CalculateWeight false ex_three_rows 1 2
  = Ok (F32.sub F32.one (F32.div (F32.of_Z 2) (F32.of_Z 3)))
  /\ (0 <= 2 <= 3)%Z.
Proof.
  apply (CalculateWeight_formula false ex_three_rows 1 2
           (mkseq (str "Q") (str "AC-E") 0 0) (mkseq (str "h1/1-4") (str "ACDE") 0 0)
           (mkseq (str "h2/1-4") (str "A-DE") 0 0));
    try reflexivity.
Defined.

Lemma strip_iteration_spec_witness :
  strip_iteration (str "Q1" ++ str "-i" ++ str "3") = str "Q1".
Proof.
  apply (proj1 strip_iteration_spec); [discriminate|].
  split; [discriminate|reflexivity].
Defined.

Lemma Hit_new_outcome_witness :
  returns (Hit_new false ex_zero_matrix 0 (ex_rows "G") "A" 0 1).
Proof.
  refine (proj2 (proj2 (proj2
    (Hit_new_outcome false ex_zero_matrix 0 (ex_rows "G") "A" 0 1
       (mkseq (str "Q") (str "AG-C") 0 0)
       (mkseq (str "h/1-4") (str "AGKC") 0 0) eq_refl eq_refl eq_refl))) _ _ _ _).
  - discriminate.
  - split; reflexivity.
  - exists (str "h"), (str "1"), (str "4").
    repeat split; try discriminate; reflexivity.
  - intros [|k] Hk Hg Hs; [reflexivity|].
    specialize (Hg 0 ltac:(lia)). discriminate Hg.
Defined.

Lemma threshold_never_rises_witness :
  threshold_index (mkseq [] [] 14 45) < length kHomologyThreshold
  /\ threshold_index (mkseq [] [] 14 45) <= threshold_index (mkseq [] [] 30 90)
  /\ SFleb (nth (threshold_index (mkseq [] [] 30 90)) kHomologyThreshold S754_nan)
           (nth (threshold_index (mkseq [] [] 14 45)) kHomologyThreshold S754_nan)
     = true.
Proof.
  apply (threshold_never_rises (mkseq [] [] 14 45) (mkseq [] [] 30 90)).
  cbn. lia.
Defined.

Lemma IdentityAboveThreshold_slot_witness :
  HH.threshold_slot (HH.lali ex_hh_hit)
  = Z.of_nat (threshold_index (mkseq [] [] 0 (HH.lali ex_hh_hit)))
  /\ HH.IdentityAboveThreshold false kHomologyThreshold ex_hh_hit
     = Ok (SFltb (nth (threshold_index (mkseq [] [] 0 (HH.lali ex_hh_hit)))
                      kHomologyThreshold S754_nan)
                 (F64.of_f32 (HH.ide ex_hh_hit))).
Proof.
  apply (IdentityAboveThreshold_slot false kHomologyThreshold ex_hh_hit);
    [reflexivity|cbn; lia].
Defined.

Lemma CreateResidueHInfo_nocc_witness :
  exists d,
    HH.tally 2 ex_hh_hits 1 1 (repeat 0%Z 20) = Ok (2%Z, d)
    /\ length d = 20
    /\ zsum d = 1%Z
    /\ forall r, HH.CreateResidueHInfo 2 ex_hh_hits 1 = Ok r ->
                 HH.r_nocc r = 2%Z /\ (1 <= HH.r_nocc r)%Z.
Proof.
  apply (CreateResidueHInfo_nocc 2 ex_hh_hits 1).
  - repeat constructor; cbn; lia.
  - cbn. lia.
Defined.

Lemma insertion_pieces_spec_witness :
  concat (insertion_pieces (repeat "a"%char 250)) = repeat "a"%char 250
  /\ Forall (fun p => length p <= 100) (insertion_pieces (repeat "a"%char 250))
  /\ (repeat "a"%char 250 <> [] ->
      Forall (fun p => p <> []) (insertion_pieces (repeat "a"%char 250)))
  /\ length (insertion_pieces (repeat "a"%char 250))
     = Nat.max 1 ((length (repeat "a"%char 250) + 99) / 100).
Proof.
  apply (insertion_pieces_spec (repeat "a"%char 250)).
  rewrite repeat_length. lia.
Defined.

Lemma alignment_blocks_cover_witness :
  chained 0 (alignment_blocks (Z.to_nat 150) 0 150) 150.
Proof.
  apply (alignment_blocks_cover 150); lia.
Defined.

Lemma CheckAlignmentForChain_same_cut_witness :
  exists x y,
    strip_gaps (str "ABCD") = x ++ str "BC" ++ y
    /\ Forall2 (cut_row (length x) (length y))
               [ mkseq (str "Q") (str "ABCD") 0 0; mkseq (str "h/1-4") (str "AXC-") 0 0 ]
               [ mkseq (str "Q") (str "BC") 0 0; mkseq (str "h/1-4") (str "XC") 0 0 ].
Proof.
  apply (CheckAlignmentForChain_same_cut (mkseq (str "Q") (str "ABCD") 0 0)
           [mkseq (str "h/1-4") (str "AXC-") 0 0] (str "BC")).
  - cbn. lia.
  - vm_compute. reflexivity.
Defined.

Lemma ResidueHInfo_nocc_witness :
  exists r,
    ResidueHInfo_new false (fun x => x) [ex_marked "K"] "G" [ex_hit "K"] 1 "A" 2 2 []
                     F32.one = Ok r
    /\ nocc r = (1 + count (fun h => canonical (own_char [ex_marked "K"] 1 h))
                           [ex_hit "K"])%Z.
Proof.
  eexists. split; [vm_compute; reflexivity|].
  eapply (ResidueHInfo_nocc false (fun x => x) [ex_marked "K"] "G" [ex_hit "K"] 1 "A"
            2 2 [] F32.one).
  - cbn. lia.
  - vm_compute. reflexivity.
Defined.

Lemma Hit_new_reads_id_witness :
  exists h a',
    Hit_new false ex_zero_matrix 0 (ex_rows "K") "A" 0 1 = Ok (h, a')
    /\ (exists d1 d2,
          id_name (id h) /\ digits d1 /\ digits d2
          /\ str "h/1-4" = id h ++ str "/" ++ d1 ++ str "-" ++ d2
          /\ jfir h = decimal d1 /\ jlas h = decimal d2
          /\ (jfir h < 2 ^ 32)%Z /\ (jlas h < 2 ^ 32)%Z)
    /\ msa h = 0 /\ ix h = 1 /\ chain h = "A"%char.
Proof.
  eexists. eexists. split; [vm_compute; reflexivity|].
  eapply (Hit_new_reads_id false ex_zero_matrix 0 (ex_rows "K") "A" 0 1 _ _
           (mkseq (str "Q") (str "AG-C") 0 0) (mkseq (str "h/1-4") (str "AKKC") 0 0));
    [reflexivity|reflexivity|vm_compute; reflexivity].
Defined.

Lemma Hit_new_gap_counters_witness :
  exists h a',
    Hit_new false ex_zero_matrix 0 (ex_rows "K") "A" 0 1 = Ok (h, a')
    /\ (0 <= ngap h <= lgap h)%Z /\ (lgap h + similar h <= lali h)%Z.
Proof.
  eexists. eexists. split; [vm_compute; reflexivity|].
  eapply (Hit_new_gap_counters false ex_zero_matrix 0 (ex_rows "K") "A" 0 1 _ _
           (mkseq (str "Q") (str "AG-C") 0 0) (mkseq (str "h/1-4") (str "AKKC") 0 0));
    [reflexivity|reflexivity|cbn; lia|vm_compute; reflexivity].
Defined.

Lemma Hit_new_insertions_witness :
  exists h a',
    Hit_new false ex_zero_matrix 0 (ex_rows "K") "A" 0 1 = Ok (h, a')
    /\ (Z.of_nat (length (insertions h)) <= ngap h)%Z
    /\ Forall (fun x => 3 <= length (iseq x)) (insertions h).
Proof.
  eexists. eexists. split; [vm_compute; reflexivity|].
  eapply (Hit_new_insertions false ex_zero_matrix 0 (ex_rows "K") "A" 0 1 _ _
           (mkseq (str "Q") (str "AG-C") 0 0) (mkseq (str "h/1-4") (str "AKKC") 0 0));
    [reflexivity|reflexivity|cbn; lia|vm_compute; reflexivity].
Defined.

Lemma Hit_new_row_witness :
  exists h a',
    Hit_new false ex_zero_matrix 0 (ex_rows "K") "A" 0 1 = Ok (h, a')
    /\ length a' = length (ex_rows "K")
    /\ (forall j, j <> 1 -> nth_error a' j = nth_error (ex_rows "K") j)
    /\ exists row,
         nth_error a' 1 = Some row
         /\ m_id row = str "h/1-4" /\ m_identical row = 0%Z /\ m_length row = 0%Z
         /\ Forall2 row_rel (str "AKKC") (m_seq row).
Proof.
  eexists. eexists. split; [vm_compute; reflexivity|].
  eapply (Hit_new_row false ex_zero_matrix 0 (ex_rows "K") "A" 0 1 _ _
           (mkseq (str "Q") (str "AG-C") 0 0) (mkseq (str "h/1-4") (str "AKKC") 0 0));
    [reflexivity|reflexivity|cbn; lia|vm_compute; reflexivity].
Defined.

Lemma ChainToHits_hits_witness :
  exists al' hits' res',
    ChainToHits false ex_zero_matrix (fun x => x) ex_db [ex_rows "K"] 0 ex_chain [] []
    = Ok (al', hits', res')
    /\ exists new a',
         hits' = [] ++ new
         /\ length new = length (ex_rows "K") - 1
         /\ (forall k h, nth_error new k = Some h ->
               ix h = S k /\ msa h = 0 /\ chain h = GetChainID ex_chain)
         /\ nth_error al' 0 = Some a'
         /\ length a' = length (ex_rows "K")
         /\ nth_error a' 0 = nth_error (ex_rows "K") 0
         /\ forall j, j <> 0 -> nth_error al' j = nth_error [ex_rows "K"] j.
Proof.
  eexists. eexists. eexists. split; [vm_compute; reflexivity|].
  eapply (ChainToHits_hits false ex_zero_matrix (fun x => x) ex_db [ex_rows "K"] 0
           ex_chain [] [] _ _ _ (ex_rows "K")); [reflexivity|vm_compute; reflexivity].
Defined.

Lemma ChainToHits_numbering_witness :
  exists al' hits' res',
    ChainToHits false ex_zero_matrix (fun x => x) ex_db [ex_rows "K"] 0 ex_chain [] []
    = Ok (al', hits', res')
    /\ length res' = 4
    /\ numbered_entries res' /\ exists added, res' = [] ++ added.
Proof.
  eexists. eexists. eexists. split; [vm_compute; reflexivity|].
  split; [reflexivity|].
  eapply (ChainToHits_numbering false ex_zero_matrix (fun x => x) ex_db [ex_rows "K"] 0
           ex_chain [] [] _ _ _).
  - vm_compute; reflexivity.
  - intros [|k] e Hk; discriminate Hk.
  - cbn. lia.
Defined.

Lemma ChainToHits_residues_witness :
  exists al' hits' res',
    ChainToHits false ex_zero_matrix (fun x => x) ex_db [ex_rows "K"] 0 ex_chain [] []
    = Ok (al', hits', res')
    /\ exists added,
         res' = [] ++ added
         /\ map letter (residues_of added) = str "AGC"
         /\ map pos (residues_of added) = [0; 1; 3]
         /\ Forall (fun r => r_chain r = "A"%char) (residues_of added)
         /\ map pdbNr (residues_of added) = [1; 2; 5]%Z
         /\ (false = false -> length (GetResidues ex_chain) = 3).
Proof.
  eexists. eexists. eexists. split; [vm_compute; reflexivity|].
  eapply (ChainToHits_residues false ex_zero_matrix (fun x => x) ex_db [ex_rows "K"] 0
           ex_chain [] [] _ _ _ (ex_rows "K") (mkseq (str "Q") (str "AG-C") 0 0));
    [reflexivity|reflexivity|vm_compute; reflexivity].
Defined.

Lemma CheckAlignmentForChain_throws_witness :
  throws (CheckAlignmentForChain [mkseq (str "Q") (str "A-B") 0 0] (str "ABC")).
Proof.
  apply (CheckAlignmentForChain_throws (mkseq (str "Q") (str "A-B") 0 0) [] (str "ABC")).
  right. cbn. lia.
Defined.

Lemma CheckAlignmentForChain_without_gaps_witness :
  exists q,
    nth_error [ mkseq (str "Q") (str "BC") 0 0; mkseq (str "h/1-4") (str "XC") 0 0 ] 0
    = Some q
    /\ m_seq q = str "BC".
Proof.
  apply (CheckAlignmentForChain_without_gaps (mkseq (str "Q") (str "ABCD") 0 0)
           [mkseq (str "h/1-4") (str "AXC-") 0 0] (str "BC")).
  - reflexivity.
  - cbn. lia.
  - vm_compute. reflexivity.
Defined.

Lemma CreateHit_counters_witness :
  exists h trimmed,
    HH.CreateHit false ex_encode 45 ex_matrix ex_kAA (str "h") (str "ACDE") (str "-CDE")
    = Ok (h, trimmed)
    /\ HH.lali h
       = Z.of_nat (length (trimmed_columns 45 ex_matrix (ex_encode (str "ACDE"))
                                           (ex_encode (str "-CDE"))))
    /\ trimmed = trimmed_columns 45 ex_matrix (ex_encode (str "ACDE"))
                                 (ex_encode (str "-CDE"))
    /\ Forall (not_common 45)
              (trimmed_columns 45 ex_matrix (ex_encode (str "ACDE"))
                               (ex_encode (str "-CDE")))
    /\ (0 <= HH.identical h <= HH.similar h)%Z
    /\ (HH.similar h <= HH.lali h)%Z.
Proof.
  eexists. eexists. split; [vm_compute; reflexivity|].
  eapply (CreateHit_counters false ex_encode 45 ex_matrix ex_kAA (str "h") (str "ACDE")
            (str "-CDE")).
  - cbn. lia.
  - vm_compute. reflexivity.
Defined.
